(** * md2ipynb: the Markdown-to-notebook parsing core

    A shallow embedding of [skills/md2ipynb/scripts/convert.py]: front-matter
    removal, fence-aware splitting on [---] lines, extraction of fenced code
    blocks by the regular expression of [extract_cells_from_section], the
    cell filter of [parse_markdown] and the cell mapping of [create_notebook],
    together with the stats of [convert] and the allow set that [main] builds
    from its option.

    Python text is a sequence of code points.  This development models the
    code points below 256 (the Latin-1 range), one [ascii] per code point, and
    gives the three character tables the code depends on ([str.isspace],
    the class [\w] of [re], [str.lower]) for that range.  In that range
    [str.lower] maps one character to one character and a word character to
    a word character, which does not hold of Python text in general.  The
    properties below use of [str.lower] only what holds of all Python text:
    lower-casing twice is lower-casing once, only the empty string has an
    empty lower-casing, and the lower-casing of word characters holds no
    white space and is never [-].  The module [Wide] adds the two code
    points that show the difference. *)

From Stdlib Require Import Ascii String NArith.
From stdpp Require Import gmap list strings.

(** ** Python strings *)

Abbreviation str := (list ascii) (only parsing).

(** A string literal. *)
Definition lit (x : string) : str := list_ascii_of_string x.

(** The newline character, ['\n']. *)
Definition nl : ascii := ascii_of_N 10.

Definition between (lo hi n : N) : bool := ((lo <=? n) && (n <=? hi))%N.

(** [str.isspace] on one character: TAB..CR, FS..US, space, NEL, NBSP. *)
Definition isspace (c : ascii) : bool :=
  let n := N_of_ascii c in
  between 9 13 n || between 28 32 n || (n =? 133)%N || (n =? 160)%N.

(** The class [\w] of a [str] pattern: alphanumeric characters and [_]. *)
Definition isword (c : ascii) : bool :=
  let n := N_of_ascii c in
  between 48 57 n || between 65 90 n || (n =? 95)%N || between 97 122 n
  || (n =? 170)%N || (n =? 178)%N || (n =? 179)%N || (n =? 181)%N
  || (n =? 185)%N || (n =? 186)%N || between 188 190 n
  || between 192 214 n || between 216 246 n || between 248 255 n.

(** [str.lower] on one character: A..Z and the capital letters of Latin-1. *)
Definition lower_char (c : ascii) : ascii :=
  let n := N_of_ascii c in
  if between 65 90 n || between 192 214 n || between 216 222 n
  then ascii_of_N (n + 32) else c.

Definition lower (s : str) : str := map lower_char s.

Fixpoint takeWhile (p : ascii -> bool) (s : str) : str :=
  match s with
  | c :: s' => if p c then c :: takeWhile p s' else []
  | [] => []
  end.

Fixpoint dropWhile (p : ascii -> bool) (s : str) : str :=
  match s with
  | c :: s' => if p c then dropWhile p s' else s
  | [] => []
  end.

(** [s.lstrip()], [s.rstrip()], [s.strip()]. *)
Definition lstrip (s : str) : str := dropWhile isspace s.
Definition rstrip (s : str) : str := rev (dropWhile isspace (rev s)).
Definition strip (s : str) : str := rstrip (lstrip s).

(** [s.startswith(prefix)]. *)
Fixpoint startswith (s prefix : str) {struct prefix} : bool :=
  match prefix, s with
  | [], _ => true
  | p :: prefix', c :: s' => bool_decide (c = p) && startswith s' prefix'
  | _ :: _, [] => false
  end.

(** [s.split('\n')]: never empty, [''.split('\n') == ['']]. *)
Fixpoint split_nl (s : str) : list str :=
  match s with
  | [] => [[]]
  | c :: s' =>
      if bool_decide (c = nl) then [] :: split_nl s'
      else match split_nl s' with
           | l :: ls => (c :: l) :: ls
           | [] => [[c]]
           end
  end.

(** [sep.join(l)]. *)
Fixpoint join (sep : str) (l : list str) : str :=
  match l with
  | [] => []
  | [x] => x
  | x :: rest => x ++ sep ++ join sep rest
  end.

(** [s[a:b]] for indices [0 <= a], [0 <= b]; out-of-range indices clamp. *)
Definition slice (s : str) (a b : nat) : str := take (b - a) (drop a s).

(** Truth value of a string in a condition: non-empty. *)
Definition truthy (s : str) : bool :=
  match s with [] => false | _ :: _ => true end.

(** ** Constants of the format *)

Definition delimiter_default : str := lit "---".
Definition fence : str := lit "```".
Definition DEFAULT_CODE_LANGUAGES : gset str := {[ lit "python"; lit "sql" ]}.

(** ** [remove_front_matter] *)

(** The [for i, line in enumerate(lines)] loop; the result is [end_index],
    which stays [0] unless a second [---] line is met (then the loop breaks). *)
Fixpoint front_matter_end (lines : list str) (i : nat) (in_front_matter : bool)
  : nat :=
  match lines with
  | [] => 0
  | line :: rest =>
      let stripped := strip line in
      if bool_decide (stripped = lit "---") then
        if negb in_front_matter then front_matter_end rest (S i) true
        else i + 1
      else front_matter_end rest (S i) in_front_matter
  end.

Definition remove_front_matter (content : str) : str :=
  if negb (startswith content (lit "---")) then content
  else
    let lines := split_nl content in
    let end_index := front_matter_end lines 0 false in
    if bool_decide (0 < end_index) then join [nl] (drop end_index lines)
    else content.

(** ** [split_by_delimiter] *)

Record SplitState := {
  sections : list str;
  current_section : list str;
  in_code_block : bool
}.

Definition split_init : SplitState :=
  {| sections := []; current_section := []; in_code_block := false |}.

(** The three lines "save current section": join, strip, keep if non-empty. *)
Definition flush (sections : list str) (current_section : list str)
  : list str :=
  let section_content := strip (join [nl] current_section) in
  if truthy section_content then sections ++ [section_content] else sections.

(** One iteration of [for line in lines]. *)
Definition split_step (delimiter : str) (st : SplitState) (line : str)
  : SplitState :=
  let stripped := strip line in
  if startswith stripped fence then
    {| sections := sections st;
       current_section := current_section st ++ [line];
       in_code_block := negb (in_code_block st) |}
  else if negb (in_code_block st) && bool_decide (stripped = delimiter) then
    {| sections := flush (sections st) (current_section st);
       current_section := [];
       in_code_block := in_code_block st |}
  else
    {| sections := sections st;
       current_section := current_section st ++ [line];
       in_code_block := in_code_block st |}.

Definition split_run (delimiter : str) (st : SplitState) (lines : list str)
  : SplitState :=
  fold_left (split_step delimiter) lines st.

Definition split_by_delimiter (content : str) (delimiter : str) : list str :=
  let lines := split_nl content in
  let st := split_run delimiter split_init lines in
  flush (sections st) (current_section st).

(** ** Regular expressions

    The fragment of Python's [re] that [extract_cells_from_section] uses,
    under the flags [re.MULTILINE | re.DOTALL], with the backtracking
    semantics of the engine: a greedy star tries one more iteration before
    it tries what follows, a lazy star tries what follows first. *)

Inductive regex :=
| Bol                                (* [^]: at position 0 or after a newline *)
| Eol                                (* [$]: at the end or before a newline *)
| Chr (c : ascii)                    (* a literal character *)
| Word                               (* [\w] *)
| Dot                                (* [.], any character under DOTALL *)
| Cat (r1 r2 : regex)                (* [r1 r2] *)
| Star (greedy : bool) (r : regex)   (* [r*] when greedy, else [r*?] *)
| Group (n : nat) (r : regex).       (* capturing group number [n] *)

(** A position of the engine in the subject string: the index, whether [^]
    holds there, the text from there on, and the groups captured so far,
    the latest capture first. *)
Record Cursor := {
  cur_pos : nat;
  cur_bol : bool;
  cur_rest : str;
  cur_groups : list (nat * str)
}.

(** The text captured by group [n], if the group took part in the match. *)
Fixpoint group (n : nat) (groups : list (nat * str)) : option str :=
  match groups with
  | [] => None
  | (i, text) :: groups' => if i =? n then Some text else group n groups'
  end.

(** Consume one character satisfying [p], then continue with [k]. *)
Definition eat (p : ascii -> bool) (cu : Cursor)
  (k : Cursor -> option Cursor) : option Cursor :=
  match cur_rest cu with
  | c :: s' =>
      if p c
      then k {| cur_pos := S (cur_pos cu);
                cur_bol := bool_decide (c = nl);
                cur_rest := s';
                cur_groups := cur_groups cu |}
      else None
  | [] => None
  end.

(** At most [n] more iterations of [step], each of which must consume
    something, followed by [k]. *)
Fixpoint repeat_re (greedy : bool)
  (step : Cursor -> (Cursor -> option Cursor) -> option Cursor)
  (k : Cursor -> option Cursor) (n : nat) (cu : Cursor) : option Cursor :=
  match n with
  | 0 => k cu
  | S n' =>
      let more :=
        step cu (fun cu1 =>
                   if cur_pos cu <? cur_pos cu1
                   then repeat_re greedy step k n' cu1
                   else None) in
      if greedy
      then match more with Some cu' => Some cu' | None => k cu end
      else match k cu with Some cu' => Some cu' | None => more end
  end.

(** [run r cu k]: match [r] at [cu], then [k]; the first success in the
    engine's order of alternatives.  No more iterations of a star can
    consume something than there are characters left. *)
Fixpoint run (r : regex) (cu : Cursor) (k : Cursor -> option Cursor)
  : option Cursor :=
  match r with
  | Bol => if cur_bol cu then k cu else None
  | Eol =>
      match cur_rest cu with
      | [] => k cu
      | c :: _ => if bool_decide (c = nl) then k cu else None
      end
  | Chr c => eat (fun x => bool_decide (x = c)) cu k
  | Word => eat isword cu k
  | Dot => eat (fun _ => true) cu k
  | Cat r1 r2 => run r1 cu (fun cu1 => run r2 cu1 k)
  | Star greedy r1 => repeat_re greedy (run r1) k (length (cur_rest cu)) cu
  | Group n r1 =>
      run r1 cu (fun cu1 =>
        k {| cur_pos := cur_pos cu1;
             cur_bol := cur_bol cu1;
             cur_rest := cur_rest cu1;
             cur_groups :=
               (n, take (cur_pos cu1 - cur_pos cu) (cur_rest cu))
               :: cur_groups cu1 |})
  end.

Infix ">>>" := Cat (at level 60, right associativity).

(** ** The pattern of [extract_cells_from_section]

    [code_block_pattern]: [^], three backticks, group 1 = [\w*], a newline,
    group 2 = [.*?], [^], three backticks, [$]. *)

Definition backtick : ascii := "`"%char.

Definition code_block_pattern : regex :=
  Bol >>> Chr backtick >>> Chr backtick >>> Chr backtick >>>
  Group 1 (Star true Word) >>> Chr nl >>>
  Group 2 (Star false Dot) >>>
  Bol >>> Chr backtick >>> Chr backtick >>> Chr backtick >>> Eol.

(** A match object: its span and its two groups. *)
Record Match := {
  m_start : nat;
  m_end : nat;
  group1 : str;
  group2 : str
}.

(** The pattern tried at one position. *)
Definition match_here (pos : nat) (bol : bool) (s : str) : option Cursor :=
  run code_block_pattern
    {| cur_pos := pos; cur_bol := bol; cur_rest := s; cur_groups := [] |} Some.

Definition match_object (pos : nat) (cu : Cursor) : Match :=
  {| m_start := pos;
     m_end := cur_pos cu;
     group1 := default [] (group 1 (cur_groups cu));
     group2 := default [] (group 2 (cur_groups cu)) |}.

(** [code_block_pattern.finditer(section)]: the leftmost match from each
    position on, each search resuming where the previous match ended.  [s]
    is the text from [pos] on and [bol] says whether [^] holds at [pos].
    The pattern contains six backticks, so a match is never empty and the
    engine's rule for empty matches plays no part; one unit of fuel per
    position suffices. *)
Fixpoint finditer_from (fuel : nat) (pos : nat) (bol : bool) (s : str)
  : list Match :=
  match fuel with
  | 0 => []
  | S fuel' =>
      match match_here pos bol s with
      | Some cu =>
          match_object pos cu
          :: finditer_from fuel' (cur_pos cu) (cur_bol cu) (cur_rest cu)
      | None =>
          match s with
          | [] => []
          | c :: s' => finditer_from fuel' (S pos) (bool_decide (c = nl)) s'
          end
      end
  end.

Definition finditer (section : str) : list Match :=
  finditer_from (S (length section)) 0 true section.

(** ** [extract_cells_from_section] *)

Inductive CellType := markdown | code.

#[global] Instance CellType_eq_dec : EqDecision CellType.
Proof. solve_decision. Defined.

(** A cell: the dict with keys ['type'], ['content'] and ['language']. *)
Record Cell := {
  cell_type : CellType;
  cell_content : str;
  cell_language : option str
}.

(** The body of [for match in code_block_pattern.finditer(section)]; the
    loop state is [cells] and [last_end]. *)
Definition extract_step (section : str) (code_languages : gset str)
  (st : list Cell * nat) (m : Match) : list Cell * nat :=
  let '(cells, last_end) := st in
  let language := lower (group1 m) in
  if bool_decide (language ∈ code_languages) then
    let before_content := strip (slice section last_end (m_start m)) in
    let cells :=
      if truthy before_content
      then cells ++ [{| cell_type := markdown; cell_content := before_content;
                        cell_language := None |}]
      else cells in
    let code_content := rstrip (group2 m) in
    (cells ++ [{| cell_type := code; cell_content := code_content;
                  cell_language := Some language |}],
     m_end m)
  else (cells, last_end).

Definition extract_cells_from_section (section : str)
  (code_languages : gset str) : list Cell :=
  let '(cells, last_end) :=
    fold_left (extract_step section code_languages) (finditer section)
      ([], 0) in
  let after_content := strip (drop last_end section) in
  if truthy after_content
  then cells ++ [{| cell_type := markdown; cell_content := after_content;
                    cell_language := None |}]
  else cells.

(** ** [parse_markdown] *)

Definition parse_markdown (content : str) (code_languages : option (gset str))
  : list Cell :=
  let code_languages := default DEFAULT_CODE_LANGUAGES code_languages in
  let content := remove_front_matter content in
  let sections := split_by_delimiter content delimiter_default in
  let cells :=
    fold_left
      (fun cells section =>
         cells ++ extract_cells_from_section section code_languages)
      sections [] in
  List.filter (fun c => truthy (strip (cell_content c))) cells.

(** ** [create_notebook] *)

(** A notebook cell as built by [new_markdown_cell] and [new_code_cell];
    of a code cell only the source and the metadata dict matter here. *)
Inductive NbCell :=
| NbMarkdown (source : str)
| NbCode (source : str) (metadata : gmap str str).

(** The test [cell.get('language') and cell['language'] != 'python']. *)
Definition needs_language_metadata (language : option str) : bool :=
  match language with
  | Some l => truthy l && negb (bool_decide (l = lit "python"))
  | None => false
  end.

Definition notebook_step (nb_cells : list NbCell) (cell : Cell)
  : list NbCell :=
  match cell_type cell with
  | markdown => nb_cells ++ [NbMarkdown (cell_content cell)]
  | code =>
      let metadata : gmap str str :=
        if needs_language_metadata (cell_language cell)
        then <[ lit "language" := default [] (cell_language cell) ]> ∅
        else ∅ in
      nb_cells ++ [NbCode (cell_content cell) metadata]
  end.

Definition create_notebook (cells : list Cell) : list NbCell :=
  fold_left notebook_step cells [].

(** ** [convert] *)

(** The dict of conversion stats that [convert] returns. *)
Record Stats := {
  status : str;
  input : str;
  output : str;
  total_cells : nat;
  markdown_cells : nat;
  code_cells : nat
}.

(** [sum(1 for c in cells if c['type'] == t)]. *)
Definition count_type (t : CellType) (cells : list Cell) : nat :=
  length (List.filter (fun c => bool_decide (cell_type c = t)) cells).

(** [convert], with its two file operations made explicit: [content] is the
    text that [Path(input_path).read_text] returned, and the first component
    of the result is the notebook handed to [nbformat.write].  An exception
    raised by either file operation is outside this model. *)
Definition convert (content input_path output_path : str)
  (code_languages : option (gset str)) : list NbCell * Stats :=
  let cells := parse_markdown content code_languages in
  let nb := create_notebook cells in
  (nb,
   {| status := lit "success";
      input := input_path;
      output := output_path;
      total_cells := length cells;
      markdown_cells := count_type markdown cells;
      code_cells := count_type code cells |}).

(** ** [main] *)

(** [s.split(sep)] for a separator of one character: never empty. *)
Fixpoint split_char (sep : ascii) (s : str) : list str :=
  match s with
  | [] => [[]]
  | c :: s' =>
      if bool_decide (c = sep) then [] :: split_char sep s'
      else match split_char sep s' with
           | l :: ls => (c :: l) :: ls
           | [] => [[c]]
           end
  end.

Definition comma : ascii := ","%char.

(** The allow set that [main] builds from the option [--code-languages]:
    [set(args.code_languages.split(','))]. *)
Definition main_code_languages (arg : str) : gset str :=
  list_to_set (split_char comma arg).

(** The default of the option, [','.join(DEFAULT_CODE_LANGUAGES)], where
    [order] is the order in which the set is iterated. *)
Definition default_code_languages_arg (order : list str) : str :=
  join [comma] order.

(** ** Predicates and auxiliary functions used in the statements *)

(** *** The pattern in closed form *)

(** The closing fence [^```$] at the current position; [bol] says whether
    [^] holds here. *)
Definition closing_here (bol : bool) (s : str) : bool :=
  bol && startswith s fence &&
  match drop 3 s with
  | [] => true
  | c :: _ => bool_decide (c = nl)
  end.

(** Group 2: the lazy star tries the closing fence at the current position
    first and takes one more character only when that fails, so group 2 is
    the shortest text that reaches a closing fence line. *)
Fixpoint lazy_body (bol : bool) (s : str) : option str :=
  if closing_here bol s then Some []
  else match s with
       | [] => None
       | c :: s' =>
           match lazy_body (bool_decide (c = nl)) s' with
           | Some body => Some (c :: body)
           | None => None
           end
       end.

(** The whole pattern at position [pos], where [s] is the text from [pos] on
    and [^] holds.  The greedy [\w*] takes the longest run of word
    characters; giving one back leaves a word character where the newline is
    required, so backtracking into it never succeeds. *)
Definition match_at (pos : nat) (s : str) : option Match :=
  if startswith s fence then
    let after_fence := drop 3 s in
    let tag := takeWhile isword after_fence in
    match dropWhile isword after_fence with
    | c :: rest =>
        if bool_decide (c = nl) then
          match lazy_body true rest with
          | Some body =>
              Some {| m_start := pos;
                      m_end := pos + 3 + length tag + 1 + length body + 3;
                      group1 := tag;
                      group2 := body |}
          | None => None
          end
        else None
    | [] => None
    end
  else None.

(** The scan of [finditer] over the closed form. *)
Fixpoint scan (fuel : nat) (pos : nat) (bol : bool) (s : str) : list Match :=
  match fuel with
  | 0 => []
  | S fuel' =>
      match s with
      | [] => []
      | c :: s' =>
          match (if bol then match_at pos s else None) with
          | Some m => m :: scan fuel' (m_end m) false (drop (m_end m - pos) s)
          | None => scan fuel' (S pos) (bool_decide (c = nl)) s'
          end
      end
  end.

(** The first line of a text. *)
Definition first_line (content : str) : str := hd [] (split_nl content).

(** The front-matter contract read as an equivalence: something is removed
    exactly when the first line is a [---] line, and a first line that is
    not a [---] line leaves the text unchanged. *)
Definition strips_iff_first_line_delimiter (content : str) : Prop :=
  (remove_front_matter content <> content <->
   strip (first_line content) = lit "---") /\
  (strip (first_line content) <> lit "---" ->
   remove_front_matter content = content).

(** A line toggles the fence state when its trimmed text starts with three
    backticks. *)
Definition is_fence_line (line : str) : bool := startswith (strip line) fence.

(** Whether a fence is open after [lines]: an odd number of fence lines. *)
Definition fence_open_after (lines : list str) : bool :=
  Nat.odd (length (List.filter is_fence_line lines)).

(** While a fence is open, the line that opened it is in the buffer. *)
Definition open_fence_buffered (st : SplitState) : Prop :=
  in_code_block st = true ->
  Exists (fun l => is_fence_line l = true) (current_section st).

(** The notebook cell that one parsed cell becomes. *)
Definition notebook_cell (cell : Cell) : NbCell :=
  match cell_type cell with
  | markdown => NbMarkdown (cell_content cell)
  | code =>
      NbCode (cell_content cell)
        (if needs_language_metadata (cell_language cell)
         then <[ lit "language" := default [] (cell_language cell) ]> ∅
         else ∅)
  end.

(** The language metadata of a notebook cell, if it is a code cell that
    has one. *)
Definition language_metadata (c : NbCell) : option str :=
  match c with
  | NbMarkdown _ => None
  | NbCode _ metadata => metadata !! lit "language"
  end.

(** The metadata rule as the specification words it: a code cell whose
    language is not [python] carries that language, one whose language is
    [python] carries none. *)
Definition records_non_default_language (cell : Cell) (c : NbCell) : Prop :=
  cell_type cell = code ->
  (cell_language cell <> Some (lit "python") ->
   language_metadata c = cell_language cell) /\
  (cell_language cell = Some (lit "python") -> language_metadata c = None).

(** Matches in scan order: each starts at or after [lo], is not empty, and
    the next one starts at or after its end. *)
Fixpoint chain (lo : nat) (ms : list Match) : Prop :=
  match ms with
  | [] => True
  | m :: rest => lo <= m_start m /\ m_start m < m_end m /\ chain (m_end m) rest
  end.

(** The text a match covers. *)
Definition block_text (m : Match) : str :=
  fence ++ group1 m ++ nl :: group2 m ++ fence.

(** What every match of the pattern in [section] satisfies: it starts at
    the beginning of a line, lies inside the section, covers an opening
    fence with a tag of word characters, a newline, the body and a closing
    fence. *)
Definition match_in (section : str) (m : Match) : Prop :=
  (m_start m = 0 \/ section !! (m_start m - 1) = Some nl) /\
  m_end m <= length section /\
  m_end m = m_start m + length (block_text m) /\
  slice section (m_start m) (m_end m) = block_text m /\
  forallb isword (group1 m) = true.

(** Whether the loop extracts a match. *)
Definition extracted (code_languages : gset str) (m : Match) : bool :=
  bool_decide (lower (group1 m) ∈ code_languages).

(** The prose cell for a stretch of text, if it is not blank. *)
Definition prose_cell (text : str) : list Cell :=
  if truthy (strip text)
  then [{| cell_type := markdown; cell_content := strip text;
           cell_language := None |}]
  else [].

(** The code cell of an extracted match. *)
Definition code_cell (m : Match) : Cell :=
  {| cell_type := code; cell_content := rstrip (group2 m);
     cell_language := Some (lower (group1 m)) |}.

(** The cells from [last_end] on, given the matches still to extract. *)
Fixpoint emit (section : str) (last_end : nat) (ms : list Match) : list Cell :=
  match ms with
  | [] => prose_cell (drop last_end section)
  | m :: rest =>
      prose_cell (slice section last_end (m_start m))
      ++ code_cell m :: emit section (m_end m) rest
  end.

(** A text whose first and last characters are not white space. *)
Definition solid (t : str) : Prop :=
  (exists x t', t = x :: t' /\ isspace x = false) /\
  (exists t' y, t = t' ++ [y] /\ isspace y = false).

(** A stretch of prose that holds [t]. *)
Definition prose_holds (cells : list Cell) (t : str) : Prop :=
  exists c pre post,
    In c cells /\ cell_type c = markdown /\ cell_content c = pre ++ t ++ post.

(** Whether [line], met in fence state [b], ends the current section. *)
Definition splits_at (b : bool) (line : str) : bool :=
  negb (is_fence_line line) && negb b &&
  bool_decide (strip line = lit "---").

(** The fence state after [lines], started in state [b], provided none of
    them ends a section. *)
Fixpoint buffered (b : bool) (lines : list str) : option bool :=
  match lines with
  | [] => Some b
  | l :: ls =>
      if splits_at b l then None
      else buffered (xorb b (is_fence_line l)) ls
  end.

(** A section as the segmenter produces it: not empty, trimmed, and with no
    line that would end it; [b] is the fence state at its end. *)
Definition sectionlike (b : bool) (s : str) : Prop :=
  s <> [] /\ strip s = s /\ buffered false (split_nl s) = Some b.

(** All sections but the last end with the fence closed. *)
Fixpoint sections_ok (b : bool) (ss : list str) : Prop :=
  match ss with
  | [] => True
  | [s] => sectionlike b s
  | s :: rest => sectionlike false s /\ sections_ok b rest
  end.

(** The separator [\n---\n]. *)
Definition delimiter_line : str := nl :: lit "---" ++ [nl].

(** What holds of the segmenter state all along the loop: the completed
    sections are section-like with the fence closed, and the buffered lines
    contain no line that ends a section. *)
Definition segmenter_inv (st : SplitState) : Prop :=
  Forall (sectionlike false) (sections st) /\
  Forall (fun l => nl ∉ l) (current_section st) /\
  buffered false (current_section st) = Some (in_code_block st).

(** Where a match ends and what its body looks like: the match ends at the
    end of a line, and its body is empty or ends with a newline. *)
Definition match_eol (section : str) (m : Match) : Prop :=
  (drop (m_end m) section = [] \/
   exists r, drop (m_end m) section = nl :: r) /\
  (group2 m = [] \/ exists b, group2 m = b ++ [nl]).

(** The number of fence lines of a text. *)
Definition fence_lines (s : str) : nat :=
  length (List.filter is_fence_line (split_nl s)).

(** The fence lines from [last_end] on, where [last_end] is 0 or the end of
    a match: those of the lines after the line that ends at [last_end]. *)
Definition fence_lines_after (section : str) (last_end : nat) : nat :=
  match last_end with
  | 0 => fence_lines section
  | S _ =>
      match drop last_end section with
      | [] => 0
      | _ :: rest => fence_lines rest
      end
  end.

(** Cells that the final filter of [parse_markdown] drops. *)
Definition all_blank (cells : list Cell) : Prop :=
  Forall (fun c => truthy (strip (cell_content c)) = false) cells.

(** *** Vocabulary of the further properties *)

(** A front-matter block: a [---] line, the lines [meta], a [---] line. *)
Definition front_matter_block (meta : list str) : str :=
  join [nl] (lit "---" :: meta ++ [lit "---"]).

(** Whether a line trims to [---]. *)
Definition is_rule (line : str) : Prop := strip line = lit "---".

#[global] Instance is_rule_dec line : Decision (is_rule line).
Proof. unfold is_rule. apply _. Defined.

(** The strings [parts] occur in [text] one after the other, without
    overlap. *)
Fixpoint occurs_in_order (parts : list str) (text : str) : Prop :=
  match parts with
  | [] => True
  | p :: rest =>
      exists pre post, text = pre ++ p ++ post /\ occurs_in_order rest post
  end.

(** Lines, each followed by a newline. *)
Definition unlines (lines : list str) : str :=
  concat (map (fun l => l ++ [nl]) lines).

(** The single section of a text that is not split. *)
Definition whole_section (content : str) : list str :=
  if truthy (strip content) then [strip content] else [].

(** No two markdown cells in a row. *)
Fixpoint no_adjacent_markdown (cells : list Cell) : Prop :=
  match cells with
  | c1 :: rest =>
      match rest with
      | c2 :: _ => ~ (cell_type c1 = markdown /\ cell_type c2 = markdown)
      | [] => True
      end /\ no_adjacent_markdown rest
  | [] => True
  end.

(** The markdown cell that holds [text]. *)
Definition markdown_cell (text : str) : Cell :=
  {| cell_type := markdown; cell_content := text; cell_language := None |}.

(** What a cell of the output looks like: a markdown cell has no language
    and a trimmed, non-empty content; a code cell has as its language the
    lower-casing of a tag of word characters, which is in the allow set,
    and a content with no white space at its end. *)
Definition well_formed_cell (code_languages : gset str) (c : Cell) : Prop :=
  match cell_type c with
  | markdown =>
      cell_language c = None /\
      strip (cell_content c) = cell_content c /\ cell_content c <> []
  | code =>
      exists tag, forallb isword tag = true /\
                  cell_language c = Some (lower tag) /\
                  lower tag ∈ code_languages /\
                  rstrip (cell_content c) = cell_content c
  end.

(** What every lower-cased tag is, so that an entry of the allow set which
    is not can equal none: its own lower-casing, with no white space in
    it. *)
Definition may_match (l : str) : Prop :=
  lower l = l /\ forallb (fun c => negb (isspace c)) l = true.

#[global] Instance may_match_dec l : Decision (may_match l).
Proof. unfold may_match. apply _. Defined.

(** No line of the body of a match is a closing fence: the body is the
    shortest one. *)
Definition body_minimal (m : Match) : Prop :=
  Forall (fun l => l <> fence) (split_nl (group2 m)).

(** A fenced block: an opening fence line with the tag [tag], the lines
    [body], and a closing fence line. *)
Definition fenced_block (tag : str) (body : list str) : str :=
  join [nl] ((fence ++ tag) :: body ++ [fence]).

(** The code cell that a fenced block becomes. *)
Definition block_cell (tag : str) (body : list str) : Cell :=
  {| cell_type := code; cell_content := rstrip (join [nl] body);
     cell_language := Some (lower tag) |}.

(** A match moved [k] characters to the right. *)
Definition shift_match (k : nat) (m : Match) : Match :=
  {| m_start := k + m_start m; m_end := k + m_end m;
     group1 := group1 m; group2 := group2 m |}.

(** Text that ends where a line ends. *)
Definition at_line_end (r : str) : Prop := r = [] \/ exists r', r = nl :: r'.

(** Prose with no line that begins with three backticks. *)
Definition fence_free (text : str) : Prop :=
  Forall (fun l => startswith l fence = false) (split_nl text).

(** Whether a notebook cell is a code cell. *)
Definition is_code_cell (c : NbCell) : bool :=
  match c with NbCode _ _ => true | NbMarkdown _ => false end.

(** Text that holds no content: white space, [---] rules, and fences with
    their tags. *)
Inductive markup : str -> Prop :=
| markup_nil : markup []
| markup_space (c : ascii) (t : str) :
    isspace c = true -> markup t -> markup (c :: t)
| markup_rule (t : str) : markup t -> markup (lit "---" ++ t)
| markup_fence (tag t : str) :
    forallb isword tag = true -> markup t -> markup (fence ++ tag ++ t).

(** [text] is made of [parts], in this order, with nothing but markup
    before, between and after them. *)
Fixpoint made_of (parts : list str) (text : str) : Prop :=
  match parts with
  | [] => markup text
  | p :: rest =>
      exists pre post,
        text = pre ++ p ++ post /\ markup pre /\ made_of rest post
  end.

(** The cells of [pending ++ s], where [pending] is text already passed
    that belongs to no extracted block, [s] is the text still to scan and
    [bol] says whether [s] begins a line. *)
Definition walk (langs : gset str) (pending : str) (bol : bool) (s : str)
  : list Cell :=
  emit (pending ++ s) 0
    (map (shift_match (length pending))
       (List.filter (extracted langs) (scan (length s) 0 bol s))).

(** Two cell lists that took the same decisions: as many cells, of the same
    kinds, with the same languages. *)
Definition same_decisions (cells1 cells2 : list Cell) : Prop :=
  Forall2 (fun c1 c2 =>
     cell_type c1 = cell_type c2 /\ cell_language c1 = cell_language c2)
    cells1 cells2.

(** The line that opens a block tagged [tag]. *)
Definition opening_line (tag : str) : str := fence ++ tag ++ [nl].

(** ** Beyond Latin-1

    [str.lower] does not map every code point to one code point: the
    lower-casing of U+0130 (capital I with dot above) is [i] followed by
    U+0307 (combining dot above), and U+0307 is not in the class [\w].  The
    module [Wide] repeats the embedding of [extract_cells_from_section], with
    the functions it calls, over Latin-1 extended by these two code points. *)

Module Wide.

Inductive uchar :=
| Latin (c : ascii)   (* a code point below 256 *)
| CapitalIDot         (* U+0130 *)
| CombiningDot.       (* U+0307 *)

#[global] Instance uchar_eq_dec : EqDecision uchar.
Proof. solve_decision. Defined.

#[global] Instance uchar_countable : Countable uchar.
Proof.
  apply (inj_countable'
           (fun c => match c with
                     | Latin a => inl a
                     | CapitalIDot => inr true
                     | CombiningDot => inr false
                     end)
           (fun x => match x with
                     | inl a => Latin a
                     | inr true => CapitalIDot
                     | inr false => CombiningDot
                     end)).
  by intros [].
Defined.

Abbreviation str := (list uchar) (only parsing).

Definition lit (x : string) : str := map Latin (list_ascii_of_string x).

(** The newline character of the wider alphabet. *)
Definition nl : uchar := Latin (ascii_of_N 10).

(** [str.isspace]: neither of the two new code points is white space. *)
Definition isspace (c : uchar) : bool :=
  match c with
  | Latin a => isspace a
  | CapitalIDot | CombiningDot => false
  end.

(** The class [\w]: U+0130 is a letter, U+0307 is a mark. *)
Definition isword (c : uchar) : bool :=
  match c with
  | Latin a => isword a
  | CapitalIDot => true
  | CombiningDot => false
  end.

(** [str.lower] on one character gives a string. *)
Definition lower_char (c : uchar) : str :=
  match c with
  | Latin a => [Latin (lower_char a)]
  | CapitalIDot => [Latin "i"%char; CombiningDot]
  | CombiningDot => [CombiningDot]
  end.

Definition lower (s : str) : str := flat_map lower_char s.

Fixpoint dropWhile (p : uchar -> bool) (s : str) : str :=
  match s with
  | c :: s' => if p c then dropWhile p s' else s
  | [] => []
  end.

Definition lstrip (s : str) : str := dropWhile isspace s.
Definition rstrip (s : str) : str := rev (dropWhile isspace (rev s)).
Definition strip (s : str) : str := rstrip (lstrip s).

Definition slice (s : str) (a b : nat) : str := take (b - a) (drop a s).

Definition truthy (s : str) : bool :=
  match s with [] => false | _ :: _ => true end.

Inductive regex :=
| Bol
| Eol
| Chr (c : uchar)
| Word
| Dot
| Cat (r1 r2 : regex)
| Star (greedy : bool) (r : regex)
| Group (n : nat) (r : regex).

Record Cursor := {
  cur_pos : nat;
  cur_bol : bool;
  cur_rest : str;
  cur_groups : list (nat * str)
}.

Fixpoint group (n : nat) (groups : list (nat * str)) : option str :=
  match groups with
  | [] => None
  | (i, text) :: groups' => if i =? n then Some text else group n groups'
  end.

Definition eat (p : uchar -> bool) (cu : Cursor)
  (k : Cursor -> option Cursor) : option Cursor :=
  match cur_rest cu with
  | c :: s' =>
      if p c
      then k {| cur_pos := S (cur_pos cu);
                cur_bol := bool_decide (c = nl);
                cur_rest := s';
                cur_groups := cur_groups cu |}
      else None
  | [] => None
  end.

Fixpoint repeat_re (greedy : bool)
  (step : Cursor -> (Cursor -> option Cursor) -> option Cursor)
  (k : Cursor -> option Cursor) (n : nat) (cu : Cursor) : option Cursor :=
  match n with
  | 0 => k cu
  | S n' =>
      let more :=
        step cu (fun cu1 =>
                   if cur_pos cu <? cur_pos cu1
                   then repeat_re greedy step k n' cu1
                   else None) in
      if greedy
      then match more with Some cu' => Some cu' | None => k cu end
      else match k cu with Some cu' => Some cu' | None => more end
  end.

Fixpoint run (r : regex) (cu : Cursor) (k : Cursor -> option Cursor)
  : option Cursor :=
  match r with
  | Bol => if cur_bol cu then k cu else None
  | Eol =>
      match cur_rest cu with
      | [] => k cu
      | c :: _ => if bool_decide (c = nl) then k cu else None
      end
  | Chr c => eat (fun x => bool_decide (x = c)) cu k
  | Word => eat isword cu k
  | Dot => eat (fun _ => true) cu k
  | Cat r1 r2 => run r1 cu (fun cu1 => run r2 cu1 k)
  | Star greedy r1 => repeat_re greedy (run r1) k (length (cur_rest cu)) cu
  | Group n r1 =>
      run r1 cu (fun cu1 =>
        k {| cur_pos := cur_pos cu1;
             cur_bol := cur_bol cu1;
             cur_rest := cur_rest cu1;
             cur_groups :=
               (n, take (cur_pos cu1 - cur_pos cu) (cur_rest cu))
               :: cur_groups cu1 |})
  end.

Definition backtick : uchar := Latin "`"%char.

Definition fence : str := [backtick; backtick; backtick].

Definition code_block_pattern : regex :=
  Cat Bol (Cat (Chr backtick) (Cat (Chr backtick) (Cat (Chr backtick)
  (Cat (Group 1 (Star true Word)) (Cat (Chr nl)
  (Cat (Group 2 (Star false Dot))
  (Cat Bol (Cat (Chr backtick) (Cat (Chr backtick) (Cat (Chr backtick)
   Eol)))))))))).

Record Match := {
  m_start : nat;
  m_end : nat;
  group1 : str;
  group2 : str
}.

Definition match_here (pos : nat) (bol : bool) (s : str) : option Cursor :=
  run code_block_pattern
    {| cur_pos := pos; cur_bol := bol; cur_rest := s; cur_groups := [] |} Some.

Definition match_object (pos : nat) (cu : Cursor) : Match :=
  {| m_start := pos;
     m_end := cur_pos cu;
     group1 := default [] (group 1 (cur_groups cu));
     group2 := default [] (group 2 (cur_groups cu)) |}.

Fixpoint finditer_from (fuel : nat) (pos : nat) (bol : bool) (s : str)
  : list Match :=
  match fuel with
  | 0 => []
  | S fuel' =>
      match match_here pos bol s with
      | Some cu =>
          match_object pos cu
          :: finditer_from fuel' (cur_pos cu) (cur_bol cu) (cur_rest cu)
      | None =>
          match s with
          | [] => []
          | c :: s' => finditer_from fuel' (S pos) (bool_decide (c = nl)) s'
          end
      end
  end.

Definition finditer (section : str) : list Match :=
  finditer_from (S (length section)) 0 true section.

Record Cell := {
  cell_type : CellType;
  cell_content : str;
  cell_language : option str
}.

Definition extract_step (section : str) (code_languages : gset str)
  (st : list Cell * nat) (m : Match) : list Cell * nat :=
  let '(cells, last_end) := st in
  let language := lower (group1 m) in
  if bool_decide (language ∈ code_languages) then
    let before_content := strip (slice section last_end (m_start m)) in
    let cells :=
      if truthy before_content
      then cells ++ [{| cell_type := markdown; cell_content := before_content;
                        cell_language := None |}]
      else cells in
    let code_content := rstrip (group2 m) in
    (cells ++ [{| cell_type := code; cell_content := code_content;
                  cell_language := Some language |}],
     m_end m)
  else (cells, last_end).

Definition extract_cells_from_section (section : str)
  (code_languages : gset str) : list Cell :=
  let '(cells, last_end) :=
    fold_left (extract_step section code_languages) (finditer section)
      ([], 0) in
  let after_content := strip (drop last_end section) in
  if truthy after_content
  then cells ++ [{| cell_type := markdown; cell_content := after_content;
                    cell_language := None |}]
  else cells.

(** A section that is one block tagged [tag], with the body [x]. *)
Definition tagged_block (tag : str) : str :=
  fence ++ tag ++ nl :: lit "x" ++ nl :: fence.

End Wide.

(** ** Documents, sections and cells used as examples *)

Definition doc_fenced_delimiter : str :=
  join [nl] [lit "# Title"; lit "```python"; lit "x = 1"; lit "---";
             lit "y = 2"; lit "```"].

Definition doc_unterminated_front_matter : str :=
  join [nl] [lit "---"; lit "title: x"; lit "--- not a delimiter"; lit "body"].

Definition doc_unclosed_rule : str := join [nl] [lit "---"; lit "abc"].

Definition doc_dashes_then_rules : str :=
  join [nl] [lit "---abc"; lit "---"; lit "x"; lit "---"; lit "body"].

Definition doc_front_matter : str :=
  join [nl] [lit "---"; lit "title: x"; lit "---"; lit "body"].

Definition doc_blank : str := join [nl] [lit "  "; lit " "; lit ""].

Definition doc_mixed : str :=
  join [nl] [lit "intro"; lit "---"; lit "   "; lit "---"; lit "```python";
             lit "```"; lit "```sql"; lit "select 1"; lit "```"].

Definition doc_unterminated_fence : str :=
  join [nl] [lit "intro"; lit "---"; lit "```python"; lit "x = 1"; lit "---"].

Definition cell_untagged_code : Cell :=
  {| cell_type := code; cell_content := lit "x = 1";
     cell_language := Some (lit "") |}.



Definition section_bash_in_prose : str :=
  join [nl] [lit "Run this:"; lit "```bash"; lit "echo hi"; lit "```";
             lit "Done."].


Definition section_indented_inside : str :=
  join [nl] [lit "```python"; lit "a"; lit "```js"; lit "  ```python";
             lit "x"; lit "```"].

Definition indented_block : str :=
  join [nl] [lit "```python"; lit "x"; lit "```"].

Definition doc_indented_section_start : str :=
  join [nl] [lit "intro"; lit "---"; lit "  ```python"; lit "x = 1";
             lit "```"].

Definition section_indented_after_sql : str :=
  join [nl] [lit "```sql"; lit "s"; lit "```"; lit "  ```python"; lit "x";
             lit "  ```"].

Definition match_sql : Match :=
  {| m_start := 0; m_end := 12; group1 := lit "sql"; group2 := lit "s" ++ [nl] |}.

Definition section_python_capital : str :=
  join [nl] [lit "Intro"; lit "```Python"; lit "x = 1"; lit "```"].

Definition section_python_small : str :=
  join [nl] [lit "Intro"; lit "```python"; lit "x = 1"; lit "```"].

Definition doc_three_sections : str :=
  join [nl] [lit "  "; lit "# One  "; lit ""; lit "---"; lit "---";
             lit "```python"; lit "x = 1"; lit "---"; lit "```"; lit " --- ";
             lit "tail"; lit "```"; lit "---"; lit "never closed"].

(** ** Tactics *)

Ltac all_chars c := destruct c as [[] [] [] [] [] [] [] []].

(** * Properties *)

(** ** The examples of the specification *)

Example split_fenced_delimiter :
  split_by_delimiter doc_fenced_delimiter (lit "---") = [doc_fenced_delimiter].
Proof. vm_compute. reflexivity. Qed.

Example front_matter_basic :
  remove_front_matter (join [nl] [lit "---"; lit "title: x"; lit "---"; lit "body"])
  = lit "body".
Proof. vm_compute. reflexivity. Qed.

Example extract_fenced_delimiter :
  extract_cells_from_section doc_fenced_delimiter DEFAULT_CODE_LANGUAGES
  = [ {| cell_type := markdown; cell_content := lit "# Title"; cell_language := None |};
      {| cell_type := code;
         cell_content := join [nl] [lit "x = 1"; lit "---"; lit "y = 2"];
         cell_language := Some (lit "python") |} ].
Proof. vm_compute. reflexivity. Qed.

(** ** Facts about the string primitives *)

Lemma dropWhile_app_false p (a b : str) (c : ascii) :
  p c = false -> dropWhile p (a ++ c :: b) = dropWhile p a ++ c :: b.
Proof.
  intros Hc. induction a as [|x a IH]; simpl.
  - by rewrite Hc.
  - destruct (p x); [exact IH | done].
Qed.

Lemma dropWhile_all p (a : str) :
  forallb p a = true -> dropWhile p a = [].
Proof.
  induction a as [|x a IH]; simpl; [done|].
  destruct (p x); simpl; [exact IH | done].
Qed.

Lemma dropWhile_all_app p (a b : str) :
  forallb p a = true -> dropWhile p (a ++ b) = dropWhile p b.
Proof.
  induction a as [|x a IH]; simpl; [done|].
  destruct (p x); simpl; [exact IH | done].
Qed.

Lemma dropWhile_nil_all p (a : str) :
  dropWhile p a = [] -> forallb p a = true.
Proof.
  induction a as [|x a IH]; simpl; [done|].
  destruct (p x); simpl; [exact IH | done].
Qed.

Lemma takeWhile_dropWhile p (s : str) : takeWhile p s ++ dropWhile p s = s.
Proof.
  induction s as [|c s IH]; simpl; [done|].
  destruct (p c); simpl; [by rewrite IH | done].
Qed.

Lemma takeWhile_all p (s : str) : forallb p (takeWhile p s) = true.
Proof.
  induction s as [|c s IH]; simpl; [done|].
  destruct (p c) eqn:E; simpl; [by rewrite E | done].
Qed.

Lemma dropWhile_head p (s : str) c r : dropWhile p s = c :: r -> p c = false.
Proof.
  induction s as [|x s IH]; simpl; [done|].
  destruct (p x) eqn:E; [exact IH | intros [= -> _]; exact E].
Qed.

Lemma dropWhile_idem p (s : str) : dropWhile p (dropWhile p s) = dropWhile p s.
Proof.
  destruct (dropWhile p s) as [|c r] eqn:E; [done|].
  simpl. by rewrite (dropWhile_head _ _ _ _ E).
Qed.

Lemma forallb_rev (p : ascii -> bool) (s : str) :
  forallb p (rev s) = forallb p s.
Proof.
  induction s as [|c s IH]; simpl; [done|].
  rewrite forallb_app, IH. simpl. rewrite andb_true_r. apply andb_comm.
Qed.

(** How [lstrip] and [rstrip] treat a first or last character. *)
Lemma lstrip_cons_space c s : isspace c = true -> lstrip (c :: s) = lstrip s.
Proof. intros H. unfold lstrip. simpl. by rewrite H. Qed.

Lemma lstrip_cons_nonspace c s :
  isspace c = false -> lstrip (c :: s) = c :: s.
Proof. intros H. unfold lstrip. simpl. by rewrite H. Qed.

Lemma rstrip_snoc_space c s : isspace c = true -> rstrip (s ++ [c]) = rstrip s.
Proof. intros H. unfold rstrip. rewrite rev_app_distr. simpl. by rewrite H. Qed.

(** [rstrip] keeps everything up to a character that is not white space. *)
Lemma rstrip_keep a c b :
  isspace c = false -> exists b', rstrip (a ++ c :: b) = a ++ c :: b'.
Proof.
  intros Hc. unfold rstrip.
  rewrite rev_app_distr. simpl. rewrite <- app_assoc. simpl.
  rewrite dropWhile_app_false by done.
  rewrite rev_app_distr. simpl. rewrite rev_involutive, <- app_assoc. simpl.
  eauto.
Qed.

Lemma rstrip_cons_keep c s :
  isspace c = false -> exists s', rstrip (c :: s) = c :: s'.
Proof. intros H. apply (rstrip_keep [] c s H). Qed.

Lemma strip_cons_space c s : isspace c = true -> strip (c :: s) = strip s.
Proof. intros H. unfold strip. by rewrite lstrip_cons_space. Qed.

Lemma strip_all s : forallb isspace s = true -> strip s = [].
Proof.
  intros H. unfold strip, lstrip. by rewrite dropWhile_all.
Qed.

Lemma split_nl_nonempty s : split_nl s <> [].
Proof.
  destruct s as [|c s]; simpl; [done|].
  case_bool_decide; [done|]. by destruct (split_nl s).
Qed.

Lemma join_cons2 sep x y (r : list str) :
  join sep (x :: y :: r) = x ++ sep ++ join sep (y :: r).
Proof. reflexivity. Qed.

Lemma join_split_nl s : join [nl] (split_nl s) = s.
Proof.
  induction s as [|c s IH]; simpl; [done|].
  case_bool_decide as Hc.
  - destruct (split_nl s) as [|l ls] eqn:E; [by destruct (split_nl_nonempty s)|].
    rewrite join_cons2, IH. simpl. by rewrite Hc.
  - destruct (split_nl s) as [|l ls] eqn:E; [by destruct (split_nl_nonempty s)|].
    destruct ls as [|l' ls]; simpl in *; by rewrite <- IH.
Qed.

Lemma join_app sep (a b : list str) :
  a <> [] -> b <> [] -> join sep (a ++ b) = join sep a ++ sep ++ join sep b.
Proof.
  intros Ha Hb. induction a as [|x a IH]; [done|].
  destruct a as [|y a].
  - simpl. destruct b; [done|]. reflexivity.
  - change ((x :: y :: a) ++ b) with (x :: y :: (a ++ b)).
    rewrite !join_cons2. change (y :: a ++ b) with ((y :: a) ++ b).
    rewrite IH by done. by rewrite <- !app_assoc.
Qed.

(** ** Front matter *)

(** Once the opening [---] line has been seen, [end_index] is one past the
    first later line that trims to [---], if there is one. *)
Lemma front_matter_end_opened (lines : list str) (i : nat) :
  front_matter_end lines i true =
  match list_find (fun line => strip line = lit "---") lines with
  | Some (k, _) => i + k + 1
  | None => 0
  end.
Proof.
  revert i. induction lines as [|line rest IH]; intros i; simpl; [done|].
  case_bool_decide as Hd.
  - rewrite decide_True by done. simpl. lia.
  - rewrite decide_False by done. rewrite IH.
    destruct (list_find _ rest) as [[k l]|]; simpl; lia.
Qed.

Lemma front_matter_end_no_delimiter (lines : list str) (i : nat) (b : bool) :
  Forall (fun line => strip line <> lit "---") lines ->
  front_matter_end lines i b = 0.
Proof.
  intros H. revert i. induction H as [|line rest Hl _ IH]; intros i; simpl.
  - done.
  - rewrite bool_decide_eq_false_2 by done. apply IH.
Qed.

Lemma remove_front_matter_not_started (content : str) :
  startswith content (lit "---") = false -> remove_front_matter content = content.
Proof. intros H. unfold remove_front_matter. by rewrite H. Qed.

Lemma remove_front_matter_no_later_delimiter (content : str) :
  Forall (fun line => strip line <> lit "---") (tail (split_nl content)) ->
  remove_front_matter content = content.
Proof.
  intros H. unfold remove_front_matter.
  destruct (startswith content (lit "---")); simpl; [|done].
  destruct (split_nl content) as [|first rest]; [done|]. simpl in H.
  assert (front_matter_end (first :: rest) 0 false = 0) as ->; [|done].
  simpl. case_bool_decide; simpl; by apply front_matter_end_no_delimiter.
Qed.

(** C9: a text that begins with [---] but has no later line trimming to
    exactly [---] is returned unmodified by [remove_front_matter]: nothing
    of an unterminated front-matter block is removed. *)
Theorem unterminated_front_matter_unchanged (content : str) :
  startswith content (lit "---") = true ->
  Forall (fun line => strip line <> lit "---") (tail (split_nl content)) ->
  remove_front_matter content = content.
Proof. intros _. apply remove_front_matter_no_later_delimiter. Qed.

Lemma unterminated_front_matter_unchanged_witness :
  startswith doc_unterminated_front_matter (lit "---") = true /\
  Forall (fun line => strip line <> lit "---")
    (tail (split_nl doc_unterminated_front_matter)) /\
  remove_front_matter doc_unterminated_front_matter
  = doc_unterminated_front_matter.
Proof.
  assert (startswith doc_unterminated_front_matter (lit "---") = true) as H1
    by reflexivity.
  assert (Forall (fun line => strip line <> lit "---")
            (tail (split_nl doc_unterminated_front_matter))) as H2
    by (apply (bool_decide_unpack _); vm_compute; exact I).
  exact (conj H1 (conj H2
    (unterminated_front_matter_unchanged doc_unterminated_front_matter H1 H2))).
Defined.

(** C2, as stated, fails twice.  A text whose first line is [---] but which
    has no later [---] line loses nothing; and a text whose first line only
    begins with [---] is cut through its second [---] line. *)
Lemma front_matter_iff_first_line_fails :
  ~ strips_iff_first_line_delimiter doc_unclosed_rule /\
  ~ strips_iff_first_line_delimiter doc_dashes_then_rules /\
  remove_front_matter doc_unclosed_rule = doc_unclosed_rule /\
  remove_front_matter doc_dashes_then_rules = lit "body".
Proof.
  split; [|split; [|split; reflexivity]].
  - intros [[_ H] _]. apply H; reflexivity.
  - intros [_ H].
    assert (remove_front_matter doc_dashes_then_rules = doc_dashes_then_rules)
      as E by (apply H; vm_compute; discriminate).
    vm_compute in E. discriminate.
Qed.

(** C2, amended: a text that does not begin with the characters [---] is
    returned unchanged.  When the first line begins with [---] and trims to
    exactly [---], the text loses a leading portion if and only if some
    later line trims to exactly [---]: then the lines through the first such
    line are removed and the remaining lines are returned, otherwise the
    text is returned unchanged. *)
Theorem front_matter_removal (content first : str) (rest : list str) :
  split_nl content = first :: rest ->
  (startswith content (lit "---") = false ->
   remove_front_matter content = content) /\
  (startswith content (lit "---") = true -> strip first = lit "---" ->
   match list_find (fun line => strip line = lit "---") rest with
   | Some (k, _) =>
       remove_front_matter content = join [nl] (drop (S k) rest) /\
       exists removed,
         removed <> [] /\ content = removed ++ remove_front_matter content
   | None => remove_front_matter content = content
   end).
Proof.
  intros Hlines. split; [apply remove_front_matter_not_started|].
  intros Hstart Hfirst.
  assert (front_matter_end (first :: rest) 0 false
          = front_matter_end rest 1 true) as Hend.
  { simpl. by rewrite bool_decide_eq_true_2. }
  unfold remove_front_matter. rewrite Hstart, Hlines. simpl negb. cbv iota.
  cbv zeta. rewrite Hend, front_matter_end_opened.
  destruct (list_find _ rest) as [[k line]|] eqn:Hfind; [|done].
  rewrite bool_decide_eq_true_2 by lia.
  replace (1 + k + 1) with (S (S k)) by lia. simpl drop.
  split; [done|].
  apply list_find_Some in Hfind as (Hk & _ & _).
  assert (content = join [nl] (first :: rest)) as Hc
    by (by rewrite <- Hlines, join_split_nl).
  destruct (drop (S k) rest) as [|l ls] eqn:Hdrop.
  - exists content. simpl. rewrite app_nil_r. split; [|done].
    intros ->. discriminate.
  - exists (join [nl] (first :: take (S k) rest) ++ [nl]). split.
    { intros H. by apply app_eq_nil in H as [_ ?]. }
    rewrite <- app_assoc. rewrite Hc at 1.
    rewrite <- (take_drop (S k) rest) at 1. rewrite Hdrop.
    change (first :: take (S k) rest ++ l :: ls)
      with ((first :: take (S k) rest) ++ l :: ls).
    by rewrite join_app.
Qed.

Lemma front_matter_removal_witness :
  split_nl doc_front_matter = [lit "---"; lit "title: x"; lit "---"; lit "body"]
  /\ startswith doc_front_matter (lit "---") = true
  /\ strip (lit "---") = lit "---"
  /\ remove_front_matter doc_front_matter = lit "body".
Proof.
  assert (split_nl doc_front_matter
          = [lit "---"; lit "title: x"; lit "---"; lit "body"]) as H1
    by reflexivity.
  assert (startswith doc_front_matter (lit "---") = true) as H2 by reflexivity.
  assert (strip (lit "---") = lit "---") as H3 by reflexivity.
  split; [exact H1|]. split; [exact H2|]. split; [exact H3|].
  destruct (front_matter_removal _ _ _ H1) as [_ H].
  specialize (H H2 H3).
  change (list_find (fun line => strip line = lit "---")
            [lit "title: x"; lit "---"; lit "body"])
    with (Some (1, lit "---")) in H.
  destruct H as [H _]. exact H.
Defined.

(** ** The fence-aware segmenter *)

Lemma split_run_app d st (l1 l2 : list str) :
  split_run d st (l1 ++ l2) = split_run d (split_run d st l1) l2.
Proof. apply fold_left_app. Qed.

Lemma split_step_in_code_block d st line :
  in_code_block (split_step d st line)
  = xorb (in_code_block st) (is_fence_line line).
Proof.
  unfold split_step, is_fence_line.
  destruct (startswith (strip line) fence); simpl.
  - by destruct (in_code_block st).
  - destruct (negb (in_code_block st) && _); simpl;
      by destruct (in_code_block st).
Qed.

Lemma split_run_in_code_block d st (lines : list str) :
  in_code_block (split_run d st lines)
  = xorb (in_code_block st) (fence_open_after lines).
Proof.
  revert st. induction lines as [|line lines IH]; intros st.
  - simpl. by destruct (in_code_block st).
  - change (split_run d st (line :: lines))
      with (split_run d (split_step d st line) lines).
    rewrite IH, split_step_in_code_block. unfold fence_open_after. simpl.
    destruct (is_fence_line line); simpl.
    + rewrite Nat.odd_succ, <- Nat.negb_odd.
      by destruct (in_code_block st), (Nat.odd _).
    + by destruct (in_code_block st), (Nat.odd _).
Qed.

(** Inside a fence a [---] line is appended like any other line. *)
Lemma split_step_delimiter_in_fence st line :
  in_code_block st = true -> strip line = lit "---" ->
  split_step (lit "---") st line =
  {| sections := sections st;
     current_section := current_section st ++ [line];
     in_code_block := true |}.
Proof.
  intros Hin Hline. unfold split_step. rewrite Hline, Hin. reflexivity.
Qed.

(** C1: a line that trims to [---] and has an odd number of fence lines
    before it (it lies between an opening fence line and the closing one)
    never ends a section: the sections completed so far stay as they are and
    the line joins the current section, which is the state the rest of the
    text is processed from.  In particular the six-line example is one
    section, and extraction gives the heading as prose and exactly one code
    cell, whose content is the three lines [x = 1], [---], [y = 2]. *)
Theorem fenced_delimiter_never_splits :
  (forall (content : str) (before : list str) (line : str) (after : list str),
     split_nl content = before ++ line :: after ->
     fence_open_after before = true ->
     strip line = lit "---" ->
     let st := split_run (lit "---") split_init before in
     let st' := {| sections := sections st;
                   current_section := current_section st ++ [line];
                   in_code_block := true |} in
     split_run (lit "---") split_init (before ++ [line]) = st' /\
     split_by_delimiter content (lit "---") =
       flush (sections (split_run (lit "---") st' after))
             (current_section (split_run (lit "---") st' after))) /\
  split_by_delimiter doc_fenced_delimiter (lit "---") = [doc_fenced_delimiter] /\
  extract_cells_from_section doc_fenced_delimiter DEFAULT_CODE_LANGUAGES
  = [ {| cell_type := markdown; cell_content := lit "# Title";
         cell_language := None |};
      {| cell_type := code;
         cell_content := join [nl] [lit "x = 1"; lit "---"; lit "y = 2"];
         cell_language := Some (lit "python") |} ].
Proof.
  split; [|split; vm_compute; reflexivity].
  intros content before line after Hlines Hopen Hline st st'.
  assert (in_code_block st = true) as Hin.
  { unfold st. by rewrite split_run_in_code_block, Hopen. }
  assert (split_run (lit "---") split_init (before ++ [line]) = st') as Hst.
  { rewrite split_run_app. simpl. fold st.
    by rewrite split_step_delimiter_in_fence. }
  split; [exact Hst|].
  unfold split_by_delimiter. cbv zeta. rewrite Hlines.
  change (before ++ line :: after) with (before ++ [line] ++ after).
  by rewrite app_assoc, split_run_app, Hst.
Qed.

Lemma fenced_delimiter_never_splits_witness :
  let before := [lit "# Title"; lit "```python"; lit "x = 1"] in
  let after := [lit "y = 2"; lit "```"] in
  split_nl doc_fenced_delimiter = before ++ lit "---" :: after /\
  fence_open_after before = true /\
  strip (lit "---") = lit "---" /\
  split_run (lit "---") split_init (before ++ [lit "---"]) =
    {| sections := [];
       current_section := before ++ [lit "---"];
       in_code_block := true |}.
Proof.
  intros before after.
  assert (split_nl doc_fenced_delimiter = before ++ lit "---" :: after) as H1
    by reflexivity.
  assert (fence_open_after before = true) as H2 by reflexivity.
  assert (strip (lit "---") = lit "---") as H3 by reflexivity.
  split; [exact H1|]. split; [exact H2|]. split; [exact H3|].
  destruct fenced_delimiter_never_splits as [H _].
  destruct (H _ _ _ _ H1 H2 H3) as [Hst _]. exact Hst.
Defined.

(** ** White space and empty sections *)

Lemma strip_nil_iff s : strip s = [] <-> forallb isspace s = true.
Proof.
  split; [|apply strip_all].
  unfold strip, lstrip. intros H.
  destruct (dropWhile isspace s) as [|c r] eqn:E.
  - by apply dropWhile_nil_all.
  - destruct (rstrip_cons_keep c r (dropWhile_head _ _ _ _ E)) as [s' Hs'].
    by rewrite Hs' in H.
Qed.

Lemma truthy_strip_false s : truthy (strip s) = false <-> forallb isspace s = true.
Proof.
  rewrite <- strip_nil_iff. by destruct (strip s).
Qed.

Lemma split_nl_forallb (p : ascii -> bool) s :
  forallb p s = true -> Forall (fun l => forallb p l = true) (split_nl s).
Proof.
  induction s as [|c s IH]; simpl.
  - by repeat constructor.
  - intros [Hc Hs]%andb_true_iff. specialize (IH Hs).
    case_bool_decide; [by constructor|].
    destruct (split_nl s) as [|l ls]; [by repeat constructor; simpl; rewrite Hc|].
    inversion IH; subst. constructor; [|done]. simpl. by rewrite Hc.
Qed.

(** Lines that are neither fence lines nor [delimiter] lines are appended
    to the current section, whatever the fence state. *)
Lemma split_run_plain d st (lines : list str) :
  Forall (fun l => is_fence_line l = false /\ strip l <> d) lines ->
  split_run d st lines =
  {| sections := sections st;
     current_section := current_section st ++ lines;
     in_code_block := in_code_block st |}.
Proof.
  intros H. revert st. induction H as [|l ls [Hf Hd] _ IH]; intros st.
  - simpl. rewrite app_nil_r. by destruct st.
  - change (split_run d st (l :: ls)) with (split_run d (split_step d st l) ls).
    rewrite IH. unfold split_step. unfold is_fence_line in Hf. rewrite Hf.
    rewrite (bool_decide_eq_false_2 _ Hd), andb_false_r. simpl.
    by rewrite <- app_assoc.
Qed.

Lemma startswith_dashes_not_space content :
  forallb isspace content = true -> startswith content (lit "---") = false.
Proof.
  destruct content as [|c s]; [done|]. simpl.
  intros [Hc _]%andb_true_iff. case_bool_decide; [|done]. by subst.
Qed.

Lemma split_by_delimiter_whitespace content :
  forallb isspace content = true ->
  split_by_delimiter content (lit "---") = [].
Proof.
  intros H. unfold split_by_delimiter. cbv zeta.
  rewrite split_run_plain.
  - simpl. unfold flush. rewrite join_split_nl.
    by rewrite (proj2 (truthy_strip_false content) H).
  - eapply Forall_impl; [apply (split_nl_forallb _ _ H)|].
    intros l Hl. simpl in Hl. unfold is_fence_line.
    by rewrite (strip_all _ Hl).
Qed.

(** C5: every cell that [parse_markdown] returns has content that is
    non-empty after trimming, for every text and allow set; and a text of
    white space only gives the empty list. *)
Theorem parse_markdown_no_empty_cells :
  (forall (content : str) (code_languages : option (gset str)) (c : Cell),
     In c (parse_markdown content code_languages) ->
     strip (cell_content c) <> []) /\
  (forall (content : str) (code_languages : option (gset str)),
     forallb isspace content = true ->
     parse_markdown content code_languages = []).
Proof.
  split.
  - intros content langs c Hc. unfold parse_markdown in Hc.
    apply filter_In in Hc as [_ Hc]. by destruct (strip (cell_content c)).
  - intros content langs H. unfold parse_markdown. cbv zeta.
    rewrite remove_front_matter_not_started
      by (by apply startswith_dashes_not_space).
    by rewrite split_by_delimiter_whitespace.
Qed.

Lemma parse_markdown_no_empty_cells_witness :
  In {| cell_type := code; cell_content := lit "select 1";
        cell_language := Some (lit "sql") |}
     (parse_markdown doc_mixed None) /\
  strip (lit "select 1") <> [] /\
  forallb isspace doc_blank = true /\
  parse_markdown doc_blank None = [].
Proof.
  destruct parse_markdown_no_empty_cells as [H1 H2].
  assert (In {| cell_type := code; cell_content := lit "select 1";
                cell_language := Some (lit "sql") |}
             (parse_markdown doc_mixed None)) as Hin
    by (vm_compute; auto).
  assert (forallb isspace doc_blank = true) as Hb by reflexivity.
  split; [exact Hin|]. split; [exact (H1 _ _ _ Hin)|].
  split; [exact Hb|]. exact (H2 _ None Hb).
Defined.

(** ** Shape of a regular-expression match *)

Lemma startswith_spec (s p : str) :
  startswith s p = true <-> exists r, s = p ++ r.
Proof.
  revert s. induction p as [|x p IH]; intros s; simpl.
  - split; eauto.
  - destruct s as [|c s].
    + split; [done|]. by intros [r ?].
    + rewrite andb_true_iff, IH, bool_decide_eq_true. split.
      * intros [-> [r ->]]. eauto.
      * intros [r [= -> ->]]. eauto.
Qed.

Lemma startswith_fence_drop (s : str) :
  startswith s fence = true -> s = fence ++ drop 3 s.
Proof. intros [r ->]%startswith_spec. reflexivity. Qed.

Lemma closing_here_spec bol s :
  closing_here bol s = true ->
  bol = true /\ exists r, s = fence ++ r /\ (r = [] \/ exists r', r = nl :: r').
Proof.
  unfold closing_here. intros [[-> Hs]%andb_true_iff Hr]%andb_true_iff.
  split; [done|]. apply startswith_spec in Hs as [r ->]. exists r.
  split; [done|]. change (drop 3 (fence ++ r)) with r in Hr.
  destruct r as [|c r']; [by left|]. right. apply bool_decide_eq_true in Hr.
  subst. eauto.
Qed.

Lemma lazy_body_spec bol s body :
  lazy_body bol s = Some body -> exists r, s = body ++ fence ++ r.
Proof.
  revert bol body. induction s as [|c s IH]; intros bol body; simpl.
  - destruct (closing_here bol []) eqn:E; [|done].
    by apply closing_here_spec in E as (_ & r & ? & _).
  - destruct (closing_here bol (c :: s)) eqn:E.
    + intros [= <-]. apply closing_here_spec in E as (_ & r & -> & _). eauto.
    + destruct (lazy_body _ s) as [b|] eqn:Eb; [|done].
      intros [= <-]. destruct (IH _ _ Eb) as [r ->]. by exists r.
Qed.

(** A match found at [pos] spans the opening fence, the tag, a newline, the
    body and the closing fence, all inside the text. *)
Lemma match_at_spec pos s m :
  match_at pos s = Some m ->
  m_start m = pos /\
  m_end m = pos + length (fence ++ group1 m ++ nl :: group2 m ++ fence) /\
  forallb isword (group1 m) = true /\
  exists r, s = (fence ++ group1 m ++ nl :: group2 m ++ fence) ++ r.
Proof.
  unfold match_at. destruct (startswith s fence) eqn:Hs; [|done].
  apply startswith_fence_drop in Hs.
  pose proof (takeWhile_dropWhile isword (drop 3 s)) as Htd.
  pose proof (takeWhile_all isword (drop 3 s)) as Hw.
  remember (takeWhile isword (drop 3 s)) as tag eqn:Htag. clear Htag.
  destruct (dropWhile isword (drop 3 s)) as [|c rest] eqn:Hd; [done|].
  case_bool_decide as Hc; [subst c|done].
  destruct (lazy_body true rest) as [body|] eqn:Hb; [|done].
  intros [= <-]. simpl m_start. simpl m_end. simpl group1. simpl group2.
  destruct (lazy_body_spec _ _ _ Hb) as [r Hr].
  split; [done|]. split.
  { rewrite !length_app. simpl. rewrite length_app. simpl. lia. }
  split; [exact Hw|].
  exists r. rewrite Hs, <- Htd, Hr.
  rewrite <- !app_assoc. simpl. by rewrite <- !app_assoc.
Qed.

Lemma match_at_length pos s m :
  match_at pos s = Some m ->
  pos + 7 <= m_end m /\ m_end m - pos <= length s.
Proof.
  intros (_ & He & _ & r & ->)%match_at_spec. rewrite He.
  rewrite !length_app. simpl. rewrite !length_app. simpl. lia.
Qed.

(** [finditer] never runs out of fuel: any fuel of at least the length of
    the text gives the same matches. *)
Lemma scan_fuel (f1 f2 pos : nat) (bol : bool) (s : str) :
  length s <= f1 -> length s <= f2 ->
  scan f1 pos bol s = scan f2 pos bol s.
Proof.
  revert f2 pos bol s.
  induction f1 as [|f1 IH]; intros f2 pos bol s H1 H2.
  - destruct s; [|simpl in H1; lia]. by destruct f2.
  - destruct s as [|c s]; [by destruct f2|].
    destruct f2 as [|f2]; [simpl in H2; lia|].
    simpl in H1, H2. simpl.
    destruct (if bol then match_at pos (c :: s) else None) as [m|] eqn:E.
    + f_equal. assert (pos + 7 <= m_end m) as Hm.
      { destruct bol; [|done]. by apply match_at_length in E as [? _]. }
      apply IH; rewrite length_drop; simpl; lia.
    + apply IH; lia.
Qed.

(** ** The engine on the pattern

    The backtracking engine, run on [code_block_pattern], computes the
    closed form [match_at]; hence [finditer] is the scan over [match_at]. *)

Lemma isword_not_nl c : isword c = true -> c <> nl.
Proof. intros H ->. vm_compute in H. discriminate. Qed.

Lemma repeat_word_greedy (k : Cursor -> option Cursor)
  (g : list (nat * str)) :
  (forall p b c s, isword c = true ->
     k {| cur_pos := p; cur_bol := b; cur_rest := c :: s; cur_groups := g |}
     = None) ->
  forall (s : str) (n p : nat) (b : bool),
    length s <= n ->
    repeat_re true (fun cu k' => eat isword cu k') k n
      {| cur_pos := p; cur_bol := b; cur_rest := s; cur_groups := g |}
    = k {| cur_pos := p + length (takeWhile isword s);
           cur_bol := match takeWhile isword s with [] => b | _ => false end;
           cur_rest := dropWhile isword s;
           cur_groups := g |}.
Proof.
  intros Hk. induction s as [|c s IH]; intros n p b Hn.
  - simpl. rewrite Nat.add_0_r. by destruct n.
  - destruct n as [|n]; [simpl in Hn; lia|]. simpl in Hn.
    cbn [repeat_re run eat cur_rest cur_pos cur_groups takeWhile dropWhile].
    destruct (isword c) eqn:Hc.
    + rewrite (proj2 (Nat.ltb_lt p (S p))) by lia.
      rewrite IH by lia. rewrite (Hk p b c s Hc).
      rewrite (bool_decide_eq_false_2 _ (isword_not_nl c Hc)).
      cbn [length]. replace (S p + length (takeWhile isword s))
        with (p + S (length (takeWhile isword s))) by lia.
      assert (match takeWhile isword s with [] => false | _ :: _ => false end
              = false) as -> by (by destruct (takeWhile isword s)).
      by destruct (k _).
    + simpl. by rewrite Nat.add_0_r.
Qed.

Lemma run_closing_fence (p : nat) (b : bool) (s : str)
  (g : list (nat * str)) :
  run (Bol >>> Chr backtick >>> Chr backtick >>> Chr backtick >>> Eol)
    {| cur_pos := p; cur_bol := b; cur_rest := s; cur_groups := g |} Some
  = if closing_here b s
    then Some {| cur_pos := 3 + p; cur_bol := false; cur_rest := drop 3 s;
                 cur_groups := g |}
    else None.
Proof.
  unfold closing_here. cbn [run cur_bol]. destruct b; [|done].
  destruct s as [|c1 [|c2 [|c3 s]]]; try done;
    cbn [eat cur_rest cur_pos cur_groups startswith fence lit
         list_ascii_of_string andb];
    fold backtick.
  - by destruct (bool_decide (c1 = backtick)).
  - by destruct (bool_decide (c1 = backtick)), (bool_decide (c2 = backtick)).
  - destruct (bool_decide (c1 = backtick)) eqn:E1; [|done].
    destruct (bool_decide (c2 = backtick)) eqn:E2; [|done].
    destruct (bool_decide (c3 = backtick)) eqn:E3; [|done].
    apply bool_decide_eq_true in E3. subst c3.
    change (drop 3 (c1 :: c2 :: backtick :: s)) with s. cbn [andb].
    destruct s as [|c s]; [reflexivity|].
    destruct (bool_decide (c = nl)); reflexivity.
Qed.

Lemma repeat_dot_lazy (k : Cursor -> option Cursor) (F : nat -> str -> Cursor)
  (g : list (nat * str)) :
  (forall p b s,
     k {| cur_pos := p; cur_bol := b; cur_rest := s; cur_groups := g |}
     = if closing_here b s then Some (F p s) else None) ->
  forall (s : str) (n p : nat) (b : bool),
    length s <= n ->
    repeat_re false (fun cu k' => eat (fun _ => true) cu k') k n
      {| cur_pos := p; cur_bol := b; cur_rest := s; cur_groups := g |}
    = match lazy_body b s with
      | Some body => Some (F (p + length body) (drop (length body) s))
      | None => None
      end.
Proof.
  intros Hk. induction s as [|c s IH]; intros n p b Hn.
  - assert (closing_here b [] = false) as Hc
      by (unfold closing_here; by destruct b).
    cbn [lazy_body]. rewrite Hc.
    destruct n; cbn [repeat_re run eat cur_rest]; by rewrite Hk, Hc.
  - destruct n as [|n]; [simpl in Hn; lia|]. simpl in Hn.
    cbn [repeat_re run eat cur_rest cur_pos cur_groups lazy_body].
    rewrite Hk. destruct (closing_here b (c :: s)).
    + simpl. by rewrite Nat.add_0_r.
    + rewrite (proj2 (Nat.ltb_lt p (S p))) by lia.
      rewrite IH by lia.
      destruct (lazy_body (bool_decide (c = nl)) s) as [body|]; [|done].
      cbn [length drop]. do 2 f_equal. lia.
Qed.

(** The cursor at which a match of the closed form ends. *)
Lemma match_here_closed_form (pos : nat) (bol : bool) (s : str) :
  match_here pos bol s =
  match (if bol then match_at pos s else None) with
  | Some m =>
      Some {| cur_pos := m_end m; cur_bol := false;
              cur_rest := drop (m_end m - pos) s;
              cur_groups := [(2, group2 m); (1, group1 m)] |}
  | None => None
  end.
Proof.
  unfold match_here, code_block_pattern. cbn [run cur_bol].
  destruct bol; [|done]. unfold match_at.
  destruct s as [|c1 [|c2 [|c3 s]]];
    cbn [eat cur_rest cur_pos cur_groups startswith fence lit
         list_ascii_of_string andb]; fold backtick; try done.
  { by destruct (bool_decide (c1 = backtick)). }
  { by destruct (bool_decide (c1 = backtick)), (bool_decide (c2 = backtick)). }
  destruct (bool_decide (c1 = backtick)) eqn:E1; [|done].
  destruct (bool_decide (c2 = backtick)) eqn:E2; [|done].
  destruct (bool_decide (c3 = backtick)) eqn:E3; [|done].
  apply bool_decide_eq_true in E1, E2, E3. subst c1 c2 c3.
  change (drop 3 (backtick :: backtick :: backtick :: s)) with s.
  cbn [andb]. cbv zeta.
  rewrite repeat_word_greedy; [|by intros p b c s' Hc; cbn [eat cur_rest];
    rewrite (bool_decide_eq_false_2 _ (isword_not_nl c Hc))|cbn [cur_rest]; lia].
  pose proof (takeWhile_dropWhile isword s) as Hs.
  remember (takeWhile isword s) as tag eqn:Htag. clear Htag.
  destruct (dropWhile isword s) as [|c rest]; [done|].
  cbn [eat cur_rest cur_pos cur_groups cur_bol].
  destruct (bool_decide (c = nl)) eqn:Ec; [|done].
  apply bool_decide_eq_true in Ec. subst c.
  set (g1 := [(1, take (S (S (S pos)) + length tag - S (S (S pos))) s)]).
  rewrite (repeat_dot_lazy _
             (fun p r =>
                {| cur_pos := 3 + p; cur_bol := false; cur_rest := drop 3 r;
                   cur_groups :=
                     (2, take (p - S (S (S (S pos)) + length tag)) rest) :: g1
                |}) g1); [| |cbn [cur_rest]; lia].
  2:{ intros p b r. cbn [cur_pos cur_bol cur_rest cur_groups].
      apply run_closing_fence. }
  destruct (lazy_body true rest) as [body|] eqn:Hb; [|done].
  destruct (lazy_body_spec _ _ _ Hb) as [r Hr].
  cbn [m_end m_start group1 group2]. f_equal. f_equal.
  - lia.
  - subst rest. transitivity r; [by rewrite drop_app_length|].
    symmetry. subst s.
    replace (backtick :: backtick :: backtick
               :: tag ++ nl :: body ++ fence ++ r)
      with ((fence ++ tag ++ nl :: body ++ fence) ++ r)
      by (rewrite <- !app_assoc; simpl; by rewrite <- !app_assoc).
    apply drop_app_length'.
    rewrite !length_app. simpl. rewrite !length_app. simpl. lia.
  - unfold g1. f_equal.
    + f_equal.
      replace (S (S (S (S pos)) + length tag) + length body
               - S (S (S (S pos)) + length tag)) with (length body) by lia.
      rewrite Hr. apply take_app_length.
    + do 2 f_equal.
      replace (S (S (S pos)) + length tag - S (S (S pos)))
        with (length tag) by lia.
      rewrite <- Hs. apply take_app_length.
Qed.

Lemma match_object_closed_form pos m s :
  match_object pos
    {| cur_pos := m_end m; cur_bol := false; cur_rest := s;
       cur_groups := [(2, group2 m); (1, group1 m)] |}
  = {| m_start := pos; m_end := m_end m;
       group1 := group1 m; group2 := group2 m |}.
Proof. reflexivity. Qed.

Lemma finditer_from_unfold (fuel pos : nat) (bol : bool) (s : str) :
  finditer_from (S fuel) pos bol s =
  match match_here pos bol s with
  | Some cu =>
      match_object pos cu
      :: finditer_from fuel (cur_pos cu) (cur_bol cu) (cur_rest cu)
  | None =>
      match s with
      | [] => []
      | c :: s' => finditer_from fuel (S pos) (bool_decide (c = nl)) s'
      end
  end.
Proof. reflexivity. Qed.

(** [finditer_from] with one unit of fuel to spare is the scan over the
    closed form. *)
Lemma finditer_from_scan (fuel pos : nat) (bol : bool) (s : str) :
  length s <= fuel -> finditer_from (S fuel) pos bol s = scan fuel pos bol s.
Proof.
  revert pos bol s. induction fuel as [|fuel IH]; intros pos bol s Hlen;
    rewrite finditer_from_unfold, match_here_closed_form.
  - destruct s; [|simpl in Hlen; lia]. by destruct bol.
  - destruct s as [|c s]; [by destruct bol|].
    simpl in Hlen. cbn [scan].
    destruct (if bol then match_at pos (c :: s) else None) as [m|] eqn:E.
    + cbn [cur_pos cur_bol cur_rest]. rewrite match_object_closed_form.
      assert (m_start m = pos /\ pos + 7 <= m_end m) as [Hs Hm].
      { destruct bol; [|done]. split.
        - by apply match_at_spec in E as [? _].
        - by apply match_at_length in E as [? _]. }
      rewrite IH by (rewrite length_drop; simpl; lia).
      f_equal. destruct m. simpl in Hs. by subst.
    + apply IH. lia.
Qed.

Lemma finditer_scan (section : str) :
  finditer section = scan (length section) 0 true section.
Proof. unfold finditer. by apply finditer_from_scan. Qed.

(** ** The final flush *)

Lemma fence_line_not_blank line :
  is_fence_line line = true -> forallb isspace line = false.
Proof.
  unfold is_fence_line. intros H.
  destruct (forallb isspace line) eqn:E; [|done].
  by rewrite (strip_all _ E) in H.
Qed.

Lemma join_not_blank (ls : list str) :
  Exists (fun l => forallb isspace l = false) ls ->
  forallb isspace (join [nl] ls) = false.
Proof.
  induction ls as [|x ls IH]; intros H; [by inversion H|].
  destruct ls as [|y ls].
  - inversion H as [?? Hx|?? Hx]; subst; [done|by inversion Hx].
  - rewrite join_cons2, !forallb_app.
    inversion H as [?? Hx|?? Hx]; subst.
    + by rewrite Hx.
    + rewrite (IH Hx). by rewrite !andb_false_r.
Qed.

Lemma split_step_open_fence_buffered d st line :
  open_fence_buffered st -> open_fence_buffered (split_step d st line).
Proof.
  unfold open_fence_buffered, split_step. intros Hst.
  destruct (startswith (strip line) fence) eqn:Hf; simpl.
  - intros _. apply Exists_app. right. by constructor.
  - destruct (in_code_block st); simpl.
    + intros _. apply Exists_app. left. by apply Hst.
    + by destruct (bool_decide _).
Qed.

Lemma split_run_open_fence_buffered d st (lines : list str) :
  open_fence_buffered st -> open_fence_buffered (split_run d st lines).
Proof.
  revert st. induction lines as [|l ls IH]; intros st Hst; [done|].
  apply (IH (split_step d st l)). by apply split_step_open_fence_buffered.
Qed.

(** ** The notebook assembler *)

Lemma create_notebook_map_from (cells : list Cell) (nb_cells : list NbCell) :
  fold_left notebook_step cells nb_cells
  = nb_cells ++ map notebook_cell cells.
Proof.
  revert nb_cells. induction cells as [|c cells IH]; intros nb_cells; simpl.
  - by rewrite app_nil_r.
  - rewrite IH. unfold notebook_step, notebook_cell.
    destruct (cell_type c); by rewrite <- app_assoc.
Qed.

Lemma create_notebook_map (cells : list Cell) :
  create_notebook cells = map notebook_cell cells.
Proof. apply create_notebook_map_from. Qed.

(** C6, as stated, fails for a code cell whose language is the empty
    string, which the extractor produces for an untagged fence when the
    allow set holds the empty tag: the language differs from [python], yet
    the notebook cell carries no language metadata. *)
Lemma untagged_code_cell_has_no_metadata :
  parse_markdown (join [nl] [lit "```"; lit "x = 1"; lit "```"])
    (Some {[ lit "python"; lit "" ]}) = [cell_untagged_code] /\
  create_notebook [cell_untagged_code] = [NbCode (lit "x = 1") ∅] /\
  ~ Forall2 records_non_default_language
      [cell_untagged_code] (create_notebook [cell_untagged_code]).
Proof.
  split; [vm_compute; reflexivity|]. split; [reflexivity|].
  intros H. apply Forall2_cons_1 in H as [H _].
  destruct (H eq_refl) as [H1 _].
  assert (cell_language cell_untagged_code <> Some (lit "python")) as Hne
    by discriminate.
  specialize (H1 Hne). vm_compute in H1. discriminate.
Qed.

(** C6, amended: every cell becomes one notebook cell, in order.  A code
    cell whose language is present, non-empty and different from [python]
    becomes a code cell whose metadata is exactly that language under the
    key [language]; a code cell whose language is [python], empty or absent
    becomes a code cell with empty metadata. *)
Theorem create_notebook_language_metadata (cells : list Cell) :
  Forall2
    (fun cell c =>
       match cell_type cell, cell_language cell with
       | markdown, _ => c = NbMarkdown (cell_content cell)
       | code, Some l =>
           if bool_decide (l <> [] /\ l <> lit "python")
           then c = NbCode (cell_content cell) {[ lit "language" := l ]}
           else c = NbCode (cell_content cell) ∅
       | code, None => c = NbCode (cell_content cell) ∅
       end)
    cells (create_notebook cells).
Proof.
  rewrite create_notebook_map. apply Forall2_fmap_r, Forall_Forall2_diag.
  apply Forall_forall. intros cell _. unfold compose, notebook_cell.
  destruct (cell_type cell); [done|].
  destruct (cell_language cell) as [l|]; [|done]. simpl.
  destruct l as [|x l]; [done|]. simpl.
  case_bool_decide as H1; case_bool_decide as H2; simpl; try done.
  - by destruct H1 as [_ H1].
  - destruct H1. by split.
Qed.

(** ** The matches of [finditer] *)

Lemma chain_weaken lo lo' ms : lo' <= lo -> chain lo ms -> chain lo' ms.
Proof. destruct ms as [|m rest]; simpl; [done|]. intros ? (? & ? & ?). repeat split; [lia|done..]. Qed.


Lemma chain_filter lo ms (f : Match -> bool) :
  chain lo ms -> chain lo (List.filter f ms).
Proof.
  revert lo. induction ms as [|m rest IH]; intros lo; simpl; [done|].
  intros (H1 & H2 & H3). destruct (f m); simpl.
  - repeat split; [done..|]. by apply IH.
  - apply IH. eapply chain_weaken; [|exact H3]. lia.
Qed.


Lemma slice_take_drop (s : str) a n : slice s a (a + n) = take n (drop a s).
Proof. unfold slice. f_equal. lia. Qed.

Lemma scan_spec (section : str) (fuel pos : nat) (bol : bool) :
  (bol = true -> pos = 0 \/ section !! (pos - 1) = Some nl) ->
  let ms := scan fuel pos bol (drop pos section) in
  chain pos ms /\ Forall (match_in section) ms.
Proof.
  revert pos bol. induction fuel as [|fuel IH]; intros pos bol Hbol; simpl.
  { by split. }
  destruct (drop pos section) as [|c s'] eqn:Hdrop; [by split|].
  assert (pos < length section) as Hpos.
  { apply (f_equal length) in Hdrop. rewrite length_drop in Hdrop.
    simpl in Hdrop. lia. }
  assert (section !! pos = Some c) as Hc.
  { rewrite <- (Nat.add_0_r pos), <- lookup_drop, Hdrop. done. }
  destruct (if bol then match_at pos (c :: s') else None) as [m|] eqn:E.
  - destruct bol; [|done].
    destruct (match_at_spec _ _ _ E) as (Hs & He & Hw & r & Hr).
    fold (block_text m) in He, Hr.
    assert (m_end m - pos = length (block_text m)) as Hlen by lia.
    assert (0 < length (block_text m)) as Hpos'.
    { unfold block_text. rewrite length_app. simpl. lia. }
    specialize (IH (m_end m) false).
    rewrite <- Hdrop, drop_drop.
    replace (pos + (m_end m - pos)) with (m_end m) by lia.
    destruct IH as [IH1 IH2]; [done|].
    split.
    + simpl. repeat split; [lia|lia|done].
    + constructor; [|done]. unfold match_in. rewrite Hs.
      split; [by apply Hbol|]. split.
      { apply (f_equal length) in Hdrop. rewrite length_drop, Hr in Hdrop.
        rewrite length_app in Hdrop. lia. }
      split; [done|]. split; [|done].
      rewrite He, slice_take_drop, Hdrop, Hr. apply take_app_length.
  - specialize (IH (S pos) (bool_decide (c = nl))).
    rewrite (drop_S _ _ _ Hc) in Hdrop. injection Hdrop as Hdrop.
    rewrite Hdrop in IH. destruct IH as [IH1 IH2].
    { intros Hnl%bool_decide_eq_true. right. simpl.
      rewrite Nat.sub_0_r. by rewrite Hc, Hnl. }
    split; [|done]. eapply chain_weaken; [|exact IH1]. lia.
Qed.

Lemma finditer_spec (section : str) :
  chain 0 (finditer section) /\ Forall (match_in section) (finditer section).
Proof.
  rewrite finditer_scan.
  apply (scan_spec section (length section) 0 true). by left.
Qed.

(** ** Extraction as a walk over the extracted matches *)

Lemma extract_loop_emit section langs (ms : list Match) cells last_end :
  let '(cells', last_end') :=
    fold_left (extract_step section langs) ms (cells, last_end) in
  cells' ++ prose_cell (drop last_end' section)
  = cells ++ emit section last_end (List.filter (extracted langs) ms).
Proof.
  revert cells last_end.
  induction ms as [|m ms IH]; intros cells last_end; [done|].
  simpl fold_left. simpl List.filter. unfold extracted at 1.
  destruct (bool_decide (lower (group1 m) ∈ langs)); [|apply IH].
  match goal with
  | |- context [fold_left _ ms (?c, ?e)] => specialize (IH c e)
  end.
  destruct (fold_left _ ms _) as [cells' last_end'].
  rewrite IH. simpl emit. unfold prose_cell, code_cell.
  destruct (truthy (strip (slice section last_end (m_start m))));
    by rewrite <- !app_assoc.
Qed.

(** The loop of [extract_cells_from_section] in closed form. *)
Lemma extract_emit section langs :
  extract_cells_from_section section langs
  = emit section 0 (List.filter (extracted langs) (finditer section)).
Proof.
  unfold extract_cells_from_section.
  pose proof (extract_loop_emit section langs (finditer section) [] 0) as H.
  destruct (fold_left _ _ _) as [cells last_end]. simpl in H. rewrite <- H.
  unfold prose_cell. by destruct (truthy _); [|rewrite app_nil_r].
Qed.

(** The code cells of the output are the code cells of the extracted
    matches, in order. *)
Lemma emit_code_cells section last_end (ms : list Match) :
  List.filter (fun c => bool_decide (cell_type c = code))
    (emit section last_end ms)
  = map code_cell ms.
Proof.
  assert (forall t, List.filter (fun c => bool_decide (cell_type c = code))
                      (prose_cell t) = []) as Hprose.
  { intros t. unfold prose_cell. by destruct (truthy _). }
  revert last_end. induction ms as [|m ms IH]; intros last_end; simpl.
  - apply Hprose.
  - rewrite List.filter_app, Hprose. simpl. by rewrite IH.
Qed.

(** ** Text that stays in prose *)

Lemma lstrip_keep pre c rest :
  isspace c = false -> exists pre', lstrip (pre ++ c :: rest) = pre' ++ c :: rest.
Proof.
  intros Hc. induction pre as [|x pre IH]; simpl.
  - exists []. by apply lstrip_cons_nonspace.
  - destruct (isspace x) eqn:Hx.
    + by rewrite lstrip_cons_space.
    + exists (x :: pre). by rewrite lstrip_cons_nonspace.
Qed.

(** Trimming never cuts into a solid stretch of the text. *)
Lemma strip_keeps_solid pre t post :
  solid t -> exists pre' post', strip (pre ++ t ++ post) = pre' ++ t ++ post'.
Proof.
  intros [(x & t1 & Ht1 & Hx) (t2 & y & Ht2 & Hy)]. unfold strip.
  destruct (lstrip_keep pre x (t1 ++ post) Hx) as [pre' Hl].
  destruct (rstrip_keep (pre' ++ t2) y post Hy) as [post' Hr].
  exists pre', post'.
  assert (pre ++ t ++ post = pre ++ x :: t1 ++ post) as -> by (by rewrite Ht1).
  rewrite Hl.
  assert (pre' ++ x :: t1 ++ post = (pre' ++ t2) ++ y :: post) as ->.
  { change (x :: t1 ++ post) with ((x :: t1) ++ post).
    rewrite <- Ht1, Ht2, <- !app_assoc. done. }
  rewrite Hr, Ht2, <- !app_assoc. done.
Qed.


Lemma slice_split (s : str) lo mid hi :
  lo <= mid -> mid <= hi -> slice s lo hi = slice s lo mid ++ slice s mid hi.
Proof.
  intros H1 H2. unfold slice.
  replace (hi - lo) with ((mid - lo) + (hi - mid)) by lia.
  rewrite <- take_take_drop, drop_drop.
  by replace (lo + (mid - lo)) with mid by lia.
Qed.

Lemma slice_to_end (s : str) lo : slice s lo (length s) = drop lo s.
Proof. unfold slice. apply take_ge. rewrite length_drop. lia. Qed.

Lemma prose_cell_holds section lo a b hi :
  lo <= a -> a <= b -> b <= hi -> solid (slice section a b) ->
  prose_holds (prose_cell (slice section lo hi)) (slice section a b).
Proof.
  intros H1 H2 H3 Hsolid.
  rewrite (slice_split section lo a hi), (slice_split section a b hi)
    by lia.
  destruct (strip_keeps_solid (slice section lo a) _ (slice section b hi)
              Hsolid) as (pre' & post' & Hs).
  unfold prose_cell. rewrite Hs.
  destruct (truthy (pre' ++ slice section a b ++ post')) eqn:E.
  - eexists _, pre', post'. split; [by left|]. done.
  - destruct Hsolid as [(x & t1 & Hx & _) _]. rewrite Hx in E.
    by destruct pre'.
Qed.

Lemma prose_holds_app_l cells1 cells2 t :
  prose_holds cells1 t -> prose_holds (cells1 ++ cells2) t.
Proof.
  intros (c & pre & post & Hin & H). exists c, pre, post.
  split; [|done]. apply in_or_app. by left.
Qed.

Lemma prose_holds_app_r cells1 cells2 t :
  prose_holds cells2 t -> prose_holds (cells1 ++ cells2) t.
Proof.
  intros (c & pre & post & Hin & H). exists c, pre, post.
  split; [|done]. apply in_or_app. by right.
Qed.

(** A solid stretch [section[a:b]] that no extracted match overlaps lies in
    one prose cell of the output. *)
Lemma emit_holds_gap section last_end (ms : list Match) a b :
  chain last_end ms ->
  last_end <= a -> a <= b -> b <= length section ->
  solid (slice section a b) ->
  (forall m, In m ms -> b <= m_start m \/ m_end m <= a) ->
  prose_holds (emit section last_end ms) (slice section a b).
Proof.
  revert last_end. induction ms as [|m ms IH]; intros last_end Hchain Hlo Hab Hb Hsolid Hfree.
  - simpl. rewrite <- slice_to_end. by apply prose_cell_holds.
  - simpl in Hchain. destruct Hchain as (H1 & H2 & H3). simpl.
    destruct (Hfree m (or_introl eq_refl)) as [Hbefore|Hafter].
    + apply prose_holds_app_l. by apply prose_cell_holds.
    + apply prose_holds_app_r.
      change (code_cell m :: emit section (m_end m) ms)
        with ([code_cell m] ++ emit section (m_end m) ms).
      apply prose_holds_app_r. apply IH; try done.
      intros m' Hm'. apply Hfree. by right.
Qed.




(** ** Indented fences *)

(** C10, as stated, fails when the indented fence lies inside the span of a
    match that starts at an unindented fence.  In the section below the
    segmenter closes the first fence at the line [```js] and opens a new one
    at the indented line, but the pattern only ends a block at a line that is
    exactly three backticks, so its single match runs from the first line to
    the last: the indented block is part of a code cell and there is no
    prose cell at all.  Likewise an indented fence that opens a section
    loses its indentation when the section is trimmed, and is extracted. *)
Lemma indented_fence_inside_block_is_extracted :
  fence_open_after [lit "```python"; lit "a"; lit "```js"] = false /\
  is_fence_line (lit "  ```python") = true /\
  section_indented_inside
  = (join [nl] [lit "```python"; lit "a"; lit "```js"] ++ [nl])
    ++ lit "  " ++ indented_block /\
  split_by_delimiter section_indented_inside (lit "---")
  = [section_indented_inside] /\
  extract_cells_from_section section_indented_inside DEFAULT_CODE_LANGUAGES
  = [{| cell_type := code;
        cell_content :=
          join [nl] [lit "a"; lit "```js"; lit "  ```python"; lit "x"];
        cell_language := Some (lit "python") |}] /\
  ~ prose_holds
      (extract_cells_from_section section_indented_inside
         DEFAULT_CODE_LANGUAGES)
      indented_block /\
  parse_markdown doc_indented_section_start None
  = [{| cell_type := markdown; cell_content := lit "intro";
        cell_language := None |};
     {| cell_type := code; cell_content := lit "x = 1";
        cell_language := Some (lit "python") |}].
Proof.
  assert (extract_cells_from_section section_indented_inside
            DEFAULT_CODE_LANGUAGES
          = [{| cell_type := code;
                cell_content :=
                  join [nl] [lit "a"; lit "```js"; lit "  ```python"; lit "x"];
                cell_language := Some (lit "python") |}]) as Hex
    by (vm_compute; reflexivity).
  do 4 (split; [vm_compute; reflexivity|]).
  split; [exact Hex|]. split; [|vm_compute; reflexivity].
  rewrite Hex. intros (c & pre & post & [<-|[]] & Htype & _). discriminate.
Qed.

Lemma match_in_starts_with_fence section m :
  match_in section m -> startswith (drop (m_start m) section) fence = true.
Proof.
  intros (_ & _ & Hlen & Hslice & _). apply startswith_spec.
  rewrite Hlen, slice_take_drop in Hslice.
  exists (group1 m ++ nl :: group2 m ++ fence
          ++ drop (length (block_text m)) (drop (m_start m) section)).
  rewrite <- (take_drop (length (block_text m)) (drop (m_start m) section))
    at 1.
  rewrite Hslice. unfold block_text. rewrite <- !app_assoc. simpl.
  by rewrite <- !app_assoc.
Qed.

Lemma slice_middle (pre t post : str) :
  slice (pre ++ t ++ post) (length pre) (length pre + length t) = t.
Proof.
  rewrite slice_take_drop, drop_app_length. apply take_app_length.
Qed.

(** C10, amended: in the text handed to the extractor every match of the
    pattern starts at the very beginning of a line with three backticks.  So
    no match, and hence no code cell, starts at a fence whose backticks are
    preceded on their line by white space, whatever its tag: the code cells
    are exactly those of the unindented matches whose tag is in the allow
    set.  The text of an indented fenced block stays inside one prose cell
    whenever no extracted match overlaps it; when it lies inside the body of
    an extracted match it is part of that code cell instead. *)
Theorem indented_fence_not_extracted
  (section : str) (code_languages : gset str) :
  (forall m, In m (finditer section) ->
     (m_start m = 0 \/ section !! (m_start m - 1) = Some nl) /\
     startswith (drop (m_start m) section) fence = true) /\
  (forall (pre indent rest : str) (m : Match),
     section = pre ++ indent ++ fence ++ rest ->
     indent <> [] ->
     Forall (fun c => isspace c = true /\ c <> nl) indent ->
     In m (finditer section) ->
     m_start m <> length (pre ++ indent)) /\
  List.filter (fun c => bool_decide (cell_type c = code))
    (extract_cells_from_section section code_languages)
  = map code_cell (List.filter (extracted code_languages) (finditer section)) /\
  (forall (pre t post : str),
     section = pre ++ t ++ post ->
     solid t ->
     (forall m, In m (finditer section) -> extracted code_languages m = true ->
        m_end m <= length pre \/ length pre + length t <= m_start m) ->
     prose_holds (extract_cells_from_section section code_languages) t) /\
  (forall (m : Match) (pre t post : str),
     In m (finditer section) -> extracted code_languages m = true ->
     group2 m = pre ++ t ++ post ->
     solid t ->
     exists c post',
       In c (extract_cells_from_section section code_languages) /\
       cell_type c = code /\ cell_content c = pre ++ t ++ post').
Proof.
  destruct (finditer_spec section) as [Hchain Hall].
  rewrite Forall_forall in Hall.
  assert (forall m, In m (finditer section) -> match_in section m) as Hin.
  { intros m Hm. apply Hall. by apply list_elem_of_In. }
  split; [|split; [|split; [|split]]].
  - intros m Hm. split; [apply (Hin m Hm)|].
    by apply match_in_starts_with_fence, Hin.
  - intros pre indent rest m Hsec Hne Hindent Hm Hstart.
    destruct (Hin m Hm) as (Hbol & _).
    destruct (exists_last Hne) as (indent' & c & ->).
    apply Forall_app in Hindent as [_ Hc].
    apply Forall_singleton in Hc as [_ Hc].
    rewrite Hstart, !length_app in Hbol. simpl in Hbol.
    destruct Hbol as [Hbol|Hbol]; [lia|].
    replace (length pre + (length indent' + 1) - 1)
      with (length (pre ++ indent')) in Hbol by (rewrite length_app; lia).
    rewrite Hsec, <- !app_assoc in Hbol. simpl in Hbol.
    rewrite app_assoc, list_lookup_middle in Hbol by done.
    by injection Hbol.
  - rewrite extract_emit. apply emit_code_cells.
  - intros pre t post Hsec Hsolid Hfree.
    rewrite extract_emit, <- (slice_middle pre t post), <- Hsec.
    apply emit_holds_gap.
    + by apply chain_filter.
    + lia.
    + lia.
    + rewrite Hsec, !length_app. lia.
    + by rewrite Hsec, slice_middle.
    + intros m [Hm Hex]%filter_In.
      destruct (Hfree m Hm Hex); [by right | by left].
  - intros m pre t post Hm Hex Hg [_ (t' & y & -> & Hy)].
    destruct (rstrip_keep (pre ++ t') y post Hy) as [post' Hr].
    exists (code_cell m), post'. split; [|split; [done|]].
    + assert (In (code_cell m)
                (List.filter (fun c => bool_decide (cell_type c = code))
                   (extract_cells_from_section section code_languages)))
        as Hc; [|by apply filter_In in Hc as [? _]].
      rewrite extract_emit, emit_code_cells.
      apply in_map, filter_In. by split.
    + simpl. rewrite Hg, <- !app_assoc. simpl.
      rewrite app_assoc, Hr. by rewrite <- !app_assoc.
Qed.

Lemma indented_fence_not_extracted_witness :
  let pre := join [nl] [lit "```sql"; lit "s"; lit "```"] ++ [nl] in
  let t := join [nl] [lit "```python"; lit "x"; lit "  ```"] in
  section_indented_after_sql = pre ++ lit "  " ++ fence ++ drop 3 t /\
  In match_sql (finditer section_indented_after_sql) /\
  m_start match_sql <> length (pre ++ lit "  ") /\
  extract_cells_from_section section_indented_after_sql DEFAULT_CODE_LANGUAGES
  = [code_cell match_sql;
     {| cell_type := markdown; cell_content := t; cell_language := None |}] /\
  prose_holds
    (extract_cells_from_section section_indented_after_sql
       DEFAULT_CODE_LANGUAGES) t.
Proof.
  intros pre t.
  destruct (indented_fence_not_extracted section_indented_after_sql
              DEFAULT_CODE_LANGUAGES) as (_ & H2 & _ & H4 & _).
  assert (section_indented_after_sql = pre ++ lit "  " ++ fence ++ drop 3 t)
    as Hsec by reflexivity.
  assert (In match_sql (finditer section_indented_after_sql)) as Hin
    by (vm_compute; left; reflexivity).
  split; [exact Hsec|]. split; [exact Hin|]. split.
  - apply (H2 pre (lit "  ") (drop 3 t) match_sql Hsec);
      [discriminate | | exact Hin].
    repeat constructor; discriminate.
  - split; [vm_compute; reflexivity|].
    apply (H4 (pre ++ lit "  ") t []).
    + reflexivity.
    + split; [eexists _, _; split; reflexivity|].
      exists (removelast t), "`"%char. split; reflexivity.
    + intros m Hm _. vm_compute in Hm. destruct Hm as [<-|[]].
      left. vm_compute. lia.
Defined.

(** ** Letter case *)

Lemma isspace_lower_char c : isspace (lower_char c) = isspace c.
Proof. all_chars c; reflexivity. Qed.

Lemma lower_char_idem c : lower_char (lower_char c) = lower_char c.
Proof. all_chars c; reflexivity. Qed.

Lemma lower_idem s : lower (lower s) = lower s.
Proof.
  unfold lower. rewrite map_map. apply map_ext. apply lower_char_idem.
Qed.

Lemma lower_nil (t : str) : lower t = [] -> t = [].
Proof. by destruct t. Qed.

(** ** Lines and trimming *)

Lemma split_nl_cons_nl s : split_nl (nl :: s) = [] :: split_nl s.
Proof. reflexivity. Qed.

Lemma split_nl_cons_other c s l ls :
  c <> nl -> split_nl s = l :: ls -> split_nl (c :: s) = (c :: l) :: ls.
Proof. intros Hc Hs. simpl. rewrite Hs. by rewrite bool_decide_eq_false_2. Qed.

Lemma split_nl_app_nl a b : split_nl (a ++ nl :: b) = split_nl a ++ split_nl b.
Proof.
  induction a as [|c a IH]; [reflexivity|]. cbn [app split_nl].
  rewrite IH. case_bool_decide; [done|].
  destruct (split_nl a) as [|l ls] eqn:E; [by destruct (split_nl_nonempty a)|].
  done.
Qed.

Lemma split_nl_no_nl s : nl ∉ s -> split_nl s = [s].
Proof.
  induction s as [|c s IH]; [done|].
  intros [Hc Hs]%not_elem_of_cons. cbn [split_nl].
  rewrite bool_decide_eq_false_2 by done. by rewrite IH.
Qed.

Lemma split_nl_lines_no_nl s : Forall (fun l => nl ∉ l) (split_nl s).
Proof.
  induction s as [|c s IH]; simpl.
  - constructor; [|done]. apply not_elem_of_nil.
  - case_bool_decide as Hc.
    + constructor; [apply not_elem_of_nil | done].
    + destruct (split_nl s) as [|l ls]; inversion IH; subst.
      * constructor; [|done]. apply not_elem_of_cons.
        split; [congruence|apply not_elem_of_nil].
      * constructor; [|done]. apply not_elem_of_cons.
        split; [congruence|done].
Qed.

Lemma split_nl_join (ls : list str) :
  ls <> [] -> Forall (fun l => nl ∉ l) ls -> split_nl (join [nl] ls) = ls.
Proof.
  induction ls as [|x ls IH]; [done|]. intros _ Hall.
  inversion Hall as [|?? Hx Hls]; subst.
  destruct ls as [|y ls]; [by apply split_nl_no_nl|].
  rewrite join_cons2. change (x ++ [nl] ++ join [nl] (y :: ls))
    with (x ++ nl :: join [nl] (y :: ls)).
  rewrite split_nl_app_nl, split_nl_no_nl, IH by done. done.
Qed.

Lemma split_nl_snoc_nl s : split_nl (s ++ [nl]) = split_nl s ++ [[]].
Proof. apply split_nl_app_nl. Qed.

Lemma split_nl_snoc_other s c :
  c <> nl ->
  exists ls l, split_nl s = ls ++ [l] /\ split_nl (s ++ [c]) = ls ++ [l ++ [c]].
Proof.
  intros Hc. induction s as [|x s IH]; simpl.
  - exists [], []. by rewrite bool_decide_eq_false_2.
  - destruct IH as (ls & l & Hs & Hsc). rewrite Hs, Hsc.
    case_bool_decide.
    + by exists ([] :: ls), l.
    + destruct ls as [|l0 ls]; simpl.
      * by exists [], (x :: l).
      * by exists ((x :: l0) :: ls), l.
Qed.

Lemma dropWhile_app_some p (a b : str) :
  dropWhile p a <> [] -> dropWhile p (a ++ b) = dropWhile p a ++ b.
Proof.
  induction a as [|x a IH]; simpl; [done|].
  destruct (p x); [exact IH | done].
Qed.

Lemma strip_snoc_space c s : isspace c = true -> strip (s ++ [c]) = strip s.
Proof.
  intros Hc. unfold strip, lstrip.
  destruct (dropWhile isspace s) as [|x r] eqn:E.
  - apply dropWhile_nil_all in E. rewrite dropWhile_all; [done|].
    rewrite forallb_app, E. simpl. by rewrite Hc.
  - rewrite dropWhile_app_some by (by rewrite E). rewrite E.
    by apply rstrip_snoc_space.
Qed.

Lemma rstrip_idem s : rstrip (rstrip s) = rstrip s.
Proof. unfold rstrip. by rewrite rev_involutive, dropWhile_idem. Qed.

Lemma strip_idem s : strip (strip s) = strip s.
Proof.
  unfold strip at 2 3. unfold lstrip.
  destruct (dropWhile isspace s) as [|x r] eqn:E; [done|].
  pose proof (dropWhile_head _ _ _ _ E) as Hx.
  destruct (rstrip_cons_keep x r Hx) as [r' Hr].
  unfold strip. rewrite Hr, lstrip_cons_nonspace, <- Hr by done.
  apply rstrip_idem.
Qed.

(** ** Re-segmentation *)

Lemma split_step_no_split st line :
  splits_at (in_code_block st) line = false ->
  split_step (lit "---") st line =
  {| sections := sections st;
     current_section := current_section st ++ [line];
     in_code_block := xorb (in_code_block st) (is_fence_line line) |}.
Proof.
  unfold splits_at, split_step, is_fence_line.
  destruct (startswith (strip line) fence); simpl.
  - intros _. by destruct (in_code_block st).
  - intros ->. by destruct (in_code_block st).
Qed.

Lemma split_step_split st line :
  splits_at (in_code_block st) line = true ->
  split_step (lit "---") st line =
  {| sections := flush (sections st) (current_section st);
     current_section := [];
     in_code_block := false |}.
Proof.
  unfold splits_at, split_step, is_fence_line.
  destruct (startswith (strip line) fence); simpl; [done|].
  intros H. rewrite H.
  apply andb_true_iff in H as [H _]. by destruct (in_code_block st).
Qed.

Lemma buffered_app b (l1 l2 : list str) :
  buffered b (l1 ++ l2)
  = match buffered b l1 with Some b1 => buffered b1 l2 | None => None end.
Proof.
  revert b. induction l1 as [|l l1 IH]; intros b; simpl; [done|].
  destruct (splits_at b l); [done|]. apply IH.
Qed.

Lemma split_run_buffered st (lines : list str) b :
  buffered (in_code_block st) lines = Some b ->
  split_run (lit "---") st lines =
  {| sections := sections st;
     current_section := current_section st ++ lines;
     in_code_block := b |}.
Proof.
  revert st. induction lines as [|l ls IH]; intros st.
  - simpl. intros [= <-]. rewrite app_nil_r. by destruct st.
  - cbn [buffered].
    destruct (splits_at (in_code_block st) l) eqn:E; [done|]. intros H.
    change (split_run (lit "---") st (l :: ls))
      with (split_run (lit "---") (split_step (lit "---") st l) ls).
    rewrite (split_step_no_split _ _ E).
    rewrite IH by exact H. simpl. by rewrite <- app_assoc.
Qed.

(** A line keeps its role when white space is added at either end. *)
Lemma is_fence_line_cons_space c l :
  isspace c = true -> is_fence_line (c :: l) = is_fence_line l.
Proof. intros H. unfold is_fence_line. by rewrite strip_cons_space. Qed.

Lemma splits_at_cons_space b c l :
  isspace c = true -> splits_at b (c :: l) = splits_at b l.
Proof.
  intros H. unfold splits_at, is_fence_line. by rewrite strip_cons_space.
Qed.

Lemma is_fence_line_snoc_space c l :
  isspace c = true -> is_fence_line (l ++ [c]) = is_fence_line l.
Proof. intros H. unfold is_fence_line. by rewrite strip_snoc_space. Qed.

Lemma splits_at_snoc_space b c l :
  isspace c = true -> splits_at b (l ++ [c]) = splits_at b l.
Proof.
  intros H. unfold splits_at, is_fence_line. by rewrite strip_snoc_space.
Qed.

Lemma buffered_blank_line b (ls : list str) : buffered b ([] :: ls) = buffered b ls.
Proof. simpl. by destruct b. Qed.

Lemma buffered_cons_space b c s :
  isspace c = true ->
  buffered b (split_nl (c :: s)) = buffered b (split_nl s).
Proof.
  intros Hc. destruct (decide (c = nl)) as [->|Hnl].
  - rewrite split_nl_cons_nl. apply buffered_blank_line.
  - destruct (split_nl s) as [|l ls] eqn:E; [by destruct (split_nl_nonempty s)|].
    rewrite (split_nl_cons_other c s l ls Hnl E). simpl.
    by rewrite splits_at_cons_space, is_fence_line_cons_space.
Qed.

Lemma buffered_snoc_space b c s :
  isspace c = true ->
  buffered b (split_nl (s ++ [c])) = buffered b (split_nl s).
Proof.
  intros Hc. destruct (decide (c = nl)) as [->|Hnl].
  - rewrite split_nl_snoc_nl, buffered_app.
    destruct (buffered b (split_nl s)) as [b1|]; [|done]. by destruct b1.
  - destruct (split_nl_snoc_other s c Hnl) as (ls & l & -> & ->).
    rewrite !buffered_app. destruct (buffered b ls) as [b1|]; [|done].
    simpl. by rewrite splits_at_snoc_space, is_fence_line_snoc_space.
Qed.

Lemma buffered_lstrip b s :
  buffered b (split_nl (lstrip s)) = buffered b (split_nl s).
Proof.
  induction s as [|c s IH]; [done|].
  destruct (isspace c) eqn:Hc.
  - by rewrite lstrip_cons_space, buffered_cons_space.
  - by rewrite lstrip_cons_nonspace.
Qed.

Lemma buffered_rstrip b s :
  buffered b (split_nl (rstrip s)) = buffered b (split_nl s).
Proof.
  rewrite <- (rev_involutive s) at 2. unfold rstrip.
  induction (rev s) as [|c r IH]; [done|]. simpl.
  destruct (isspace c) eqn:Hc.
  - by rewrite IH, buffered_snoc_space.
  - done.
Qed.

(** Trimming a text changes neither where its lines would end a section
    nor the fence state at its end. *)
Lemma buffered_strip b s :
  buffered b (split_nl (strip s)) = buffered b (split_nl s).
Proof. unfold strip. by rewrite buffered_rstrip, buffered_lstrip. Qed.

Lemma truthy_nonempty (s : str) : truthy s = true <-> s <> [].
Proof. by destruct s. Qed.

Lemma flush_sectionlike (secs cur : list str) (b : bool) :
  Forall (fun l => nl ∉ l) cur ->
  buffered false cur = Some b ->
  flush secs cur = secs \/
  exists s, flush secs cur = secs ++ [s] /\ sectionlike b s.
Proof.
  intros Hnl Hbuf. unfold flush.
  destruct (truthy (strip (join [nl] cur))) eqn:E; [|by left].
  right. eexists. split; [done|]. split; [by apply truthy_nonempty|].
  split; [apply strip_idem|].
  rewrite buffered_strip. destruct cur as [|l ls]; [done|].
  by rewrite split_nl_join.
Qed.

Lemma split_step_inv st line :
  nl ∉ line -> segmenter_inv st -> segmenter_inv (split_step (lit "---") st line).
Proof.
  intros Hline (Hsecs & Hnl & Hbuf).
  destruct (splits_at (in_code_block st) line) eqn:E.
  - rewrite (split_step_split _ _ E).
    assert (in_code_block st = false) as Hb.
    { unfold splits_at in E. by destruct (in_code_block st), (is_fence_line line). }
    rewrite Hb in Hbuf.
    split; [|by split]. simpl.
    destruct (flush_sectionlike (sections st) _ _ Hnl Hbuf)
      as [->|(s & -> & Hs)]; [done|].
    apply Forall_app. split; [done|]. by constructor.
  - rewrite (split_step_no_split _ _ E). split; [done|]. simpl. split.
    + apply Forall_app. split; [done|]. by constructor.
    + rewrite buffered_app, Hbuf. simpl. by rewrite E.
Qed.

Lemma split_run_inv st (lines : list str) :
  Forall (fun l => nl ∉ l) lines ->
  segmenter_inv st -> segmenter_inv (split_run (lit "---") st lines).
Proof.
  intros Hlines. revert st.
  induction Hlines as [|l ls Hl _ IH]; intros st Hst; [done|].
  apply (IH (split_step (lit "---") st l)). by apply split_step_inv.
Qed.

Lemma sections_ok_cons b s (ss : list str) :
  sectionlike false s -> sections_ok b ss -> ss <> [] -> sections_ok b (s :: ss).
Proof. intros Hs Hss Hne. destruct ss; [done|]. by split. Qed.

Lemma sections_ok_snoc b (secs : list str) s :
  Forall (sectionlike false) secs -> sectionlike b s ->
  sections_ok b (secs ++ [s]).
Proof.
  intros Hsecs Hs. induction Hsecs as [|x secs Hx _ IH]; [done|].
  simpl app. apply sections_ok_cons; [done|done|]. by destruct secs.
Qed.

Lemma sections_ok_all (secs : list str) :
  Forall (sectionlike false) secs -> sections_ok false secs.
Proof.
  intros Hsecs. induction Hsecs as [|x secs Hx _ IH]; [done|].
  destruct secs as [|y secs]; [done|]. by split.
Qed.

(** The sections of any text are section-like, all but possibly the last
    with the fence closed. *)
Lemma split_by_delimiter_sections_ok content :
  exists b, sections_ok b (split_by_delimiter content (lit "---")).
Proof.
  unfold split_by_delimiter. cbv zeta.
  destruct (split_run_inv split_init (split_nl content)
              (split_nl_lines_no_nl content)) as (Hsecs & Hnl & Hbuf).
  { split; [constructor|]. split; [constructor|done]. }
  destruct (flush_sectionlike (sections (split_run (lit "---") split_init
              (split_nl content))) _ _ Hnl Hbuf) as [->|(s & -> & Hs)].
  - exists false. by apply sections_ok_all.
  - eexists. by apply sections_ok_snoc.
Qed.

Lemma split_nl_join_delimiter s1 s2 (rest : list str) :
  split_nl (join delimiter_line (s1 :: s2 :: rest))
  = split_nl s1 ++ [lit "---"] ++ split_nl (join delimiter_line (s2 :: rest)).
Proof.
  rewrite join_cons2. unfold delimiter_line at 1.
  change (s1 ++ (nl :: lit "---" ++ [nl]) ++ join delimiter_line (s2 :: rest))
    with (s1 ++ nl :: (lit "---" ++ nl :: join delimiter_line (s2 :: rest))).
  by rewrite !split_nl_app_nl.
Qed.

(** Segmenting the sections joined by [---] lines gives the sections back. *)
Lemma resplit (ss secs : list str) (b : bool) :
  ss <> [] -> sections_ok b ss ->
  let st := split_run (lit "---")
              {| sections := secs; current_section := [];
                 in_code_block := false |}
              (split_nl (join delimiter_line ss)) in
  flush (sections st) (current_section st) = secs ++ ss.
Proof.
  revert secs. induction ss as [|s1 ss IH]; intros secs Hne Hok; [done|].
  destruct ss as [|s2 rest].
  - destruct Hok as (Hs & Hstrip & Hbuf). cbv zeta.
    rewrite (split_run_buffered _ _ b) by exact Hbuf. simpl.
    unfold flush. rewrite join_split_nl, Hstrip.
    by rewrite (proj2 (truthy_nonempty s1) Hs).
  - destruct Hok as [(Hs & Hstrip & Hbuf) Hok]. cbv zeta.
    rewrite split_nl_join_delimiter, !split_run_app.
    rewrite (split_run_buffered _ (split_nl s1) false) by exact Hbuf.
    cbn [sections current_section in_code_block app].
    change (split_run (lit "---") ?st [lit "---"])
      with (split_step (lit "---") st (lit "---")).
    rewrite split_step_split by reflexivity.
    cbn [sections current_section in_code_block].
    assert (flush secs (split_nl s1) = secs ++ [s1]) as ->.
    { unfold flush. rewrite join_split_nl, Hstrip.
      by rewrite (proj2 (truthy_nonempty s1) Hs). }
    specialize (IH (secs ++ [s1])). cbv zeta in IH.
    rewrite IH by done. by rewrite <- app_assoc.
Qed.

(** C4: segmenting a text, joining the resulting sections with [---]
    lines and segmenting again gives exactly the same sections. *)
Theorem resegmentation_idempotent (content : str) :
  split_by_delimiter
    (join delimiter_line (split_by_delimiter content (lit "---"))) (lit "---")
  = split_by_delimiter content (lit "---").
Proof.
  destruct (split_by_delimiter_sections_ok content) as [b Hok].
  destruct (split_by_delimiter content (lit "---")) as [|s ss] eqn:E;
    [reflexivity|].
  unfold split_by_delimiter at 1. cbv zeta.
  by apply (resplit (s :: ss) [] b).
Qed.

Example resegmentation_three_sections :
  split_by_delimiter doc_three_sections (lit "---")
  = [lit "# One";
     join [nl] [lit "```python"; lit "x = 1"; lit "---"; lit "```"];
     join [nl] [lit "tail"; lit "```"; lit "---"; lit "never closed"]]
  /\ split_by_delimiter
       (join delimiter_line (split_by_delimiter doc_three_sections (lit "---")))
       (lit "---")
     = split_by_delimiter doc_three_sections (lit "---").
Proof. split; vm_compute; reflexivity. Qed.

(** ** The cells of a section that ends inside a fence *)

Lemma lazy_body_lines bol s body :
  lazy_body bol s = Some body ->
  (exists r, s = body ++ fence ++ r /\ (r = [] \/ exists r', r = nl :: r')) /\
  ((body = [] /\ bol = true) \/ exists b, body = b ++ [nl]).
Proof.
  revert bol body. induction s as [|c s IH]; intros bol body; simpl.
  - destruct (closing_here bol []) eqn:E; [|done].
    by apply closing_here_spec in E as (_ & r & ? & _).
  - destruct (closing_here bol (c :: s)) eqn:E.
    + intros [= <-]. apply closing_here_spec in E as (-> & r & -> & Hr).
      split; [by exists r | by left].
    + destruct (lazy_body _ s) as [b|] eqn:Eb; [|done].
      intros [= <-]. destruct (IH _ _ Eb) as [(r & -> & Hr) Hb].
      split; [by exists r|]. right.
      destruct Hb as [[-> Hc]|[b' ->]].
      * exists []. apply bool_decide_eq_true in Hc. by subst.
      * by exists (c :: b').
Qed.

Lemma match_at_lines pos s m :
  match_at pos s = Some m ->
  (exists r, s = block_text m ++ r /\ (r = [] \/ exists r', r = nl :: r')) /\
  (group2 m = [] \/ exists b, group2 m = b ++ [nl]).
Proof.
  unfold match_at. destruct (startswith s fence) eqn:Hs; [|done].
  apply startswith_fence_drop in Hs.
  pose proof (takeWhile_dropWhile isword (drop 3 s)) as Htd.
  remember (takeWhile isword (drop 3 s)) as tag eqn:Htag. clear Htag.
  destruct (dropWhile isword (drop 3 s)) as [|c rest] eqn:Hd; [done|].
  case_bool_decide as Hc; [subst c|done].
  destruct (lazy_body true rest) as [body|] eqn:Hb; [|done].
  intros [= <-]. unfold block_text. simpl group1. simpl group2.
  destruct (lazy_body_lines _ _ _ Hb) as [(r & Hr & Hr') Hbody].
  split.
  - exists r. split; [|done]. rewrite Hs, <- Htd, Hr.
    rewrite <- !app_assoc. simpl. by rewrite <- !app_assoc.
  - destruct Hbody as [[-> _]|?]; [by left | by right].
Qed.

Lemma scan_lines (section : str) (fuel pos : nat) (bol : bool) :
  Forall (match_eol section) (scan fuel pos bol (drop pos section)).
Proof.
  revert pos bol. induction fuel as [|fuel IH]; intros pos bol; simpl.
  { constructor. }
  destruct (drop pos section) as [|c s'] eqn:Hdrop; [constructor|].
  destruct (if bol then match_at pos (c :: s') else None) as [m|] eqn:E.
  - destruct bol; [|done].
    destruct (match_at_spec _ _ _ E) as (Hs & He & _).
    destruct (match_at_lines _ _ _ E) as [(r & Hr & Hr') Hbody].
    fold (block_text m) in He.
    specialize (IH (m_end m) false).
    rewrite <- Hdrop, drop_drop.
    replace (pos + (m_end m - pos)) with (m_end m) by lia.
    constructor; [|exact IH]. split; [|exact Hbody].
    assert (drop (m_end m) section = r) as ->; [|done].
    rewrite He, <- drop_drop, Hdrop, Hr.
    apply drop_app_length.
  - assert (section !! pos = Some c) as Hc.
    { rewrite <- (Nat.add_0_r pos), <- lookup_drop, Hdrop. done. }
    specialize (IH (S pos) (bool_decide (c = nl))).
    rewrite (drop_S _ _ _ Hc) in Hdrop. injection Hdrop as Hdrop.
    by rewrite Hdrop in IH.
Qed.

Lemma finditer_lines (section : str) : Forall (match_eol section) (finditer section).
Proof. rewrite finditer_scan. apply (scan_lines section _ 0 true). Qed.

Lemma fence_open_after_lines s :
  fence_open_after (split_nl s) = Nat.odd (fence_lines s).
Proof. reflexivity. Qed.

Lemma fence_lines_app_nl a b :
  fence_lines (a ++ nl :: b) = fence_lines a + fence_lines b.
Proof.
  unfold fence_lines. by rewrite split_nl_app_nl, List.filter_app, length_app.
Qed.

Lemma fence_lines_blank s : forallb isspace s = true -> fence_lines s = 0.
Proof.
  intros H. unfold fence_lines.
  induction (split_nl_forallb _ _ H) as [|l ls Hl _ IH]; [done|].
  simpl. destruct (is_fence_line l) eqn:E; [|exact IH].
  apply fence_line_not_blank in E. congruence.
Qed.

Lemma is_fence_line_fence r : is_fence_line (fence ++ r) = true.
Proof.
  unfold is_fence_line, strip.
  change (fence ++ r) with (backtick :: lit "``" ++ r).
  rewrite lstrip_cons_nonspace by done.
  destruct (rstrip_keep (lit "``") backtick r eq_refl) as [b' Hb].
  change (backtick :: lit "``" ++ r) with (lit "``" ++ backtick :: r).
  by rewrite Hb.
Qed.

Lemma isword_not_space c : isword c = true -> isspace c = false.
Proof. all_chars c; (reflexivity || discriminate). Qed.

Lemma word_no_nl tag : forallb isword tag = true -> nl ∉ tag.
Proof.
  induction tag as [|c tag IH]; simpl; [intros _; apply not_elem_of_nil|].
  intros [Hc Htag]%andb_true_iff. apply not_elem_of_cons. split; [|by apply IH].
  intros <-. exact (isword_not_nl _ Hc eq_refl).
Qed.

Lemma fence_lines_opener tag :
  forallb isword tag = true -> fence_lines (fence ++ tag) = 1.
Proof.
  intros Htag. unfold fence_lines. rewrite split_nl_no_nl.
  - cbn [List.filter]. by rewrite is_fence_line_fence.
  - change (fence ++ tag) with (backtick :: backtick :: backtick :: tag).
    rewrite !not_elem_of_cons. repeat split; try done. by apply word_no_nl.
Qed.

Lemma fence_lines_closer body :
  forallb isspace body = true ->
  body = [] \/ (exists b, body = b ++ [nl]) ->
  fence_lines (body ++ fence) = 1.
Proof.
  intros Hblank [->|[b ->]]; [reflexivity|].
  rewrite <- app_assoc. simpl. rewrite fence_lines_app_nl.
  rewrite fence_lines_blank; [reflexivity|].
  rewrite forallb_app in Hblank. by apply andb_true_iff in Hblank as [? _].
Qed.

(** A block with a blank body has exactly two fence lines. *)
Lemma fence_lines_block m s :
  forallb isword (group1 m) = true ->
  forallb isspace (group2 m) = true ->
  group2 m = [] \/ (exists b, group2 m = b ++ [nl]) ->
  s = [] \/ (exists r, s = nl :: r) ->
  fence_lines (block_text m ++ s)
  = 2 + match s with [] => 0 | _ :: r => fence_lines r end.
Proof.
  intros Hw Hblank Hbody Hs. unfold block_text.
  rewrite (app_assoc fence). rewrite <- app_assoc.
  change ((nl :: group2 m ++ fence) ++ s)
    with (nl :: (group2 m ++ fence) ++ s).
  rewrite fence_lines_app_nl, fence_lines_opener by done.
  destruct Hs as [->|[r ->]].
  - rewrite app_nil_r, fence_lines_closer by done. reflexivity.
  - rewrite fence_lines_app_nl, fence_lines_closer by done.
    reflexivity.
Qed.

Lemma blank_rstrip s :
  truthy (strip (rstrip s)) = false -> forallb isspace s = true.
Proof.
  intros H%truthy_strip_false. unfold rstrip in H.
  rewrite forallb_rev in H.
  destruct (dropWhile isspace (rev s)) as [|c r] eqn:E.
  - apply dropWhile_nil_all in E. by rewrite forallb_rev in E.
  - apply dropWhile_head in E. simpl in H. by rewrite E in H.
Qed.

Lemma prose_cell_blank t : all_blank (prose_cell t) -> forallb isspace t = true.
Proof.
  unfold all_blank, prose_cell. intros H.
  destruct (truthy (strip t)) eqn:E; [|by apply truthy_strip_false].
  apply Forall_inv in H. cbn [cell_content] in H.
  rewrite strip_idem in H. congruence.
Qed.

(** The text between [last_end] and the start of a match at the beginning
    of a line is empty or ends with a newline. *)
Lemma gap_shape (section : str) (last_end start : nat) :
  last_end <= start ->
  start = 0 \/ section !! (start - 1) = Some nl ->
  slice section last_end start = [] \/
  exists g, slice section last_end start = g ++ [nl].
Proof.
  intros Hle Hbol. destruct (decide (start = last_end)) as [->|Hne].
  - left. unfold slice. by rewrite Nat.sub_diag.
  - right. destruct Hbol as [->|Hnl]; [lia|].
    exists (slice section last_end (start - 1)).
    rewrite (slice_split section last_end (start - 1) start) by lia.
    f_equal. unfold slice. rewrite (drop_S _ _ _ Hnl).
    by replace (start - (start - 1)) with 1 by lia.
Qed.

Lemma drop_from_match (section : str) (m : Match) :
  match_in section m ->
  drop (m_start m) section = block_text m ++ drop (m_end m) section.
Proof.
  intros (_ & _ & Hlen & Hslice & _).
  rewrite Hlen, slice_take_drop in Hslice.
  rewrite <- (take_drop (length (block_text m)) (drop (m_start m) section))
    at 1.
  by rewrite Hslice, drop_drop, Hlen.
Qed.

Lemma drop_from_last_end (section : str) (last_end start : nat) :
  last_end <= start ->
  drop last_end section = slice section last_end start ++ drop start section.
Proof.
  intros Hle. unfold slice.
  rewrite <- (take_drop (start - last_end) (drop last_end section)) at 1.
  rewrite drop_drop. by replace (last_end + (start - last_end)) with start by lia.
Qed.

(** Skipping a blank gap up to a match does not change the count. *)
Lemma fence_lines_skip_gap (section : str) (last_end : nat) (m : Match) :
  last_end <= m_start m ->
  match_in section m ->
  forallb isspace (slice section last_end (m_start m)) = true ->
  last_end = 0 \/ (exists r, drop last_end section = nl :: r) ->
  fence_lines_after section last_end
  = fence_lines (drop (m_start m) section).
Proof.
  intros Hle Hm Hblank Hpos.
  pose proof (drop_from_last_end section last_end (m_start m) Hle) as Hdrop.
  pose proof (drop_from_match section m Hm) as Hblock.
  destruct Hm as (Hbol & _).
  destruct (gap_shape section last_end (m_start m) Hle Hbol) as [Hg|[g Hg]];
    rewrite Hg in Hdrop, Hblank.
  - simpl in Hdrop. destruct Hpos as [->|[r Hr]]; [by rewrite <- Hdrop|].
    rewrite Hr, Hblock in Hdrop. discriminate.
  - rewrite forallb_app in Hblank.
    apply andb_true_iff in Hblank as [Hblank _].
    rewrite <- app_assoc in Hdrop. simpl in Hdrop.
    destruct Hpos as [->|[r Hr]].
    + change (drop 0 section) with section in Hdrop.
      unfold fence_lines_after. rewrite Hdrop at 1.
      by rewrite fence_lines_app_nl, fence_lines_blank.
    + assert (fence_lines_after section last_end = fence_lines r) as ->.
      { unfold fence_lines_after. destruct last_end; [|by rewrite Hr].
        change (drop 0 section) with section in Hr. rewrite Hr.
        apply (fence_lines_app_nl [] r). }
      rewrite Hr in Hdrop. destruct g as [|c g]; simpl in Hdrop.
      * by injection Hdrop as ->.
      * injection Hdrop as Hc Hrest. subst c r. simpl in Hblank.
        by rewrite fence_lines_app_nl, fence_lines_blank.
Qed.

(** If every cell of a section is dropped by the final filter, the section
    has an even number of fence lines. *)
Lemma emit_blank_even (section : str) (ms : list Match) (last_end : nat) :
  chain last_end ms ->
  Forall (match_in section) ms -> Forall (match_eol section) ms ->
  last_end = 0 \/ drop last_end section = [] \/
    (exists r, drop last_end section = nl :: r) ->
  all_blank (emit section last_end ms) ->
  Nat.even (fence_lines_after section last_end) = true.
Proof.
  revert last_end.
  induction ms as [|m ms IH]; intros last_end Hchain Hin Heol Hpos Hblank.
  - simpl in Hblank. apply prose_cell_blank in Hblank.
    unfold fence_lines_after. destruct last_end as [|n].
    + by rewrite fence_lines_blank.
    + destruct (drop (S n) section) as [|c r]; [done|].
      simpl in Hblank. apply andb_true_iff in Hblank as [_ Hblank].
      by rewrite fence_lines_blank.
  - simpl in Hchain. destruct Hchain as (Hle & Hlt & Hchain).
    apply Forall_cons in Hin as [Hm Hin].
    apply Forall_cons in Heol as [[Hend Hbody] Heol].
    simpl in Hblank. apply Forall_app in Hblank as [Hgap Hblank].
    apply Forall_cons in Hblank as [Hcode Hblank].
    apply prose_cell_blank in Hgap. simpl in Hcode.
    apply blank_rstrip in Hcode.
    assert (last_end = 0 \/ exists r, drop last_end section = nl :: r)
      as Hpos'.
    { destruct Hpos as [?|[Hnil|?]]; [by left| |by right].
      destruct Hm as (_ & Hlen & _).
      apply (f_equal length) in Hnil. rewrite length_drop in Hnil.
      simpl in Hnil. lia. }
    rewrite (fence_lines_skip_gap section last_end m Hle Hm Hgap Hpos').
    rewrite (drop_from_match section m Hm).
    pose proof Hm as (_ & _ & _ & _ & Hw).
    rewrite (fence_lines_block m _ Hw Hcode Hbody Hend).
    specialize (IH (m_end m) Hchain Hin Heol (or_intror Hend) Hblank).
    unfold fence_lines_after in IH.
    destruct (m_end m) as [|e] eqn:He; [lia|].
    destruct (drop (S e) section); simpl; [done|exact IH].
Qed.

Lemma filter_nil_Forall {A} (f : A -> bool) (l : list A) :
  List.filter f l = [] -> Forall (fun x => f x = false) l.
Proof.
  induction l as [|x l IH]; simpl; [constructor|].
  destruct (f x) eqn:E; [done|]. intros H. constructor; [done|by apply IH].
Qed.

(** A section with an odd number of fence lines keeps at least one cell. *)
Lemma extract_odd_not_blank (section : str) (langs : gset str) :
  Nat.odd (fence_lines section) = true ->
  List.filter (fun c => truthy (strip (cell_content c)))
    (extract_cells_from_section section langs) <> [].
Proof.
  intros Hodd Hnil. apply filter_nil_Forall in Hnil.
  rewrite extract_emit in Hnil.
  destruct (finditer_spec section) as [Hchain Hin].
  pose proof (finditer_lines section) as Heol.
  assert (Nat.even (fence_lines_after section 0) = true) as Heven.
  { apply (emit_blank_even section
             (List.filter (extracted langs) (finditer section)) 0).
    - by apply chain_filter.
    - rewrite Forall_forall in Hin. apply Forall_forall.
      intros m Hm%list_elem_of_In. apply filter_In in Hm as [Hm _].
      by apply Hin, list_elem_of_In.
    - rewrite Forall_forall in Heol. apply Forall_forall.
      intros m Hm%list_elem_of_In. apply filter_In in Hm as [Hm _].
      by apply Heol, list_elem_of_In.
    - by left.
    - exact Hnil. }
  simpl in Heven. rewrite <- Nat.negb_odd, Hodd in Heven. done.
Qed.

Lemma buffered_parity b (lines : list str) b' :
  buffered b lines = Some b' -> b' = xorb b (fence_open_after lines).
Proof.
  revert b. induction lines as [|l ls IH]; intros b; simpl.
  - intros [= <-]. by destruct b.
  - destruct (splits_at b l); [done|]. intros H%IH. subst b'.
    unfold fence_open_after. simpl. destruct (is_fence_line l); simpl.
    + rewrite Nat.odd_succ, <- Nat.negb_odd. by destruct b, (Nat.odd _).
    + by destruct b, (Nat.odd _).
Qed.

Lemma fold_extract_flat_map {A B} (g : A -> list B) (l : list A) (acc : list B) :
  fold_left (fun cells x => cells ++ g x) l acc = acc ++ flat_map g l.
Proof.
  revert acc. induction l as [|x l IH]; intros acc; simpl.
  - by rewrite app_nil_r.
  - by rewrite IH, <- app_assoc.
Qed.

(** The last section of a text that ends inside an open fence. *)
Lemma split_unterminated (content : str) :
  fence_open_after (split_nl content) = true ->
  let st := split_run (lit "---") split_init (split_nl content) in
  let last := strip (join [nl] (current_section st)) in
  Exists (fun l => is_fence_line l = true) (current_section st) /\
  last <> [] /\
  split_by_delimiter content (lit "---") = sections st ++ [last] /\
  fence_open_after (split_nl last) = true.
Proof.
  intros Hodd st last.
  assert (in_code_block st = true) as Hin.
  { unfold st. by rewrite split_run_in_code_block, Hodd. }
  assert (Exists (fun l => is_fence_line l = true) (current_section st))
    as Hex.
  { by apply (split_run_open_fence_buffered (lit "---") split_init
                (split_nl content)). }
  assert (last <> []) as Hlast.
  { unfold last. rewrite strip_nil_iff. apply not_true_iff_false.
    apply join_not_blank. eapply Exists_impl; [exact Hex|].
    intros l. apply fence_line_not_blank. }
  split; [exact Hex|]. split; [exact Hlast|]. split.
  - unfold split_by_delimiter, flush. cbv zeta. fold st. fold last.
    by destruct last.
  - destruct (split_run_inv split_init (split_nl content)
                (split_nl_lines_no_nl content)) as (_ & Hnl & Hbuf).
    { split; [constructor|]. split; [constructor|done]. }
    fold st in Hnl, Hbuf. rewrite Hin in Hbuf.
    assert (buffered false (split_nl last) = Some true) as Hb.
    { unfold last. rewrite buffered_strip.
      destruct (current_section st) as [|l ls] eqn:E; [by inversion Hex|].
      by rewrite split_nl_join. }
    by apply buffered_parity in Hb.
Qed.

(** A text that ends inside an open fence gives at least one cell. *)
Lemma parse_markdown_unterminated (content : str)
  (code_languages : option (gset str)) :
  fence_open_after (split_nl (remove_front_matter content)) = true ->
  parse_markdown content code_languages <> [].
Proof.
  intros Hodd. unfold parse_markdown. cbv zeta. unfold delimiter_default.
  destruct (split_unterminated _ Hodd) as (_ & _ & -> & Hlast).
  rewrite fold_extract_flat_map, flat_map_app. simpl.
  rewrite app_nil_r, List.filter_app. intros [_ H]%app_eq_nil.
  revert H. by apply extract_odd_not_blank.
Qed.

(** C8: the parsing core is a total function of the text and the allow
    set.  Its only bounded search, [finditer], has fuel to spare: any fuel
    above the length of the section gives the matches of [finditer].  A text
    that ends inside an open fence (an odd number of fence lines) still has
    its buffer flushed as a last section, which is not empty and holds the
    opening fence line, and the cell list is then not empty.  A text with no
    section gives the empty cell list, and every text and allow set gives
    some list of cells and some notebook. *)
Theorem parsing_core_total :
  (forall (section : str) (fuel : nat),
     length section < fuel ->
     finditer_from fuel 0 true section = finditer section) /\
  (forall content : str,
     fence_open_after (split_nl content) = true ->
     let st := split_run (lit "---") split_init (split_nl content) in
     let last := strip (join [nl] (current_section st)) in
     Exists (fun l => is_fence_line l = true) (current_section st) /\
     last <> [] /\
     split_by_delimiter content (lit "---") = sections st ++ [last]) /\
  (forall (content : str) (code_languages : option (gset str)),
     fence_open_after (split_nl (remove_front_matter content)) = true ->
     parse_markdown content code_languages <> []) /\
  (forall (content : str) (code_languages : option (gset str)),
     split_by_delimiter (remove_front_matter content) (lit "---") = [] ->
     parse_markdown content code_languages = []) /\
  (forall (content : str) (code_languages : option (gset str)),
     exists (cells : list Cell) (nb : list NbCell),
       parse_markdown content code_languages = cells /\
       create_notebook cells = nb).
Proof.
  split; [|split; [|split; [|split]]].
  - intros section fuel H. destruct fuel as [|fuel]; [lia|].
    rewrite finditer_scan, finditer_from_scan by lia.
    apply scan_fuel; lia.
  - intros content Hodd st last.
    destruct (split_unterminated content Hodd) as (H1 & H2 & H3 & _).
    by repeat split.
  - apply parse_markdown_unterminated.
  - intros content langs H. unfold parse_markdown. cbv zeta.
    unfold delimiter_default. by rewrite H.
  - intros content langs. eauto.
Qed.

Lemma parsing_core_total_witness :
  length (lit "```") < 5 /\
  finditer_from 5 0 true (lit "```") = finditer (lit "```") /\
  fence_open_after (split_nl doc_unterminated_fence) = true /\
  split_by_delimiter doc_unterminated_fence (lit "---") =
    [lit "intro"; join [nl] [lit "```python"; lit "x = 1"; lit "---"]] /\
  fence_open_after (split_nl (remove_front_matter doc_unterminated_fence))
  = true /\
  parse_markdown doc_unterminated_fence None <> [] /\
  split_by_delimiter (remove_front_matter doc_blank) (lit "---") = [] /\
  parse_markdown doc_blank None = [] /\
  parse_markdown (join [nl] [lit "```python"; lit "```"]) None = [].
Proof.
  destruct parsing_core_total as (H1 & H2 & H2' & H3 & _).
  assert (length (lit "```") < 5) as Hl by (vm_compute; lia).
  assert (fence_open_after (split_nl doc_unterminated_fence) = true) as Hodd
    by reflexivity.
  assert (fence_open_after
            (split_nl (remove_front_matter doc_unterminated_fence)) = true)
    as Hodd' by reflexivity.
  assert (split_by_delimiter (remove_front_matter doc_blank) (lit "---") = [])
    as Hnone by reflexivity.
  split; [exact Hl|]. split; [exact (H1 _ _ Hl)|]. split; [exact Hodd|].
  split; [destruct (H2 _ Hodd) as (_ & _ & ->); reflexivity|].
  split; [exact Hodd'|]. split; [exact (H2' _ None Hodd')|].
  split; [exact Hnone|].
  split; [exact (H3 _ None Hnone) | vm_compute; reflexivity].
Defined.

(** * Further properties of the code *)

(** ** Front matter, in every case *)

Lemma front_matter_end_closed (lines : list str) (i : nat) :
  front_matter_end lines i false =
  match list_find (fun line => strip line = lit "---") lines with
  | Some (j, _) => front_matter_end (drop (S j) lines) (i + S j) true
  | None => 0
  end.
Proof.
  revert i. induction lines as [|line rest IH]; intros i; simpl; [done|].
  case_bool_decide as Hd.
  - rewrite decide_True by done. simpl. rewrite drop_0. f_equal. lia.
  - rewrite decide_False by done. rewrite IH.
    destruct (list_find _ rest) as [[j l]|]; simpl; [|done]. f_equal. lia.
Qed.

Lemma join_drop_suffix (lines : list str) (k : nat) :
  exists removed,
    join [nl] lines = removed ++ join [nl] (drop k lines) /\
    (removed = [] \/ drop k lines = [] \/ exists r, removed = r ++ [nl]).
Proof.
  destruct (decide (k = 0)) as [->|Hk].
  { exists []. rewrite drop_0. split; [done|by left]. }
  destruct (drop k lines) as [|l ls] eqn:Hdrop.
  { exists (join [nl] lines). simpl. rewrite app_nil_r. split; [done|].
    right. by left. }
  exists (join [nl] (take k lines) ++ [nl]). split.
  - rewrite <- (take_drop k lines) at 1. rewrite Hdrop.
    rewrite join_app; [by rewrite <- app_assoc| |done].
    intros Ht. destruct lines as [|x xs]; [by rewrite drop_nil in Hdrop|].
    destruct k; [done|]. discriminate Ht.
  - right. right. eauto.
Qed.

(** X1: the rule of the loop for every text that starts with [---]: the first
    line that trims to [---] opens the block, the next one closes it, and
    the lines through the closing one are removed; with fewer than two such
    lines the text is returned unchanged. *)
Theorem front_matter_second_rule_closes (content : str) :
  startswith content (lit "---") = true ->
  let lines := split_nl content in
  match list_find is_rule lines with
  | None => remove_front_matter content = content
  | Some (i, _) =>
      match list_find is_rule (drop (S i) lines) with
      | None => remove_front_matter content = content
      | Some (k, _) =>
          remove_front_matter content
          = join [nl] (drop (S i + k + 1) lines)
      end
  end.
Proof.
  intros Hstart lines. unfold remove_front_matter. rewrite Hstart.
  simpl negb. cbv iota. cbv zeta. fold lines.
  rewrite front_matter_end_closed. unfold is_rule.
  destruct (list_find _ lines) as [[i l]|]; [|done].
  rewrite front_matter_end_opened.
  destruct (list_find _ (drop (S i) lines)) as [[k l']|]; [|done].
  rewrite bool_decide_eq_true_2 by lia. repeat f_equal; lia.
Qed.

Lemma front_matter_second_rule_closes_witness :
  startswith doc_dashes_then_rules (lit "---") = true /\
  remove_front_matter doc_dashes_then_rules = lit "body".
Proof.
  assert (startswith doc_dashes_then_rules (lit "---") = true) as H
    by reflexivity.
  split; [exact H|].
  exact (front_matter_second_rule_closes doc_dashes_then_rules H).
Defined.

Lemma remove_front_matter_removes_prefix (content : str) :
  exists removed,
    content = removed ++ remove_front_matter content /\
    (removed = [] \/ remove_front_matter content = [] \/
     exists r, removed = r ++ [nl]).
Proof.
  unfold remove_front_matter.
  destruct (startswith content (lit "---")); simpl negb; cbv iota;
    [|exists []; split; [done|by left]].
  cbv zeta. case_bool_decide; [|exists []; split; [done|by left]].
  destruct (join_drop_suffix (split_nl content)
              (front_matter_end (split_nl content) 0 false))
    as (removed & Heq & Hshape).
  exists removed. rewrite join_split_nl in Heq. split; [done|].
  destruct Hshape as [?|[Hd|?]]; [by left| |by right; right].
  right. left. by rewrite Hd.
Qed.

(** X2: what [remove_front_matter] returns is always a suffix of its input,
    and what it removes is made of whole lines: it ends with a newline
    unless nothing or everything is removed. *)
Theorem remove_front_matter_suffix (content : str) :
  exists removed,
    content = removed ++ remove_front_matter content /\
    (removed = [] \/ remove_front_matter content = [] \/
     exists r, removed = r ++ [nl]).
Proof. apply remove_front_matter_removes_prefix. Qed.

Lemma list_find_app_none {A} (P : A -> Prop) `{!forall x, Decision (P x)}
  (l1 l2 : list A) :
  Forall (fun x => ~ P x) l1 ->
  list_find P (l1 ++ l2)
  = prod_map (fun k => length l1 + k) id <$> list_find P l2.
Proof.
  induction 1 as [|x l1 Hx _ IH]; simpl.
  - destruct (list_find P l2) as [[k y]|]; reflexivity.
  - rewrite decide_False by done. rewrite IH.
    destruct (list_find P l2) as [[k y]|]; reflexivity.
Qed.

Lemma startswith_app (a b p : str) :
  startswith a p = true -> startswith (a ++ b) p = true.
Proof.
  intros [r ->]%startswith_spec. apply startswith_spec. exists (r ++ b).
  by rewrite app_assoc.
Qed.

Lemma rule_no_nl : nl ∉ lit "---".
Proof. apply (bool_decide_unpack _). vm_compute. exact I. Qed.

Lemma front_matter_block_lines (meta : list str) (body : str) :
  Forall (fun l => (nl ∉ l) /\ strip l <> lit "---") meta ->
  split_nl (front_matter_block meta ++ nl :: body)
  = (lit "---" :: meta ++ [lit "---"]) ++ split_nl body /\
  split_nl (front_matter_block meta) = lit "---" :: meta ++ [lit "---"].
Proof.
  intros Hmeta.
  assert (split_nl (front_matter_block meta) = lit "---" :: meta ++ [lit "---"])
    as Hb.
  { unfold front_matter_block. apply split_nl_join; [done|].
    constructor; [apply rule_no_nl|].
    apply Forall_app. split.
    { eapply Forall_impl; [exact Hmeta|]. by intros ? []. }
    constructor; [apply rule_no_nl|done]. }
  split; [|done]. by rewrite split_nl_app_nl, Hb.
Qed.

Lemma front_matter_block_end (meta rest : list str) :
  Forall (fun l => (nl ∉ l) /\ strip l <> lit "---") meta ->
  front_matter_end ((lit "---" :: meta ++ [lit "---"]) ++ rest) 0 false
  = S (S (length meta)).
Proof.
  intros Hmeta.
  change (front_matter_end (lit "---" :: (meta ++ [lit "---"]) ++ rest) 0 false
          = S (S (length meta))).
  cbn [front_matter_end].
  rewrite bool_decide_eq_true_2 by reflexivity. cbn [negb].
  rewrite front_matter_end_opened, <- app_assoc.
  rewrite (list_find_app_none (fun line => strip line = lit "---")).
  2:{ eapply Forall_impl; [exact Hmeta|]. by intros ? []. }
  change ([lit "---"] ++ rest) with (lit "---" :: rest).
  cbn [list_find]. rewrite decide_True by reflexivity. simpl. lia.
Qed.

(** X3: putting a front-matter block in front of a text and removing the front
    matter gives the text back, whatever the text is; a document that is
    only a front-matter block becomes empty; and the block contributes no
    cell. *)
Theorem front_matter_round_trip (meta : list str) (body : str) :
  Forall (fun l => (nl ∉ l) /\ strip l <> lit "---") meta ->
  remove_front_matter (front_matter_block meta ++ nl :: body) = body /\
  remove_front_matter (front_matter_block meta) = [] /\
  (startswith body (lit "---") = false ->
   forall code_languages,
     parse_markdown (front_matter_block meta ++ nl :: body) code_languages
     = parse_markdown body code_languages).
Proof.
  intros Hmeta.
  destruct (front_matter_block_lines meta body Hmeta) as [Hl1 Hl2].
  assert (startswith (front_matter_block meta) (lit "---") = true) as Hs.
  { apply startswith_spec. unfold front_matter_block.
    destruct meta; simpl; eauto. }
  assert (remove_front_matter (front_matter_block meta ++ nl :: body) = body)
    as H1.
  { unfold remove_front_matter. rewrite startswith_app by done.
    simpl negb. cbv iota. cbv zeta.
    rewrite Hl1, front_matter_block_end by done.
    rewrite bool_decide_eq_true_2 by lia.
    rewrite drop_app_length'; [apply join_split_nl|].
    simpl. rewrite length_app. simpl. lia. }
  split; [exact H1|]. split.
  - unfold remove_front_matter. rewrite Hs. simpl negb. cbv iota. cbv zeta.
    rewrite Hl2. rewrite <- (app_nil_r (_ :: _ ++ _)).
    rewrite front_matter_block_end by done.
    rewrite bool_decide_eq_true_2 by lia.
    rewrite drop_app_length'; [done|].
    simpl. rewrite length_app. simpl. lia.
  - intros Hbody langs. unfold parse_markdown. cbv zeta. rewrite H1.
    by rewrite (remove_front_matter_not_started body).
Qed.

Lemma front_matter_round_trip_witness :
  Forall (fun l => (nl ∉ l) /\ strip l <> lit "---") [lit "title: x"] /\
  remove_front_matter
    (front_matter_block [lit "title: x"] ++ nl :: doc_front_matter)
  = doc_front_matter /\
  remove_front_matter (front_matter_block [lit "title: x"]) = [].
Proof.
  assert (Forall (fun l => (nl ∉ l) /\ strip l <> lit "---") [lit "title: x"])
    as H.
  { constructor; [|done]. split; [|vm_compute; discriminate].
    apply (bool_decide_unpack _). vm_compute. exact I. }
  destruct (front_matter_round_trip [lit "title: x"] doc_front_matter H)
    as (H1 & H2 & _).
  exact (conj H (conj H1 H2)).
Defined.

(** ** Sections *)

Lemma lstrip_decompose s :
  exists pre, s = pre ++ lstrip s /\ forallb isspace pre = true.
Proof.
  exists (takeWhile isspace s). split.
  - symmetry. apply takeWhile_dropWhile.
  - apply takeWhile_all.
Qed.

Lemma rstrip_decompose s :
  exists post, s = rstrip s ++ post /\ forallb isspace post = true.
Proof.
  exists (rev (takeWhile isspace (rev s))). split.
  - unfold rstrip. rewrite <- rev_app_distr, takeWhile_dropWhile.
    by rewrite rev_involutive.
  - rewrite forallb_rev. apply takeWhile_all.
Qed.

Lemma strip_decompose s :
  exists pre post,
    s = pre ++ strip s ++ post /\
    forallb isspace pre = true /\ forallb isspace post = true.
Proof.
  destruct (lstrip_decompose s) as (pre & Hs & Hpre).
  destruct (rstrip_decompose (lstrip s)) as (post & Hl & Hpost).
  exists pre, post. unfold strip. by rewrite <- Hl.
Qed.

Lemma flush_app (secs cur : list str) : flush secs cur = secs ++ flush [] cur.
Proof.
  unfold flush. cbv zeta. destruct (truthy _); [done|by rewrite app_nil_r].
Qed.

Lemma flush_trimmed (secs cur : list str) :
  Forall (fun s => s <> [] /\ strip s = s) secs ->
  Forall (fun s => s <> [] /\ strip s = s) (flush secs cur).
Proof.
  intros H. unfold flush. cbv zeta.
  destruct (truthy _) eqn:Ht; [|done].
  apply Forall_app. split; [done|]. constructor; [|done]. split.
  - by apply truthy_nonempty.
  - apply strip_idem.
Qed.

Lemma split_step_sections d st line :
  sections (split_step d st line) = sections st \/
  sections (split_step d st line) = flush (sections st) (current_section st).
Proof.
  unfold split_step. cbv zeta.
  destruct (startswith _ fence); [by left|].
  destruct (_ && _); [by right|by left].
Qed.

Lemma split_run_trimmed d st (lines : list str) :
  Forall (fun s => s <> [] /\ strip s = s) (sections st) ->
  Forall (fun s => s <> [] /\ strip s = s) (sections (split_run d st lines)).
Proof.
  revert st. induction lines as [|l ls IH]; intros st H; [done|].
  apply IH. destruct (split_step_sections d st l) as [-> | ->]; [done|].
  by apply flush_trimmed.
Qed.

Lemma split_by_delimiter_trimmed (content d : str) :
  Forall (fun s => s <> [] /\ strip s = s) (split_by_delimiter content d).
Proof.
  unfold split_by_delimiter. cbv zeta. apply flush_trimmed.
  by apply split_run_trimmed.
Qed.

Lemma strip_length s : length (strip s) <= length s.
Proof.
  destruct (strip_decompose s) as (pre & post & Hs & _).
  rewrite Hs at 2. rewrite !length_app. lia.
Qed.

Lemma trimmed_first s x s' : strip s = s -> s = x :: s' -> isspace x = false.
Proof.
  intros Hs ->. destruct (isspace x) eqn:Hx; [|done].
  rewrite strip_cons_space in Hs by done.
  pose proof (strip_length s') as Hl. rewrite Hs in Hl. simpl in Hl. lia.
Qed.

Lemma trimmed_last s s' y : strip s = s -> s = s' ++ [y] -> isspace y = false.
Proof.
  intros Hs ->. destruct (isspace y) eqn:Hy; [|done].
  rewrite strip_snoc_space in Hs by done.
  pose proof (strip_length s') as Hl. rewrite Hs, length_app in Hl.
  simpl in Hl. lia.
Qed.

(** X4: whatever the delimiter, no section is empty and no section begins
    or ends with white space: trimming a section changes nothing, and its
    first and last characters are not white space. *)
Theorem sections_trimmed (content d : str) :
  Forall (fun s => strip s = s /\ solid s) (split_by_delimiter content d).
Proof.
  eapply Forall_impl; [apply split_by_delimiter_trimmed|].
  intros s [Hne Hs]. split; [done|]. split.
  - destruct s as [|x s']; [done|]. exists x, s'. split; [done|].
    by eapply trimmed_first.
  - destruct (exists_last Hne) as (s' & y & ->). exists s', y.
    split; [done|]. by eapply trimmed_last.
Qed.

Lemma sectionlike_parity b s :
  sectionlike b s -> fence_open_after (split_nl s) = b.
Proof. intros (_ & _ & H%buffered_parity). by subst b. Qed.

(** X5: every section but the last has its fences closed: an even number of
    fence lines.  The last section ends inside a fence exactly when the
    text does. *)
Theorem sections_fences_closed (content : str) (ss : list str) (last : str) :
  split_by_delimiter content (lit "---") = ss ++ [last] ->
  Forall (fun s => fence_open_after (split_nl s) = false) ss /\
  fence_open_after (split_nl last) = fence_open_after (split_nl content).
Proof.
  unfold split_by_delimiter. cbv zeta.
  set (st := split_run (lit "---") split_init (split_nl content)).
  destruct (split_run_inv split_init (split_nl content)
              (split_nl_lines_no_nl content)) as (Hsecs & Hnl & Hbuf).
  { split; [constructor|]. split; [constructor|done]. }
  fold st in Hsecs, Hnl, Hbuf.
  assert (in_code_block st = fence_open_after (split_nl content)) as Hin.
  { unfold st. by rewrite split_run_in_code_block. }
  assert (Forall (fun s => fence_open_after (split_nl s) = false) (sections st))
    as Hclosed.
  { eapply Forall_impl; [exact Hsecs|]. intros s. apply sectionlike_parity. }
  unfold flush. cbv zeta. destruct (truthy _) eqn:Ht.
  - intros [Hs Hl]%app_inj_tail. rewrite <- Hs, <- Hl. split; [done|].
    rewrite <- Hin.
    assert (buffered false
              (split_nl (strip (join [nl] (current_section st))))
            = Some (in_code_block st)) as Hb.
    { rewrite buffered_strip.
      destruct (current_section st) as [|l ls] eqn:E; [done|].
      by rewrite split_nl_join. }
    apply buffered_parity in Hb. by rewrite Hb.
  - intros Heq. rewrite Heq in Hclosed.
    apply Forall_app in Hclosed as [Hss Hlast]. split; [done|].
    apply Forall_inv in Hlast. rewrite Hlast, <- Hin.
    destruct (in_code_block st) eqn:Hopen; [|done].
    assert (Exists (fun l => is_fence_line l = true) (current_section st))
      as Hex.
    { by apply (split_run_open_fence_buffered (lit "---") split_init
                  (split_nl content)). }
    apply truthy_strip_false in Ht.
    assert (forallb isspace (join [nl] (current_section st)) = false) as Hf.
    { apply join_not_blank. eapply Exists_impl; [exact Hex|].
      intros l. apply fence_line_not_blank. }
    congruence.
Qed.

Lemma sections_fences_closed_witness :
  split_by_delimiter doc_unterminated_fence (lit "---")
  = [lit "intro"] ++ [join [nl] [lit "```python"; lit "x = 1"; lit "---"]] /\
  fence_open_after (split_nl (lit "intro")) = false /\
  fence_open_after
    (split_nl (join [nl] [lit "```python"; lit "x = 1"; lit "---"]))
  = fence_open_after (split_nl doc_unterminated_fence).
Proof.
  assert (split_by_delimiter doc_unterminated_fence (lit "---")
          = [lit "intro"]
            ++ [join [nl] [lit "```python"; lit "x = 1"; lit "---"]]) as H
    by (vm_compute; reflexivity).
  destruct (sections_fences_closed _ _ _ H) as [H1 H2].
  split; [exact H|]. split; [exact (Forall_inv H1)|exact H2].
Defined.

Lemma split_by_delimiter_unsplit (content d : str) :
  sections (split_run d split_init (split_nl content)) = [] ->
  current_section (split_run d split_init (split_nl content))
  = split_nl content ->
  split_by_delimiter content d = whole_section content.
Proof.
  intros Hs Hc. unfold split_by_delimiter, flush, whole_section. cbv zeta.
  by rewrite Hs, Hc, join_split_nl.
Qed.

(** X6: a text none of whose lines ends a section (every [---] line lies inside
    a fence) is one section, the trimmed text, or none if it is blank. *)
Theorem no_rule_one_section (content : str) (b : bool) :
  buffered false (split_nl content) = Some b ->
  split_by_delimiter content (lit "---") = whole_section content.
Proof.
  intros H. apply split_by_delimiter_unsplit;
    by rewrite (split_run_buffered split_init _ b H).
Qed.

Lemma no_rule_one_section_witness :
  buffered false (split_nl doc_fenced_delimiter) = Some false /\
  split_by_delimiter doc_fenced_delimiter (lit "---") = [doc_fenced_delimiter].
Proof.
  assert (buffered false (split_nl doc_fenced_delimiter) = Some false) as H
    by reflexivity.
  exact (conj H (no_rule_one_section doc_fenced_delimiter false H)).
Defined.

Lemma split_run_never d st (lines : list str) :
  Forall (fun l => is_fence_line l = true \/ strip l <> d) lines ->
  sections (split_run d st lines) = sections st /\
  current_section (split_run d st lines) = current_section st ++ lines.
Proof.
  intros H. revert st.
  induction H as [|l ls Hl _ IH]; intros st; simpl.
  - by rewrite app_nil_r.
  - destruct (IH (split_step d st l)) as [-> ->].
    unfold split_step. cbv zeta. unfold is_fence_line in Hl.
    destruct (startswith (strip l) fence) eqn:Hf; simpl.
    + by rewrite <- app_assoc.
    + destruct Hl as [?|Hl]; [done|].
      rewrite (bool_decide_eq_false_2 _ Hl), andb_false_r. simpl.
      by rewrite <- app_assoc.
Qed.

Lemma strip_elem_of (x : ascii) (s : str) : x ∈ strip s -> x ∈ s.
Proof.
  destruct (strip_decompose s) as (pre & post & Hs & _).
  intros H. rewrite Hs. set_solver.
Qed.

(** X7: a delimiter that begins or ends with white space, contains a newline,
    or begins with three backticks is never met: the text is one section,
    the trimmed text, or none if it is blank. *)
Theorem unmatched_delimiter_never_splits (content d : str) :
  strip d <> d \/ nl ∈ d \/ startswith d fence = true ->
  split_by_delimiter content d = whole_section content.
Proof.
  intros Hd.
  assert (Forall (fun l => is_fence_line l = true \/ strip l <> d)
            (split_nl content)) as H.
  { eapply Forall_impl; [apply split_nl_lines_no_nl|].
    intros l Hl. cbv beta in Hl.
    destruct (decide (strip l = d)) as [E|]; [|by right].
    destruct Hd as [Hd|[Hd|Hd]].
    - exfalso. apply Hd. by rewrite <- E, strip_idem.
    - exfalso. apply Hl. apply strip_elem_of. by rewrite E.
    - left. unfold is_fence_line. by rewrite E. }
  destruct (split_run_never d split_init _ H) as [Hs Hc].
  by apply split_by_delimiter_unsplit.
Qed.

Lemma unmatched_delimiter_never_splits_witness :
  (strip (lit "--- ") <> lit "--- " \/ nl ∈ lit "--- " \/
   startswith (lit "--- ") fence = true) /\
  split_by_delimiter doc_front_matter (lit "--- ") = [doc_front_matter].
Proof.
  assert (strip (lit "--- ") <> lit "--- " \/ nl ∈ lit "--- " \/
          startswith (lit "--- ") fence = true) as H
    by (left; vm_compute; discriminate).
  exact (conj H (unmatched_delimiter_never_splits doc_front_matter _ H)).
Defined.

Lemma split_step_prefix d (secs : list str) st line :
  split_step d {| sections := secs ++ sections st;
                  current_section := current_section st;
                  in_code_block := in_code_block st |} line
  = {| sections := secs ++ sections (split_step d st line);
       current_section := current_section (split_step d st line);
       in_code_block := in_code_block (split_step d st line) |}.
Proof.
  unfold split_step. cbv zeta. cbn [sections current_section in_code_block].
  destruct (startswith (strip line) fence); [done|].
  destruct (negb (in_code_block st) && bool_decide (strip line = d)); [|done].
  cbn [sections current_section in_code_block].
  by rewrite (flush_app (secs ++ _)), (flush_app (sections st)), <- app_assoc.
Qed.

Lemma split_run_prefix d (secs : list str) st (lines : list str) :
  split_run d {| sections := secs ++ sections st;
                 current_section := current_section st;
                 in_code_block := in_code_block st |} lines
  = {| sections := secs ++ sections (split_run d st lines);
       current_section := current_section (split_run d st lines);
       in_code_block := in_code_block (split_run d st lines) |}.
Proof.
  revert st. induction lines as [|l ls IH]; intros st; [done|].
  change (split_run d ?s (l :: ls)) with (split_run d (split_step d s l) ls).
  by rewrite split_step_prefix, IH.
Qed.

Lemma split_by_delimiter_app_delimiter (a b d : str) :
  nl ∉ d -> strip d = d -> startswith d fence = false ->
  fence_open_after (split_nl a) = false ->
  split_by_delimiter (a ++ nl :: d ++ nl :: b) d
  = split_by_delimiter a d ++ split_by_delimiter b d.
Proof.
  intros Hnl Hstrip Hfence Hclosed.
  unfold split_by_delimiter at 1. cbv zeta.
  rewrite split_nl_app_nl, split_nl_app_nl, (split_nl_no_nl d Hnl).
  rewrite !split_run_app.
  set (sta := split_run d split_init (split_nl a)).
  assert (in_code_block sta = false) as Hin.
  { unfold sta. by rewrite split_run_in_code_block, Hclosed. }
  assert (split_run d sta [d]
          = {| sections := split_by_delimiter a d; current_section := [];
               in_code_block := false |}) as ->.
  { simpl. unfold split_step. cbv zeta. rewrite Hstrip, Hfence, Hin.
    by rewrite bool_decide_eq_true_2. }
  pose proof (split_run_prefix d (split_by_delimiter a d) split_init
                (split_nl b)) as Hp.
  unfold split_init at 1 2 3 in Hp.
  cbn [sections current_section in_code_block] in Hp.
  rewrite app_nil_r in Hp. rewrite Hp.
  cbn [sections current_section].
  by rewrite flush_app, <- app_assoc, <- flush_app.
Qed.

(** X8: two texts joined by a delimiter line give the sections of the first
    followed by the sections of the second, provided the first text does
    not end inside an open fence. *)
Theorem split_by_delimiter_joined (a b d : str) :
  nl ∉ d -> strip d = d -> startswith d fence = false ->
  fence_open_after (split_nl a) = false ->
  split_by_delimiter (a ++ nl :: d ++ nl :: b) d
  = split_by_delimiter a d ++ split_by_delimiter b d.
Proof. apply split_by_delimiter_app_delimiter. Qed.

Lemma split_by_delimiter_joined_witness :
  (nl ∉ lit "---") /\ strip (lit "---") = lit "---" /\
  startswith (lit "---") fence = false /\
  fence_open_after (split_nl doc_fenced_delimiter) = false /\
  split_by_delimiter
    (doc_fenced_delimiter ++ nl :: lit "---" ++ nl :: doc_unterminated_fence)
    (lit "---")
  = split_by_delimiter doc_fenced_delimiter (lit "---")
    ++ split_by_delimiter doc_unterminated_fence (lit "---").
Proof.
  assert (nl ∉ lit "---") as H1 by apply rule_no_nl.
  assert (strip (lit "---") = lit "---") as H2 by reflexivity.
  assert (startswith (lit "---") fence = false) as H3 by reflexivity.
  assert (fence_open_after (split_nl doc_fenced_delimiter) = false) as H4
    by reflexivity.
  exact (conj H1 (conj H2 (conj H3 (conj H4
    (split_by_delimiter_joined _ doc_unterminated_fence _ H1 H2 H3 H4))))).
Defined.

Lemma startswith_app_nl (a r p : str) :
  nl ∉ p -> startswith a p = false -> startswith (a ++ nl :: r) p = false.
Proof.
  revert a. induction p as [|c p IH]; intros a Hnl H; [done|].
  apply not_elem_of_cons in Hnl as [Hc Hp].
  destruct a as [|x a]; simpl in *.
  - by rewrite bool_decide_eq_false_2.
  - destruct (bool_decide (x = c)); [|done]. simpl in *. by apply IH.
Qed.

(** X9: the cells of two documents joined by a [---] line are the cells of the
    first followed by the cells of the second, provided neither begins with
    [---] and the first does not end inside an open fence. *)
Theorem parse_markdown_joined (a b : str) (code_languages : option (gset str)) :
  startswith a (lit "---") = false -> startswith b (lit "---") = false ->
  fence_open_after (split_nl a) = false ->
  parse_markdown (a ++ nl :: lit "---" ++ nl :: b) code_languages
  = parse_markdown a code_languages ++ parse_markdown b code_languages.
Proof.
  intros Ha Hb Hclosed. unfold parse_markdown. cbv zeta.
  rewrite (remove_front_matter_not_started a Ha).
  rewrite (remove_front_matter_not_started b Hb).
  rewrite remove_front_matter_not_started
    by (apply startswith_app_nl; [apply rule_no_nl|done]).
  unfold delimiter_default.
  rewrite split_by_delimiter_app_delimiter; [|apply rule_no_nl|done..].
  rewrite !fold_extract_flat_map. simpl.
  by rewrite flat_map_app, List.filter_app.
Qed.

Lemma parse_markdown_joined_witness :
  startswith doc_fenced_delimiter (lit "---") = false /\
  startswith doc_mixed (lit "---") = false /\
  fence_open_after (split_nl doc_fenced_delimiter) = false /\
  parse_markdown (doc_fenced_delimiter ++ nl :: lit "---" ++ nl :: doc_mixed)
    None
  = parse_markdown doc_fenced_delimiter None ++ parse_markdown doc_mixed None.
Proof.
  assert (startswith doc_fenced_delimiter (lit "---") = false) as H1
    by reflexivity.
  assert (startswith doc_mixed (lit "---") = false) as H2 by reflexivity.
  assert (fence_open_after (split_nl doc_fenced_delimiter) = false) as H3
    by reflexivity.
  exact (conj H1 (conj H2 (conj H3
    (parse_markdown_joined _ _ None H1 H2 H3)))).
Defined.

(** ** Sections are pieces of the text *)

Lemma occurs_pre (ps : list str) (x t : str) :
  occurs_in_order ps t -> occurs_in_order ps (x ++ t).
Proof.
  destruct ps as [|p ps]; [done|]. intros (pre & post & -> & H).
  exists (x ++ pre), post. by rewrite <- app_assoc.
Qed.

Lemma occurs_post (ps : list str) (t y : str) :
  occurs_in_order ps t -> occurs_in_order ps (t ++ y).
Proof.
  revert t. induction ps as [|p ps IH]; intros t; [done|].
  intros (pre & post & -> & H). exists pre, (post ++ y).
  split; [by rewrite <- !app_assoc|by apply IH].
Qed.

Lemma occurs_app (ps1 ps2 : list str) (t1 t2 : str) :
  occurs_in_order ps1 t1 -> occurs_in_order ps2 t2 ->
  occurs_in_order (ps1 ++ ps2) (t1 ++ t2).
Proof.
  revert t1. induction ps1 as [|p ps1 IH]; intros t1 H1 H2.
  - by apply occurs_pre.
  - destruct H1 as (pre & post & -> & H1). exists pre, (post ++ t2).
    split; [by rewrite <- !app_assoc|by apply IH].
Qed.

Lemma occurs_skip (p : str) (ps : list str) (t : str) :
  occurs_in_order (p :: ps) t -> occurs_in_order ps t.
Proof.
  intros (pre & post & -> & H). rewrite app_assoc. by apply occurs_pre.
Qed.

Lemma occurs_filter {A} (f : A -> bool) (g : A -> str) (l : list A) (t : str) :
  occurs_in_order (map g l) t -> occurs_in_order (map g (List.filter f l)) t.
Proof.
  revert t. induction l as [|x l IH]; intros t H; [done|]. simpl.
  destruct (f x); [|by eapply IH, occurs_skip].
  destruct H as (pre & post & -> & H). exists pre, post. split; [done|].
  by apply IH.
Qed.

Lemma occurs_flat_map {A} (g : A -> list str) (h : A -> str) (l : list A)
  (t : str) :
  (forall x, occurs_in_order (g x) (h x)) ->
  occurs_in_order (map h l) t -> occurs_in_order (flat_map g l) t.
Proof.
  intros Hg. revert t. induction l as [|x l IH]; intros t H; [done|].
  destruct H as (pre & post & -> & H). simpl.
  apply occurs_pre, occurs_app; [apply Hg|by apply IH].
Qed.

Lemma occurs_strip (t : str) : occurs_in_order [strip t] t.
Proof.
  destruct (strip_decompose t) as (pre & post & Ht & _).
  by exists pre, post.
Qed.

Lemma occurs_trim_nl (ss : list str) (t : str) :
  Forall (fun s => s <> [] /\ strip s = s) ss ->
  occurs_in_order ss (t ++ [nl]) -> occurs_in_order ss t.
Proof.
  intros Hss. revert t.
  induction Hss as [|s ss [Hne Hs] Hss IH]; intros t; [done|].
  intros (pre & post & Heq & H).
  destruct (exists_last Hne) as (s' & y & ->).
  assert (isspace y = false) as Hy by (by eapply trimmed_last).
  destruct post as [|c post _] using rev_ind.
  - rewrite app_nil_r, app_assoc in Heq.
    apply app_inj_tail in Heq as [_ <-]. by vm_compute in Hy.
  - rewrite !app_assoc in Heq. apply app_inj_tail in Heq as [-> <-].
    exists pre, post. split; [by rewrite <- !app_assoc|]. by apply IH.
Qed.

Lemma unlines_app (a b : list str) : unlines (a ++ b) = unlines a ++ unlines b.
Proof. unfold unlines. by rewrite map_app, concat_app. Qed.

Lemma unlines_join (ls : list str) :
  ls <> [] -> unlines ls = join [nl] ls ++ [nl].
Proof.
  induction ls as [|l ls IH]; [done|]. intros _.
  destruct ls as [|l' ls]; [by unfold unlines; simpl; rewrite app_nil_r|].
  rewrite join_cons2. change (unlines (l :: l' :: ls))
    with ((l ++ [nl]) ++ unlines (l' :: ls)).
  rewrite IH by done. by rewrite <- !app_assoc.
Qed.

Lemma flush_occurs (cur : list str) :
  occurs_in_order (flush [] cur) (unlines cur).
Proof.
  unfold flush. cbv zeta. destruct (truthy _) eqn:Ht; [|done]. cbn [app].
  destruct cur as [|l ls]; [done|].
  rewrite unlines_join by done.
  apply (occurs_post [strip (join [nl] (l :: ls))]), occurs_strip.
Qed.

Lemma split_step_occurs d st line (done_lines : list str) :
  occurs_in_order (sections st) (unlines done_lines) ->
  exists done_lines',
    done_lines ++ current_section st ++ [line]
    = done_lines' ++ current_section (split_step d st line) /\
    occurs_in_order (sections (split_step d st line)) (unlines done_lines').
Proof.
  intros H. unfold split_step. cbv zeta.
  destruct (startswith (strip line) fence); [by exists done_lines|].
  destruct (negb (in_code_block st) && bool_decide (strip line = d));
    [|by exists done_lines].
  exists (done_lines ++ current_section st ++ [line]). simpl.
  split; [by rewrite app_nil_r|].
  rewrite flush_app, !unlines_app.
  apply occurs_app; [done|]. apply occurs_post, flush_occurs.
Qed.

Lemma split_run_occurs d st (lines done_lines : list str) :
  occurs_in_order (sections st) (unlines done_lines) ->
  exists done_lines',
    done_lines ++ current_section st ++ lines
    = done_lines' ++ current_section (split_run d st lines) /\
    occurs_in_order (sections (split_run d st lines)) (unlines done_lines').
Proof.
  revert st done_lines. induction lines as [|l ls IH]; intros st dl H.
  - exists dl. by rewrite app_nil_r.
  - destruct (split_step_occurs d st l dl H) as (dl1 & Heq1 & H1).
    destruct (IH _ _ H1) as (dl2 & Heq2 & H2).
    exists dl2. split; [|done].
    change (split_run d st (l :: ls))
      with (split_run d (split_step d st l) ls).
    rewrite <- Heq2, (app_assoc dl1), <- Heq1.
    by rewrite <- !app_assoc.
Qed.

Lemma split_by_delimiter_occurs (content d : str) :
  occurs_in_order (split_by_delimiter content d) content.
Proof.
  apply occurs_trim_nl; [apply split_by_delimiter_trimmed|].
  unfold split_by_delimiter. cbv zeta.
  destruct (split_run_occurs d split_init (split_nl content) [] I)
    as (dl & Heq & H). simpl in Heq.
  set (st := split_run d split_init (split_nl content)) in *.
  assert (content ++ [nl] = unlines dl ++ unlines (current_section st))
    as ->.
  { rewrite <- unlines_app, <- Heq, unlines_join by apply split_nl_nonempty.
    by rewrite join_split_nl. }
  rewrite flush_app. apply occurs_app; [done|apply flush_occurs].
Qed.

(** X10: whatever the delimiter, the sections are pieces of the text, in
    the order of the text and without overlap. *)
Theorem sections_in_order (content d : str) :
  occurs_in_order (split_by_delimiter content d) content.
Proof. apply split_by_delimiter_occurs. Qed.

(** ** The cells of a section *)

Lemma no_adjacent_markdown_code (c : Cell) (cells : list Cell) :
  cell_type c = code -> no_adjacent_markdown cells ->
  no_adjacent_markdown (c :: cells).
Proof.
  intros Hc H. split; [|done]. destruct cells; [done|].
  intros [? _]. congruence.
Qed.

Lemma emit_no_adjacent_markdown (section : str) (last_end : nat)
  (ms : list Match) :
  no_adjacent_markdown (emit section last_end ms).
Proof.
  revert last_end. induction ms as [|m ms IH]; intros last_end; cbn [emit].
  - unfold prose_cell. by destruct (truthy _).
  - pose proof (no_adjacent_markdown_code (code_cell m) _ eq_refl
                  (IH (m_end m))) as H.
    unfold prose_cell. destruct (truthy _); [|done].
    split; [|done]. intros [_ ?]. discriminate.
Qed.

(** X11: the cells of one section never hold two markdown cells in a row: prose
    between two extracted blocks, before the first or after the last is one
    cell. *)
Theorem section_cells_alternate (section : str) (code_languages : gset str) :
  no_adjacent_markdown (extract_cells_from_section section code_languages).
Proof. rewrite extract_emit. apply emit_no_adjacent_markdown. Qed.

Lemma emit_In (section : str) (last_end : nat) (ms : list Match) (c : Cell) :
  In c (emit section last_end ms) ->
  (exists t, In c (prose_cell t)) \/ exists m, In m ms /\ c = code_cell m.
Proof.
  revert last_end. induction ms as [|m ms IH]; intros last_end; cbn [emit].
  - intros H. left. eauto.
  - intros [H|[<-|H]]%in_app_or.
    + left. eauto.
    + right. exists m. split; [by left|done].
    + destruct (IH _ H) as [?|(m' & Hm' & ->)]; [by left|].
      right. exists m'. split; [by right|done].
Qed.

Lemma extract_well_formed (section : str) (langs : gset str) (c : Cell) :
  In c (extract_cells_from_section section langs) ->
  well_formed_cell langs c.
Proof.
  rewrite extract_emit. intros [[t H]|(m & Hm & ->)]%emit_In.
  - unfold prose_cell in H. destruct (truthy _) eqn:Ht; [|done].
    destruct H as [<-|[]]. unfold well_formed_cell. simpl.
    split; [done|]. split; [apply strip_idem|by apply truthy_nonempty].
  - apply filter_In in Hm as [Hm Hx].
    destruct (finditer_spec section) as [_ Hall].
    apply (proj1 (List.Forall_forall _ _) Hall) in Hm.
    destruct Hm as (_ & _ & _ & _ & Hw).
    unfold well_formed_cell. simpl. exists (group1 m).
    split; [done|]. split; [done|].
    split; [by apply bool_decide_eq_true_1 in Hx|]. apply rstrip_idem.
Qed.

Lemma parse_markdown_well_formed (content : str)
  (code_languages : option (gset str)) (c : Cell) :
  In c (parse_markdown content code_languages) ->
  well_formed_cell (default DEFAULT_CODE_LANGUAGES code_languages) c.
Proof.
  unfold parse_markdown. cbv zeta. rewrite fold_extract_flat_map. cbn [app].
  intros [H _]%filter_In. apply in_flat_map in H as (section & _ & H).
  by eapply extract_well_formed.
Qed.

(** X12: every cell of the output is well formed: a markdown cell has no
    language and a trimmed, non-empty content; a code cell has as its
    language the lower-casing of a tag made of word characters, that
    language is in the allow set, and its content has no white space at its
    end. *)
Theorem cells_well_formed (content : str) (code_languages : option (gset str))
  (c : Cell) :
  In c (parse_markdown content code_languages) ->
  well_formed_cell (default DEFAULT_CODE_LANGUAGES code_languages) c.
Proof. apply parse_markdown_well_formed. Qed.

Lemma cells_well_formed_witness :
  In {| cell_type := code; cell_content := lit "select 1";
        cell_language := Some (lit "sql") |}
     (parse_markdown doc_mixed None) /\
  well_formed_cell DEFAULT_CODE_LANGUAGES
    {| cell_type := code; cell_content := lit "select 1";
       cell_language := Some (lit "sql") |}.
Proof.
  assert (In {| cell_type := code; cell_content := lit "select 1";
                cell_language := Some (lit "sql") |}
             (parse_markdown doc_mixed None)) as H
    by (vm_compute; right; left; reflexivity).
  exact (conj H (cells_well_formed doc_mixed None _ H)).
Defined.

Lemma filter_none {A} (f : A -> bool) (l : list A) :
  (forall x, In x l -> f x = false) -> List.filter f l = [].
Proof.
  induction l as [|x l IH]; intros H; simpl; [done|].
  rewrite (H x) by (by left). apply IH. intros y Hy. apply H. by right.
Qed.

Lemma filter_agree {A} (f g : A -> bool) (l : list A) :
  (forall x, In x l -> f x = g x) -> List.filter f l = List.filter g l.
Proof.
  induction l as [|x l IH]; intros H; simpl; [done|].
  rewrite (H x) by (by left). rewrite IH; [done|].
  intros y Hy. apply H. by right.
Qed.

Lemma prose_cell_section (s : str) :
  s <> [] -> strip s = s -> prose_cell s = [markdown_cell s].
Proof.
  intros Hne Hs. unfold prose_cell. rewrite Hs.
  by destruct s.
Qed.

Lemma extract_none_extracted (section : str) (langs : gset str) :
  (forall m, In m (finditer section) -> extracted langs m = false) ->
  extract_cells_from_section section langs = prose_cell section.
Proof. intros H. by rewrite extract_emit, filter_none. Qed.

(** X13: a section none of whose fenced blocks has a tag of the allow set
    gives no code cell: it is one markdown cell, the trimmed section, or
    nothing if the section is blank. *)
Theorem no_allowed_tag_one_cell (section : str) (code_languages : gset str) :
  (forall m, In m (finditer section) -> lower (group1 m) ∉ code_languages) ->
  extract_cells_from_section section code_languages = prose_cell section.
Proof.
  intros H. apply extract_none_extracted.
  intros m Hm. by apply bool_decide_eq_false_2, H.
Qed.

Lemma no_allowed_tag_one_cell_witness :
  (forall m, In m (finditer section_bash_in_prose) ->
             lower (group1 m) ∉ ({[ lit "python" ]} : gset str)) /\
  extract_cells_from_section section_bash_in_prose {[ lit "python" ]}
  = [markdown_cell section_bash_in_prose].
Proof.
  assert (forall m, In m (finditer section_bash_in_prose) ->
             lower (group1 m) ∉ ({[ lit "python" ]} : gset str)) as H.
  { intros m Hm. vm_compute in Hm. destruct Hm as [<-|[]].
    apply (bool_decide_unpack _). vm_compute. exact I. }
  exact (conj H (no_allowed_tag_one_cell section_bash_in_prose _ H)).
Defined.

(** X14: with the empty allow set every section becomes exactly one markdown
    cell, the section itself, and there is no code cell. *)
Theorem empty_allow_set_sections_are_cells (content : str) :
  parse_markdown content (Some ∅)
  = map markdown_cell
      (split_by_delimiter (remove_front_matter content) (lit "---")).
Proof.
  unfold parse_markdown. cbv zeta. rewrite fold_extract_flat_map. cbn [app].
  unfold delimiter_default. cbn [default].
  pose proof (split_by_delimiter_trimmed (remove_front_matter content)
                (lit "---")) as Htrim.
  induction Htrim as [|s ss [Hne Hs] _ IH]; [done|].
  cbn [flat_map map]. rewrite List.filter_app, IH.
  rewrite extract_none_extracted
    by (intros m _; apply bool_decide_eq_false_2, not_elem_of_empty).
  rewrite prose_cell_section by done. cbn [List.filter app].
  unfold markdown_cell at 1. cbn [cell_content]. rewrite Hs.
  by destruct s.
Qed.

Lemma extract_allow_sets_agree (section : str) (langs1 langs2 : gset str) :
  (forall tag, forallb isword tag = true ->
               lower tag ∈ langs1 <-> lower tag ∈ langs2) ->
  extract_cells_from_section section langs1
  = extract_cells_from_section section langs2.
Proof.
  intros Hagree. rewrite !extract_emit. f_equal. apply filter_agree.
  intros m Hm. destruct (finditer_spec section) as [_ Hall].
  apply (proj1 (List.Forall_forall _ _) Hall) in Hm.
  destruct Hm as (_ & _ & _ & _ & Hw).
  unfold extracted. apply bool_decide_ext. by apply Hagree.
Qed.

Lemma parse_allow_sets_agree (content : str) (langs1 langs2 : gset str) :
  (forall tag, forallb isword tag = true ->
               lower tag ∈ langs1 <-> lower tag ∈ langs2) ->
  parse_markdown content (Some langs1) = parse_markdown content (Some langs2).
Proof.
  intros Hagree. unfold parse_markdown. cbv zeta. cbn [default].
  rewrite !fold_extract_flat_map. do 2 f_equal.
  apply flat_map_ext. intros section. by apply extract_allow_sets_agree.
Qed.

Lemma lower_tag_may_match (tag : str) :
  forallb isword tag = true -> may_match (lower tag).
Proof.
  intros Hw. split; [apply lower_idem|].
  induction tag as [|c tag IH]; [done|].
  cbn [forallb] in Hw. apply andb_prop in Hw as [Hc Hw].
  unfold lower. cbn [map forallb]. fold (lower tag).
  rewrite isspace_lower_char, (isword_not_space c Hc). by apply IH.
Qed.

Lemma filter_may_match_agree (langs : gset str) (tag : str) :
  forallb isword tag = true ->
  lower tag ∈ langs <-> lower tag ∈ (filter may_match langs : gset str).
Proof.
  intros Hw. rewrite elem_of_filter. split; [|by intros [_ ?]].
  intros Hin. split; [by apply lower_tag_may_match|done].
Qed.

(** X15: the allow set is used as it is given, never trimmed or lower-cased:
    an entry that is not its own lower-casing (such as [Python]), or that
    holds a white-space character (such as [ sql]), matches no block, and
    removing such entries changes neither the cells of a section nor the
    cells of a document. *)
Theorem unmatchable_entries_are_inert (code_languages : gset str) :
  (forall section : str,
     extract_cells_from_section section code_languages
     = extract_cells_from_section section (filter may_match code_languages))
  /\
  (forall content : str,
     parse_markdown content (Some code_languages)
     = parse_markdown content (Some (filter may_match code_languages))).
Proof.
  split.
  - intros section. apply extract_allow_sets_agree.
    intros tag. apply filter_may_match_agree.
  - intros content. apply parse_allow_sets_agree.
    intros tag. apply filter_may_match_agree.
Qed.

(** ** The blocks that the pattern finds *)

Lemma closing_here_fence_nl (r : str) :
  closing_here true (fence ++ nl :: r) = true.
Proof. reflexivity. Qed.

Lemma lazy_body_minimal bol s body :
  lazy_body bol s = Some body ->
  match split_nl body with
  | [] => True
  | l :: ls => (bol = true -> l <> fence) /\ Forall (fun l => l <> fence) ls
  end.
Proof.
  revert bol body. induction s as [|c s IH]; intros bol body Hlazy.
  - simpl in Hlazy. destruct (closing_here bol []); [|done].
    injection Hlazy as <-. simpl. by split.
  - pose proof (lazy_body_lines _ _ _ Hlazy) as [_ Hshape].
    simpl in Hlazy. destruct (closing_here bol (c :: s)) eqn:E.
    { injection Hlazy as <-. simpl. by split. }
    destruct (lazy_body _ s) as [b|] eqn:Eb; [|done].
    injection Hlazy as <-. specialize (IH _ _ Eb).
    destruct (decide (c = nl)) as [->|Hc].
    + rewrite split_nl_cons_nl. split; [done|].
      rewrite bool_decide_eq_true_2 in IH by done.
      destruct (split_nl b) as [|l ls]; [done|].
      destruct IH as [Hl Hls]. constructor; [by apply Hl|done].
    + destruct (split_nl b) as [|l ls] eqn:Hb;
        [by apply split_nl_nonempty in Hb|].
      rewrite (split_nl_cons_other c b l ls Hc Hb).
      destruct IH as [_ Hls]. split; [|done].
      intros -> Hfence.
      pose proof (join_split_nl b) as Hjoin. rewrite Hb in Hjoin.
      destruct ls as [|l2 ls].
      * simpl in Hjoin. subst b. rewrite Hfence in Hshape.
        destruct Hshape as [[? _]|[b' Hb']]; [done|].
        destruct b' as [|? [|? [|? [|? ?]]]]; simpl in Hb'; try discriminate.
      * rewrite join_cons2 in Hjoin.
        apply lazy_body_spec in Eb as (r & Hs).
        rewrite <- Hjoin in Hs.
        assert (c :: s = fence ++ nl :: join [nl] (l2 :: ls) ++ fence ++ r)
          as Hcs.
        { rewrite Hs. rewrite <- Hfence. simpl. by rewrite <- !app_assoc. }
        rewrite Hcs, closing_here_fence_nl in E. discriminate.
Qed.

Lemma match_at_minimal pos s m : match_at pos s = Some m -> body_minimal m.
Proof.
  unfold match_at. destruct (startswith s fence); [|done].
  destruct (dropWhile isword (drop 3 s)) as [|c rest]; [done|].
  case_bool_decide; [|done].
  destruct (lazy_body true rest) as [body|] eqn:Hb; [|done].
  intros [= <-]. unfold body_minimal. cbn [group2].
  apply lazy_body_minimal in Hb.
  destruct (split_nl body) as [|l ls]; [done|].
  destruct Hb as [Hl Hls]. constructor; [by apply Hl|done].
Qed.

Lemma scan_Forall (P : Match -> Prop) (fuel pos : nat) (bol : bool) (s : str) :
  (forall pos s m, match_at pos s = Some m -> P m) ->
  Forall P (scan fuel pos bol s).
Proof.
  intros HP. revert pos bol s.
  induction fuel as [|fuel IH]; intros pos bol s; simpl; [done|].
  destruct s as [|c s']; [done|].
  destruct (if bol then match_at pos (c :: s') else None) as [m|] eqn:E;
    [|apply IH].
  constructor; [|apply IH]. destruct bol; [by eapply HP|done].
Qed.

(** X16: the blocks that [finditer] returns.  They come in the order of the
    text and do not overlap.  Each begins at the start of a line with three
    backticks, a tag of word characters and a newline, ends with three
    backticks at the end of a line, and its body is the shortest one: no
    line of the body is a line of exactly three backticks. *)
Theorem finditer_blocks (section : str) :
  chain 0 (finditer section) /\
  Forall (fun m => match_in section m /\ match_eol section m /\ body_minimal m)
    (finditer section).
Proof.
  destruct (finditer_spec section) as [Hc Hin]. split; [done|].
  pose proof (finditer_lines section) as Heol.
  assert (Forall body_minimal (finditer section)) as Hmin.
  { rewrite finditer_scan. apply scan_Forall. apply match_at_minimal. }
  apply Forall_and. split; [done|]. by apply Forall_and.
Qed.

(** ** Well-formed blocks *)

Lemma join_snoc_unlines (ls : list str) (x : str) :
  join [nl] (ls ++ [x]) = unlines ls ++ x.
Proof.
  induction ls as [|l ls IH]; [done|].
  change ((l :: ls) ++ [x]) with (l :: (ls ++ [x])).
  destruct (ls ++ [x]) as [|y r] eqn:E; [by destruct ls|].
  rewrite join_cons2, IH. unfold unlines. simpl. by rewrite <- !app_assoc.
Qed.

Lemma fenced_block_text (tag : str) (body : list str) :
  fenced_block tag body = fence ++ tag ++ nl :: unlines body ++ fence.
Proof.
  unfold fenced_block.
  destruct (body ++ [fence]) as [|y r] eqn:E; [by destruct body|].
  rewrite join_cons2, <- E, join_snoc_unlines. by rewrite <- !app_assoc.
Qed.

Lemma startswith_line (l r p : str) :
  nl ∉ p -> startswith (l ++ nl :: r) p = true -> startswith l p = true.
Proof.
  intros Hp H. destruct (startswith l p) eqn:E; [done|].
  by rewrite (startswith_app_nl l r p Hp E) in H.
Qed.

Lemma fence_no_nl : nl ∉ fence.
Proof. apply (bool_decide_unpack _). vm_compute. exact I. Qed.

Lemma closing_here_line bol (l r : str) :
  nl ∉ l -> (bol = true -> l <> fence) ->
  closing_here bol (l ++ nl :: r) = false.
Proof.
  intros Hnl Hl. unfold closing_here. destruct bol; [|done].
  destruct (startswith (l ++ nl :: r) fence) eqn:Hs; [|done].
  apply startswith_line in Hs; [|apply fence_no_nl].
  apply startswith_spec in Hs as [l' ->].
  destruct l' as [|c l']; [by exfalso; apply Hl|].
  simpl. apply bool_decide_eq_false_2. intros ->. apply Hnl.
  apply elem_of_app. right. by left.
Qed.

Lemma lazy_body_line bol (l rest b : str) :
  nl ∉ l -> (bol = true -> l <> fence) ->
  lazy_body true rest = Some b ->
  lazy_body bol (l ++ nl :: rest) = Some (l ++ nl :: b).
Proof.
  intros Hnl Hl Hrest. revert bol Hl.
  induction l as [|c l IH]; intros bol Hl.
  - pose proof (closing_here_line bol [] rest Hnl Hl) as Hc.
    cbn [app] in *. cbn [lazy_body]. rewrite Hc.
    rewrite bool_decide_eq_true_2 by done. by rewrite Hrest.
  - pose proof (closing_here_line bol (c :: l) rest Hnl Hl) as Hc.
    apply not_elem_of_cons in Hnl as [Hcn Hnl].
    change ((c :: l) ++ nl :: rest) with (c :: (l ++ nl :: rest)) in *.
    cbn [lazy_body]. rewrite Hc.
    rewrite (bool_decide_eq_false_2 (c = nl)) by done.
    by rewrite (IH Hnl false).
Qed.

Lemma lazy_body_block (body : list str) (r : str) :
  Forall (fun l => (nl ∉ l) /\ l <> fence) body -> at_line_end r ->
  lazy_body true (unlines body ++ fence ++ r) = Some (unlines body).
Proof.
  intros Hbody Hr. induction Hbody as [|l ls [Hnl Hl] _ IH].
  - destruct Hr as [->|[r' ->]]; reflexivity.
  - change (unlines (l :: ls)) with ((l ++ [nl]) ++ unlines ls).
    rewrite <- !app_assoc. cbn [app].
    by rewrite (lazy_body_line true l _ _ Hnl (fun _ => Hl) IH).
Qed.

Lemma takeWhile_all_app p (a : str) (c : ascii) (b : str) :
  forallb p a = true -> p c = false -> takeWhile p (a ++ c :: b) = a.
Proof.
  induction a as [|x a IH]; simpl; intros Ha Hc; [by rewrite Hc|].
  apply andb_prop in Ha as [-> Ha]. by rewrite IH.
Qed.

Lemma match_at_block (pos : nat) (tag : str) (body : list str) (r : str) :
  forallb isword tag = true ->
  Forall (fun l => (nl ∉ l) /\ l <> fence) body -> at_line_end r ->
  match_at pos (fenced_block tag body ++ r)
  = Some {| m_start := pos;
            m_end := pos + length (fenced_block tag body);
            group1 := tag; group2 := unlines body |}.
Proof.
  intros Htag Hbody Hr. rewrite fenced_block_text. unfold match_at.
  rewrite <- !app_assoc.
  change (startswith (fence ++ ?x) fence) with true. cbv iota.
  change (drop 3 (fence ++ ?x)) with x. cbv zeta. cbn [app].
  rewrite <- !app_assoc.
  rewrite takeWhile_all_app, dropWhile_all_app by done.
  cbn [dropWhile]. change (isword nl) with false. cbv iota.
  rewrite bool_decide_eq_true_2 by done.
  rewrite lazy_body_block by done. f_equal. f_equal.
  rewrite length_app, length_app. cbn [length]. rewrite length_app.
  change (length fence) with 3. lia.
Qed.

Lemma match_at_shift (k pos : nat) (s : str) :
  match_at (k + pos) s = option_map (shift_match k) (match_at pos s).
Proof.
  unfold match_at. destruct (startswith s fence); [|done]. cbv zeta.
  destruct (dropWhile isword (drop 3 s)) as [|c rest]; [done|].
  destruct (bool_decide (c = nl)); [|done].
  destruct (lazy_body true rest); [|done]. simpl. unfold shift_match. simpl.
  do 2 f_equal. lia.
Qed.

Lemma scan_shift (k fuel pos : nat) (bol : bool) (s : str) :
  scan fuel (k + pos) bol s = map (shift_match k) (scan fuel pos bol s).
Proof.
  revert pos bol s. induction fuel as [|fuel IH]; intros pos bol s; [done|].
  cbn [scan]. destruct s as [|c s']; [done|].
  destruct bol.
  - rewrite match_at_shift. destruct (match_at pos (c :: s')) as [m|].
    + cbn [option_map map]. f_equal. cbn [shift_match m_end].
      replace (k + m_end m - (k + pos)) with (m_end m - pos) by lia.
      apply IH.
    + cbn [option_map]. rewrite <- IH. f_equal. lia.
  - rewrite <- IH. f_equal. lia.
Qed.

Lemma scan_at_match (fuel pos : nat) (s : str) (m : Match) :
  match_at pos s = Some m ->
  scan (S fuel) pos true s
  = m :: scan fuel (m_end m) false (drop (m_end m - pos) s).
Proof.
  intros H. destruct s as [|c s']; [done|]. cbn [scan]. by rewrite H.
Qed.

Lemma scan_at_nl (fuel pos : nat) (rest : str) :
  scan (S fuel) pos false (nl :: rest) = scan fuel (S pos) true rest.
Proof. reflexivity. Qed.

Lemma scan_nil (fuel pos : nat) (bol : bool) : scan fuel pos bol [] = [].
Proof. by destruct fuel. Qed.

Lemma finditer_block (tag : str) (body : list str) :
  forallb isword tag = true ->
  Forall (fun l => (nl ∉ l) /\ l <> fence) body ->
  finditer (fenced_block tag body)
  = [{| m_start := 0; m_end := length (fenced_block tag body);
        group1 := tag; group2 := unlines body |}].
Proof.
  intros Htag Hbody. rewrite finditer_scan.
  rewrite (scan_fuel _ (S (length (fenced_block tag body)))) by lia.
  pose proof (match_at_block 0 tag body [] Htag Hbody (or_introl eq_refl))
    as Hm.
  rewrite app_nil_r in Hm. cbn [Nat.add] in Hm.
  rewrite (scan_at_match _ _ _ _ Hm).
  cbn [m_end]. rewrite Nat.sub_0_r, drop_all. by rewrite scan_nil.
Qed.

Lemma finditer_block_then (tag : str) (body : list str) (rest : str) :
  forallb isword tag = true ->
  Forall (fun l => (nl ∉ l) /\ l <> fence) body ->
  finditer (fenced_block tag body ++ nl :: rest)
  = {| m_start := 0; m_end := length (fenced_block tag body);
       group1 := tag; group2 := unlines body |}
    :: map (shift_match (S (length (fenced_block tag body))))
         (finditer rest).
Proof.
  intros Htag Hbody. rewrite !finditer_scan.
  set (B := fenced_block tag body).
  rewrite (scan_fuel _ (S (S (length (B ++ nl :: rest))))) by lia.
  pose proof (match_at_block 0 tag body (nl :: rest) Htag Hbody
                (or_intror (ex_intro _ rest eq_refl))) as Hm.
  fold B in Hm. cbn [Nat.add] in Hm. rewrite (scan_at_match _ _ _ _ Hm).
  cbn [m_end]. rewrite Nat.sub_0_r, drop_app_length, scan_at_nl.
  f_equal.
  transitivity (scan (length (B ++ nl :: rest)) (S (length B) + 0) true rest);
    [f_equal; lia|].
  rewrite scan_shift. f_equal.
  apply scan_fuel; [|done]. rewrite length_app. simpl. lia.
Qed.

Lemma slice_shift (pre rest : str) (a b : nat) :
  slice (pre ++ rest) (length pre + a) (length pre + b) = slice rest a b.
Proof.
  unfold slice. rewrite drop_app_ge by lia. f_equal; [lia|].
  f_equal. lia.
Qed.

Lemma emit_shift (pre rest : str) (last_end : nat) (ms : list Match) :
  emit (pre ++ rest) (length pre + last_end)
    (map (shift_match (length pre)) ms)
  = emit rest last_end ms.
Proof.
  revert last_end. induction ms as [|m ms IH]; intros last_end.
  - cbn [map emit]. f_equal. rewrite drop_app_ge by lia. f_equal. lia.
  - cbn [map emit]. cbn [shift_match m_start m_end].
    rewrite slice_shift, IH. reflexivity.
Qed.

Lemma prose_cell_cons_space c t :
  isspace c = true -> prose_cell (c :: t) = prose_cell t.
Proof. intros H. unfold prose_cell. by rewrite strip_cons_space. Qed.

Lemma prose_cell_snoc_space c t :
  isspace c = true -> prose_cell (t ++ [c]) = prose_cell t.
Proof. intros H. unfold prose_cell. by rewrite strip_snoc_space. Qed.

Lemma emit_after_nl (pre rest : str) (ms : list Match) :
  emit (pre ++ nl :: rest) (length pre)
    (map (shift_match (S (length pre))) ms)
  = emit rest 0 ms.
Proof.
  assert (pre ++ nl :: rest = (pre ++ [nl]) ++ rest) as Hs
    by (by rewrite <- app_assoc).
  assert (S (length pre) = length (pre ++ [nl])) as Hk
    by (rewrite length_app; simpl; lia).
  destruct ms as [|m ms].
  - cbn [map emit]. rewrite drop_app_length, drop_0.
    by apply prose_cell_cons_space.
  - cbn [map emit]. cbn [shift_match m_start m_end]. f_equal.
    + unfold slice. rewrite drop_app_length.
      replace (S (length pre) + m_start m - length pre) with (S (m_start m))
        by lia.
      cbn [take]. rewrite Nat.sub_0_r, drop_0.
      by apply prose_cell_cons_space.
    + f_equal. rewrite Hs, Hk. apply emit_shift.
Qed.

Lemma filter_extracted_shift langs k (ms : list Match) :
  List.filter (extracted langs) (map (shift_match k) ms)
  = map (shift_match k) (List.filter (extracted langs) ms).
Proof.
  induction ms as [|m ms IH]; [done|]. simpl.
  change (extracted langs (shift_match k m)) with (extracted langs m).
  destruct (extracted langs m); simpl; by rewrite IH.
Qed.

Lemma rstrip_unlines (body : list str) :
  rstrip (unlines body) = rstrip (join [nl] body).
Proof.
  destruct body as [|l ls]; [done|].
  rewrite unlines_join by done. by apply rstrip_snoc_space.
Qed.

(** X17: a well-formed block with an allowed tag that begins a section is
    extracted as one code cell, the body without its trailing white space,
    and the text after the block gives the cells it would give as a section
    of its own.  In particular blocks that follow one another give code
    cells with no markdown cell between them. *)
Theorem leading_block_extracted (tag : str) (body : list str) (rest : str)
  (code_languages : gset str) :
  forallb isword tag = true ->
  Forall (fun l => (nl ∉ l) /\ l <> fence) body ->
  lower tag ∈ code_languages ->
  extract_cells_from_section (fenced_block tag body) code_languages
  = [block_cell tag body] /\
  extract_cells_from_section (fenced_block tag body ++ nl :: rest)
    code_languages
  = block_cell tag body :: extract_cells_from_section rest code_languages.
Proof.
  intros Htag Hbody Hlang.
  assert (forall e, extracted code_languages
            {| m_start := 0; m_end := e; group1 := tag;
               group2 := unlines body |} = true) as Hx.
  { intros e. by apply bool_decide_eq_true_2. }
  assert (forall e, code_cell {| m_start := 0; m_end := e; group1 := tag;
                                 group2 := unlines body |}
                    = block_cell tag body) as Hcell.
  { intros e. unfold code_cell, block_cell. cbn [group1 group2].
    by rewrite rstrip_unlines. }
  split.
  - rewrite extract_emit, finditer_block by done.
    cbn [List.filter]. rewrite Hx. cbn [emit m_start m_end].
    rewrite Hcell, drop_all. reflexivity.
  - rewrite !extract_emit, finditer_block_then by done.
    cbn [List.filter]. rewrite Hx, filter_extracted_shift.
    cbn [emit m_start m_end]. rewrite Hcell, emit_after_nl. reflexivity.
Qed.

Lemma leading_block_extracted_witness :
  forallb isword (lit "python") = true /\
  Forall (fun l => (nl ∉ l) /\ l <> fence) [lit "x = 1"] /\
  (lower (lit "python") ∈ DEFAULT_CODE_LANGUAGES) /\
  extract_cells_from_section
    (fenced_block (lit "python") [lit "x = 1"] ++ nl
     :: fenced_block (lit "sql") [lit "select 1"]) DEFAULT_CODE_LANGUAGES
  = [block_cell (lit "python") [lit "x = 1"];
     block_cell (lit "sql") [lit "select 1"]].
Proof.
  assert (forallb isword (lit "python") = true) as H1 by reflexivity.
  assert (Forall (fun l => (nl ∉ l) /\ l <> fence) [lit "x = 1"]) as H2.
  { constructor; [|done]. split; [|discriminate].
    apply (bool_decide_unpack _). vm_compute. exact I. }
  assert (lower (lit "python") ∈ DEFAULT_CODE_LANGUAGES) as H3.
  { apply (bool_decide_unpack _). vm_compute. exact I. }
  split; [exact H1|]. split; [exact H2|]. split; [exact H3|].
  destruct (leading_block_extracted (lit "python") [lit "x = 1"]
              (fenced_block (lit "sql") [lit "select 1"])
              DEFAULT_CODE_LANGUAGES H1 H2 H3) as [_ ->].
  vm_compute. reflexivity.
Defined.

Lemma first_line_split (text : str) (l : str) (ls : list str) :
  split_nl text = l :: ls -> exists r, text ++ [nl] = l ++ nl :: r.
Proof.
  intros H. pose proof (join_split_nl text) as Hj. rewrite H in Hj.
  destruct ls as [|l2 ls].
  - simpl in Hj. subst. by exists [].
  - rewrite join_cons2 in Hj. subst. eexists.
    rewrite <- !app_assoc. reflexivity.
Qed.

Lemma match_at_fence_free (pos : nat) (text rest : str) (l : str)
  (ls : list str) :
  split_nl text = l :: ls -> startswith l fence = false ->
  match_at pos (text ++ nl :: rest) = None.
Proof.
  intros Hl Hf. destruct (first_line_split text l ls Hl) as (r & Hr).
  assert (text ++ nl :: rest = l ++ nl :: r ++ rest) as ->.
  { change (nl :: rest) with ([nl] ++ rest). rewrite app_assoc, Hr.
    by rewrite <- app_assoc. }
  unfold match_at. by rewrite startswith_app_nl by (apply fence_no_nl || done).
Qed.

Lemma scan_skip_prose (text rest : str) (fuel pos : nat) (bol : bool) :
  (if bol then fence_free text
   else Forall (fun l => startswith l fence = false) (tail (split_nl text))) ->
  scan (length text + S fuel) pos bol (text ++ nl :: rest)
  = scan fuel (pos + S (length text)) true rest.
Proof.
  revert pos bol. induction text as [|c text IH]; intros pos bol Hfree.
  - cbn [length Nat.add app scan].
    assert ((if bol then match_at pos (nl :: rest) else None) = None) as ->
      by (by destruct bol).
    rewrite bool_decide_eq_true_2 by done. f_equal. lia.
  - cbn [length Nat.add app scan].
    assert ((if bol then match_at pos (c :: text ++ nl :: rest) else None)
            = None) as ->.
    { destruct bol; [|done].
      destruct (split_nl (c :: text)) as [|l ls] eqn:Hl;
        [by apply split_nl_nonempty in Hl|].
      apply (match_at_fence_free pos (c :: text) rest l ls Hl).
      unfold fence_free in Hfree. rewrite Hl in Hfree.
      by apply Forall_inv in Hfree. }
    rewrite IH; [f_equal; lia|].
    destruct (decide (c = nl)) as [->|Hc].
    + rewrite bool_decide_eq_true_2 by done.
      rewrite split_nl_cons_nl in Hfree. unfold fence_free.
      destruct bol; [by apply Forall_inv_tail in Hfree|done].
    + rewrite bool_decide_eq_false_2 by done.
      destruct (split_nl text) as [|l ls] eqn:Hl;
        [by apply split_nl_nonempty in Hl|].
      unfold fence_free in Hfree.
      rewrite (split_nl_cons_other c text l ls Hc Hl) in Hfree.
      destruct bol; [by apply Forall_inv_tail in Hfree|done].
Qed.

Lemma finditer_after_prose (text rest : str) :
  fence_free text ->
  finditer (text ++ nl :: rest)
  = map (shift_match (S (length text))) (finditer rest).
Proof.
  intros Hfree. rewrite !finditer_scan.
  rewrite length_app. cbn [length].
  rewrite (scan_skip_prose text rest (length rest) 0 true Hfree).
  cbn [Nat.add].
  transitivity (scan (length rest) (S (length text) + 0) true rest);
    [f_equal; lia|].
  apply scan_shift.
Qed.

(** X18: prose with no line that begins with three backticks, followed by a
    well-formed block with an allowed tag, gives one markdown cell (none
    if the prose is blank) followed by the cells of the text that begins
    with the block. *)
Theorem prose_before_block (text tag : str) (body : list str) (r : str)
  (code_languages : gset str) :
  fence_free text ->
  forallb isword tag = true ->
  Forall (fun l => (nl ∉ l) /\ l <> fence) body ->
  lower tag ∈ code_languages ->
  at_line_end r ->
  extract_cells_from_section (text ++ nl :: fenced_block tag body ++ r)
    code_languages
  = prose_cell text
    ++ extract_cells_from_section (fenced_block tag body ++ r) code_languages.
Proof.
  intros Hfree Htag Hbody Hlang Hr.
  set (B := fenced_block tag body).
  assert (exists ms,
            finditer (B ++ r)
            = {| m_start := 0; m_end := length B; group1 := tag;
                 group2 := unlines body |} :: ms) as [ms Hms].
  { destruct Hr as [->|[r' ->]].
    - rewrite app_nil_r. unfold B. rewrite finditer_block by done. eauto.
    - unfold B. rewrite finditer_block_then by done. eauto. }
  rewrite !extract_emit, finditer_after_prose, filter_extracted_shift by done.
  rewrite Hms. cbn [List.filter].
  assert (extracted code_languages
            {| m_start := 0; m_end := length B; group1 := tag;
               group2 := unlines body |} = true) as ->
    by (by apply bool_decide_eq_true_2).
  cbn [map emit]. cbn [shift_match m_start m_end group1 group2].
  rewrite Nat.add_0_r.
  assert (slice (text ++ nl :: B ++ r) 0 (S (length text)) = text ++ [nl])
    as ->.
  { unfold slice. rewrite drop_0, Nat.sub_0_r.
    change (nl :: B ++ r) with ([nl] ++ (B ++ r)). rewrite app_assoc.
    rewrite take_app_length'; [done|]. rewrite length_app. simpl. lia. }
  rewrite prose_cell_snoc_space by done.
  assert (slice (B ++ r) 0 0 = []) as -> by done.
  f_equal. change (prose_cell []) with (@nil Cell). cbn [app].
  f_equal.
  assert (text ++ nl :: B ++ r = (text ++ [nl]) ++ (B ++ r)) as ->
    by (by rewrite <- app_assoc).
  assert (S (length text) = length (text ++ [nl])) as ->
    by (rewrite length_app; simpl; lia).
  apply emit_shift.
Qed.

Lemma prose_before_block_witness :
  fence_free (lit "Intro") /\
  forallb isword (lit "Python") = true /\
  Forall (fun l => (nl ∉ l) /\ l <> fence) [lit "x = 1"] /\
  (lower (lit "Python") ∈ DEFAULT_CODE_LANGUAGES) /\
  at_line_end [] /\
  extract_cells_from_section
    (lit "Intro" ++ nl :: fenced_block (lit "Python") [lit "x = 1"] ++ [])
    DEFAULT_CODE_LANGUAGES
  = [markdown_cell (lit "Intro"); block_cell (lit "Python") [lit "x = 1"]].
Proof.
  assert (fence_free (lit "Intro")) as H0 by (by repeat constructor).
  assert (forallb isword (lit "Python") = true) as H1 by reflexivity.
  assert (Forall (fun l => (nl ∉ l) /\ l <> fence) [lit "x = 1"]) as H2.
  { constructor; [|done]. split; [|discriminate].
    apply (bool_decide_unpack _). vm_compute. exact I. }
  assert (lower (lit "Python") ∈ DEFAULT_CODE_LANGUAGES) as H3.
  { apply (bool_decide_unpack _). vm_compute. exact I. }
  assert (at_line_end []) as H4 by (by left).
  split; [exact H0|]. split; [exact H1|]. split; [exact H2|].
  split; [exact H3|]. split; [exact H4|].
  rewrite (prose_before_block (lit "Intro") (lit "Python") [lit "x = 1"] []
             DEFAULT_CODE_LANGUAGES H0 H1 H2 H3 H4).
  vm_compute. reflexivity.
Defined.

Lemma startswith_first_line (text l : str) (ls : list str) :
  split_nl text = l :: ls -> startswith l fence = false ->
  startswith text fence = false.
Proof.
  intros Hl Hf. pose proof (join_split_nl text) as Hj. rewrite Hl in Hj.
  destruct ls as [|l2 ls]; [by simpl in Hj; subst|].
  rewrite join_cons2 in Hj. rewrite <- Hj.
  by apply startswith_app_nl; [apply fence_no_nl|].
Qed.

Lemma scan_fence_free (text : str) (fuel pos : nat) (bol : bool) :
  (if bol then fence_free text
   else Forall (fun l => startswith l fence = false) (tail (split_nl text))) ->
  scan fuel pos bol text = [].
Proof.
  revert fuel pos bol. induction text as [|c text IH]; intros fuel pos bol H.
  { apply scan_nil. }
  destruct fuel as [|fuel]; [done|]. cbn [scan].
  assert ((if bol then match_at pos (c :: text) else None) = None) as ->.
  { destruct bol; [|done].
    destruct (split_nl (c :: text)) as [|l ls] eqn:Hl;
      [by apply split_nl_nonempty in Hl|].
    unfold fence_free in H. rewrite Hl in H. apply Forall_inv in H.
    unfold match_at. by rewrite (startswith_first_line _ l ls Hl H). }
  apply IH. destruct (decide (c = nl)) as [->|Hc].
  - rewrite bool_decide_eq_true_2 by done.
    rewrite split_nl_cons_nl in H. unfold fence_free.
    destruct bol; [by apply Forall_inv_tail in H|done].
  - rewrite bool_decide_eq_false_2 by done.
    destruct (split_nl text) as [|l ls] eqn:Hl;
      [by apply split_nl_nonempty in Hl|].
    unfold fence_free in H.
    rewrite (split_nl_cons_other c text l ls Hc Hl) in H.
    destruct bol; [by apply Forall_inv_tail in H|done].
Qed.

(** X19: a section with no line that begins with three backticks holds no block:
    whatever the allow set, it is one markdown cell, the trimmed section, or
    nothing if the section is blank.  An indented fence is such a line. *)
Theorem plain_prose_one_cell (section : str) (code_languages : gset str) :
  fence_free section ->
  finditer section = [] /\
  extract_cells_from_section section code_languages = prose_cell section.
Proof.
  intros H.
  assert (finditer section = []) as Hf
    by (rewrite finditer_scan; by apply scan_fence_free).
  split; [done|]. by rewrite extract_emit, Hf.
Qed.

Lemma plain_prose_one_cell_witness :
  fence_free (join [nl] [lit "Intro"; lit "  ```python"; lit "x"; lit "  ```"])
  /\
  extract_cells_from_section
    (join [nl] [lit "Intro"; lit "  ```python"; lit "x"; lit "  ```"])
    DEFAULT_CODE_LANGUAGES
  = [markdown_cell
       (join [nl] [lit "Intro"; lit "  ```python"; lit "x"; lit "  ```"])].
Proof.
  assert (fence_free
            (join [nl] [lit "Intro"; lit "  ```python"; lit "x"; lit "  ```"]))
    as H by (by repeat constructor).
  split; [exact H|].
  rewrite (proj2 (plain_prose_one_cell _ DEFAULT_CODE_LANGUAGES H)).
  vm_compute. reflexivity.
Defined.

(** ** Fences that are never closed *)

Lemma split_nl_fence_line (r : str) :
  at_line_end r -> exists ls, split_nl (fence ++ r) = fence :: ls.
Proof.
  intros [->|[r' ->]].
  - exists []. reflexivity.
  - exists (split_nl r'). rewrite split_nl_app_nl. reflexivity.
Qed.

Lemma closing_line_in_tail (pre r : str) :
  at_line_end r -> In fence (tail (split_nl ((pre ++ [nl]) ++ fence ++ r))).
Proof.
  intros Hr. rewrite <- app_assoc. cbn [app]. rewrite split_nl_app_nl.
  destruct (split_nl_fence_line r Hr) as [ls ->].
  destruct (split_nl pre) as [|l ls'] eqn:E;
    [by apply split_nl_nonempty in E|].
  cbn [app tail]. apply in_or_app. right. by left.
Qed.

Lemma match_has_closing_line (section : str) (m : Match) :
  match_in section m -> match_eol section m ->
  In fence (tail (split_nl section)).
Proof.
  intros Hm [Hr Hbody].
  pose proof (drop_from_match section m Hm) as Hd.
  assert (section
          = (take (m_start m) section ++ fence ++ group1 m ++ nl :: group2 m)
            ++ fence ++ drop (m_end m) section) as Hs.
  { rewrite <- (take_drop (m_start m) section) at 1. rewrite Hd.
    unfold block_text. rewrite <- !app_assoc. cbn [app].
    by rewrite <- !app_assoc. }
  assert (exists pre,
            take (m_start m) section ++ fence ++ group1 m ++ nl :: group2 m
            = pre ++ [nl]) as [pre Hpre].
  { destruct Hbody as [->|[b ->]].
    - exists (take (m_start m) section ++ fence ++ group1 m).
      by rewrite <- !app_assoc.
    - exists (take (m_start m) section ++ fence ++ group1 m ++ nl :: b).
      by rewrite <- !app_assoc. }
  rewrite Hs, Hpre. by apply closing_line_in_tail.
Qed.

(** X20: a block needs a closing line of exactly three backticks after its
    opening line.  In a section with no such line nothing is extracted,
    whatever the allow set: a fence that is never closed, or is closed only
    by an indented or decorated fence line, stays in the markdown cell. *)
Theorem unclosed_fence_stays_markdown (section : str)
  (code_languages : gset str) :
  Forall (fun l => l <> fence) (tail (split_nl section)) ->
  finditer section = [] /\
  extract_cells_from_section section code_languages = prose_cell section.
Proof.
  intros H.
  assert (finditer section = []) as Hf.
  { destruct (finditer section) as [|m ms] eqn:E; [done|]. exfalso.
    destruct (finditer_spec section) as [_ Hin].
    pose proof (finditer_lines section) as Heol.
    rewrite E in Hin, Heol.
    apply Forall_inv in Hin. apply Forall_inv in Heol.
    pose proof (match_has_closing_line section m Hin Heol) as Hc.
    apply (proj1 (List.Forall_forall _ _) H) in Hc. by apply Hc. }
  split; [done|]. by rewrite extract_emit, Hf.
Qed.

Lemma unclosed_fence_stays_markdown_witness :
  Forall (fun l => l <> fence)
    (tail (split_nl (join [nl] [lit "```python"; lit "x = 1"; lit "  ```"])))
  /\
  extract_cells_from_section
    (join [nl] [lit "```python"; lit "x = 1"; lit "  ```"])
    DEFAULT_CODE_LANGUAGES
  = [markdown_cell (join [nl] [lit "```python"; lit "x = 1"; lit "  ```"])].
Proof.
  assert (Forall (fun l => l <> fence)
            (tail (split_nl
                     (join [nl] [lit "```python"; lit "x = 1"; lit "  ```"]))))
    as H by (repeat constructor; discriminate).
  split; [exact H|].
  rewrite (proj2 (unclosed_fence_stays_markdown _ DEFAULT_CODE_LANGUAGES H)).
  vm_compute. reflexivity.
Defined.

(** ** Text is never invented or reordered *)

Lemma prose_cell_occurs (t : str) :
  occurs_in_order (map cell_content (prose_cell t)) t.
Proof.
  unfold prose_cell. destruct (truthy _); [apply occurs_strip|done].
Qed.

Lemma code_cell_occurs (m : Match) (rest : list str) (t : str) :
  occurs_in_order rest t ->
  occurs_in_order (cell_content (code_cell m) :: rest) (block_text m ++ t).
Proof.
  intros H. destruct (rstrip_decompose (group2 m)) as (post & Hg & _).
  exists (fence ++ group1 m ++ [nl]), (post ++ fence ++ t). split.
  - unfold block_text. rewrite Hg at 1. simpl. rewrite <- !app_assoc. simpl.
    by rewrite <- !app_assoc.
  - by do 2 apply occurs_pre.
Qed.

Lemma emit_occurs (section : str) (ms : list Match) (last_end : nat) :
  chain last_end ms -> Forall (match_in section) ms ->
  occurs_in_order (map cell_content (emit section last_end ms))
    (drop last_end section).
Proof.
  revert last_end. induction ms as [|m ms IH]; intros last_end Hc Hm.
  - apply prose_cell_occurs.
  - destruct Hc as (Hle & _ & Hc). apply Forall_cons in Hm as [Hm Hms].
    cbn [emit]. rewrite map_app.
    rewrite (drop_from_last_end section last_end (m_start m) Hle).
    apply occurs_app; [apply prose_cell_occurs|].
    rewrite (drop_from_match section m Hm). cbn [map].
    apply code_cell_occurs. by apply IH.
Qed.

Lemma Forall_filter_keeps {A} (P : A -> Prop) (f : A -> bool) (l : list A) :
  Forall P l -> Forall P (List.filter f l).
Proof.
  induction 1 as [|x l Hx _ IH]; simpl; [done|].
  destruct (f x); [by constructor|done].
Qed.

Lemma map_flat_map {A B C} (g : B -> C) (f : A -> list B) (l : list A) :
  map g (flat_map f l) = flat_map (fun x => map g (f x)) l.
Proof. induction l as [|x l IH]; simpl; [done|]. by rewrite map_app, IH. Qed.

(** The cells of a section are pieces of the section, in the order of the
    section and without overlap. *)
Lemma extract_occurs (section : str) (langs : gset str) :
  occurs_in_order
    (map cell_content (extract_cells_from_section section langs)) section.
Proof.
  rewrite extract_emit. destruct (finditer_spec section) as [Hc Hm].
  apply (emit_occurs section _ 0).
  - by apply chain_filter.
  - by apply Forall_filter_keeps.
Qed.

(** X21: the contents of the cells of a document are pieces of the document, in
    the order of the document and without overlap: no text is invented,
    repeated or moved. *)
Theorem cells_in_document_order (content : str)
  (code_languages : option (gset str)) :
  occurs_in_order (map cell_content (parse_markdown content code_languages))
    content.
Proof.
  unfold parse_markdown. cbv zeta.
  apply occurs_filter. rewrite fold_extract_flat_map. cbn [app].
  destruct (remove_front_matter_removes_prefix content)
    as (removed & Hc & _).
  rewrite Hc at 2. apply occurs_pre.
  rewrite map_flat_map. apply (occurs_flat_map _ id).
  - intros s. apply extract_occurs.
  - rewrite map_id. apply split_by_delimiter_occurs.
Qed.

(** ** Nothing but markup is lost *)

Lemma markup_app (a b : str) : markup a -> markup b -> markup (a ++ b).
Proof.
  intros Ha Hb. induction Ha as [|c t Hc _ IH|t _ IH|tag t Htag _ IH].
  - done.
  - by apply markup_space.
  - rewrite <- app_assoc. by apply markup_rule.
  - rewrite <- !app_assoc. by apply markup_fence.
Qed.

Lemma markup_blank (t : str) : forallb isspace t = true -> markup t.
Proof.
  induction t as [|c t IH]; simpl; [constructor|].
  intros [Hc Ht]%andb_prop. apply markup_space; [done|by apply IH].
Qed.

Lemma markup_closing_fence (t : str) : markup t -> markup (fence ++ t).
Proof. intros H. by apply (markup_fence [] t). Qed.

Lemma markup_trim_nl (g : str) : markup (g ++ [nl]) -> markup g.
Proof.
  intros H. remember (g ++ [nl]) as x eqn:Hx. revert g Hx.
  induction H as [|c t Hc _ IH|t _ IH|tag t Htag _ IH]; intros g Hx.
  - by destruct g.
  - destruct g as [|c' g]; [constructor|].
    injection Hx as -> ->. apply markup_space; [done|by apply IH].
  - destruct t as [|y t _] using rev_ind.
    + destruct g as [|? [|? [|? [|? ?]]]]; discriminate.
    + rewrite app_assoc in Hx. apply app_inj_tail in Hx as [<- ->].
      apply markup_rule. by apply IH.
  - destruct t as [|y t _] using rev_ind.
    + rewrite app_nil_r in Hx. destruct tag as [|y tag _] using rev_ind.
      * destruct g as [|? [|? [|? [|? ?]]]]; discriminate.
      * rewrite app_assoc in Hx. apply app_inj_tail in Hx as [_ ->].
        rewrite forallb_app in Htag. by apply andb_prop in Htag as [_ ?].
    + rewrite !app_assoc in Hx. apply app_inj_tail in Hx as [<- ->].
      rewrite <- app_assoc. apply markup_fence; [done|by apply IH].
Qed.

Lemma made_of_pre (ps : list str) (x t : str) :
  markup x -> made_of ps t -> made_of ps (x ++ t).
Proof.
  intros Hx. destruct ps as [|p ps]; [by apply markup_app|].
  intros (pre & post & -> & Hpre & H). exists (x ++ pre), post.
  split; [by rewrite <- app_assoc|]. split; [by apply markup_app|done].
Qed.

Lemma made_of_post (ps : list str) (t y : str) :
  made_of ps t -> markup y -> made_of ps (t ++ y).
Proof.
  intros H Hy. revert t H. induction ps as [|p ps IH]; intros t H.
  - by apply markup_app.
  - destruct H as (pre & post & -> & Hpre & H). exists pre, (post ++ y).
    split; [by rewrite <- !app_assoc|]. split; [done|by apply IH].
Qed.

Lemma made_of_app (ps1 ps2 : list str) (t1 t2 : str) :
  made_of ps1 t1 -> made_of ps2 t2 -> made_of (ps1 ++ ps2) (t1 ++ t2).
Proof.
  revert t1. induction ps1 as [|p ps1 IH]; intros t1 H1 H2.
  - by apply made_of_pre.
  - destruct H1 as (pre & post & -> & Hpre & H1). exists pre, (post ++ t2).
    split; [by rewrite <- !app_assoc|]. split; [done|by apply IH].
Qed.

Lemma made_of_strip (t : str) : made_of [strip t] t.
Proof.
  destruct (strip_decompose t) as (pre & post & Ht & Hpre & Hpost).
  exists pre, post. split; [done|]. split; by apply markup_blank.
Qed.

Lemma made_of_blank_part (p : str) (ps : list str) (t : str) :
  forallb isspace p = true -> made_of (p :: ps) t -> made_of ps t.
Proof.
  intros Hp (pre & post & -> & Hpre & H). rewrite app_assoc.
  apply made_of_pre; [|done]. apply markup_app; [done|by apply markup_blank].
Qed.

Lemma made_of_filter_blank (cells : list Cell) (t : str) :
  made_of (map cell_content cells) t ->
  made_of
    (map cell_content
       (List.filter (fun c => truthy (strip (cell_content c))) cells)) t.
Proof.
  revert t. induction cells as [|c cells IH]; intros t H; [done|]. simpl.
  destruct (truthy (strip (cell_content c))) eqn:Ht.
  - destruct H as (pre & post & -> & Hpre & H). exists pre, post.
    split; [done|]. split; [done|by apply IH].
  - apply IH. eapply made_of_blank_part; [|exact H].
    by apply truthy_strip_false.
Qed.

Lemma made_of_flat_map {A} (g : A -> list str) (h : A -> str) (l : list A)
  (t : str) :
  (forall x, made_of (g x) (h x)) ->
  made_of (map h l) t -> made_of (flat_map g l) t.
Proof.
  intros Hg. revert t. induction l as [|x l IH]; intros t H; [done|].
  destruct H as (pre & post & -> & Hpre & H). simpl.
  apply made_of_pre; [done|]. apply made_of_app; [apply Hg|by apply IH].
Qed.

Lemma made_of_trim_nl (ss : list str) (t : str) :
  Forall (fun s => s <> [] /\ strip s = s) ss ->
  made_of ss (t ++ [nl]) -> made_of ss t.
Proof.
  intros Hss. revert t.
  induction Hss as [|s ss [Hne Hs] Hss IH]; intros t.
  { apply markup_trim_nl. }
  intros (pre & post & Heq & Hpre & H).
  destruct (exists_last Hne) as (s' & y & ->).
  assert (isspace y = false) as Hy by (by eapply trimmed_last).
  destruct post as [|c post _] using rev_ind.
  - rewrite app_nil_r, app_assoc in Heq.
    apply app_inj_tail in Heq as [_ <-]. by vm_compute in Hy.
  - rewrite !app_assoc in Heq. apply app_inj_tail in Heq as [-> <-].
    exists pre, post. split; [by rewrite <- !app_assoc|].
    split; [done|by apply IH].
Qed.

Lemma flush_made_of (cur : list str) : made_of (flush [] cur) (unlines cur).
Proof.
  unfold flush. cbv zeta. destruct (truthy _) eqn:Ht; cbn [app].
  - destruct cur as [|l ls]; [done|].
    rewrite unlines_join by done.
    apply (made_of_post [strip (join [nl] (l :: ls))]);
      [apply made_of_strip|by apply markup_blank].
  - destruct cur as [|l ls]; [constructor|].
    rewrite unlines_join by done. apply markup_blank.
    apply truthy_strip_false in Ht. rewrite forallb_app, Ht. reflexivity.
Qed.

Lemma rule_line_markup (line : str) :
  strip line = lit "---" -> markup (unlines [line]).
Proof.
  intros H. unfold unlines. simpl. rewrite app_nil_r.
  destruct (strip_decompose line) as (pre & post & Hl & Hpre & Hpost).
  rewrite Hl, H, <- !app_assoc.
  apply markup_app; [by apply markup_blank|]. apply markup_rule.
  apply markup_blank. rewrite forallb_app, Hpost. reflexivity.
Qed.

Lemma split_step_made_of st line (done_lines : list str) :
  made_of (sections st) (unlines done_lines) ->
  exists done_lines',
    done_lines ++ current_section st ++ [line]
    = done_lines' ++ current_section (split_step (lit "---") st line) /\
    made_of (sections (split_step (lit "---") st line)) (unlines done_lines').
Proof.
  intros H. unfold split_step. cbv zeta.
  destruct (startswith (strip line) fence); [by exists done_lines|].
  destruct (negb (in_code_block st)); cbn [andb]; [|by exists done_lines].
  case_bool_decide as Hd; [|by exists done_lines].
  exists (done_lines ++ current_section st ++ [line]).
  cbn [sections current_section]. split; [by rewrite app_nil_r|].
  rewrite flush_app, !unlines_app.
  apply made_of_app; [done|].
  apply made_of_post; [apply flush_made_of|by apply rule_line_markup].
Qed.

Lemma split_run_made_of st (lines done_lines : list str) :
  made_of (sections st) (unlines done_lines) ->
  exists done_lines',
    done_lines ++ current_section st ++ lines
    = done_lines' ++ current_section (split_run (lit "---") st lines) /\
    made_of (sections (split_run (lit "---") st lines)) (unlines done_lines').
Proof.
  revert st done_lines. induction lines as [|l ls IH]; intros st dl H.
  - exists dl. by rewrite app_nil_r.
  - destruct (split_step_made_of st l dl H) as (dl1 & Heq1 & H1).
    destruct (IH _ _ H1) as (dl2 & Heq2 & H2).
    exists dl2. split; [|done].
    change (split_run (lit "---") st (l :: ls))
      with (split_run (lit "---") (split_step (lit "---") st l) ls).
    rewrite <- Heq2, (app_assoc dl1), <- Heq1.
    by rewrite <- !app_assoc.
Qed.

(** A text is made of its sections: what lies before, between and after
    them is white space and [---] rules. *)
Lemma sections_made_of (content : str) :
  made_of (split_by_delimiter content (lit "---")) content.
Proof.
  apply made_of_trim_nl; [apply split_by_delimiter_trimmed|].
  unfold split_by_delimiter. cbv zeta.
  destruct (split_run_made_of split_init (split_nl content) [] markup_nil)
    as (dl & Heq & H).
  change ([] ++ current_section split_init ++ split_nl content)
    with (split_nl content) in Heq.
  set (st := split_run (lit "---") split_init (split_nl content)) in *.
  assert (content ++ [nl] = unlines dl ++ unlines (current_section st))
    as ->.
  { rewrite <- unlines_app, <- Heq, unlines_join by apply split_nl_nonempty.
    by rewrite join_split_nl. }
  rewrite flush_app. apply made_of_app; [done|apply flush_made_of].
Qed.

Lemma prose_cell_made_of (t : str) :
  made_of (map cell_content (prose_cell t)) t.
Proof.
  unfold prose_cell. destruct (truthy _) eqn:Ht; [apply made_of_strip|].
  apply markup_blank. by apply truthy_strip_false.
Qed.

Lemma code_cell_made_of (m : Match) (rest : list str) (t : str) :
  forallb isword (group1 m) = true ->
  made_of rest t ->
  made_of (cell_content (code_cell m) :: rest) (block_text m ++ t).
Proof.
  intros Hw H.
  destruct (rstrip_decompose (group2 m)) as (post & Hg & Hpost).
  exists (fence ++ group1 m ++ [nl]), (post ++ fence ++ t). split; [|split].
  - unfold block_text. rewrite Hg at 1. simpl. rewrite <- !app_assoc. simpl.
    by rewrite <- !app_assoc.
  - apply markup_fence; [done|]. by apply markup_blank.
  - apply made_of_pre; [by apply markup_blank|].
    apply (made_of_pre rest fence t); [|done].
    rewrite <- (app_nil_r fence). apply markup_closing_fence. constructor.
Qed.

Lemma emit_made_of (section : str) (ms : list Match) (last_end : nat) :
  chain last_end ms -> Forall (match_in section) ms ->
  made_of (map cell_content (emit section last_end ms))
    (drop last_end section).
Proof.
  revert last_end. induction ms as [|m ms IH]; intros last_end Hc Hm.
  - apply prose_cell_made_of.
  - destruct Hc as (Hle & _ & Hc). apply Forall_cons in Hm as [Hm Hms].
    cbn [emit]. rewrite map_app.
    rewrite (drop_from_last_end section last_end (m_start m) Hle).
    apply made_of_app; [apply prose_cell_made_of|].
    rewrite (drop_from_match section m Hm). cbn [map].
    apply code_cell_made_of; [by destruct Hm as (_ & _ & _ & _ & ?)|].
    by apply IH.
Qed.

Lemma extract_made_of (section : str) (langs : gset str) :
  made_of (map cell_content (extract_cells_from_section section langs))
    section.
Proof.
  rewrite extract_emit. destruct (finditer_spec section) as [Hc Hm].
  apply (emit_made_of section _ 0).
  - by apply chain_filter.
  - by apply Forall_filter_keeps.
Qed.

(** X22: nothing but markup is lost: the text that is left after the front
    matter is removed is made of the contents of the cells, in their order,
    and what lies before, between and after them is white space, [---]
    rules, and fences with their tags. *)
Theorem cells_cover_document (content : str)
  (code_languages : option (gset str)) :
  made_of (map cell_content (parse_markdown content code_languages))
    (remove_front_matter content).
Proof.
  unfold parse_markdown. cbv zeta.
  apply made_of_filter_blank. rewrite fold_extract_flat_map. cbn [app].
  rewrite map_flat_map. apply (made_of_flat_map _ id).
  - intros s. apply extract_made_of.
  - rewrite map_id. apply sections_made_of.
Qed.

(** ** Conversion stats *)

Lemma count_types (cells : list Cell) :
  length cells = count_type markdown cells + count_type code cells.
Proof.
  unfold count_type. induction cells as [|c cells IH]; [done|]. simpl.
  rewrite IH. destruct (cell_type c); simpl; lia.
Qed.

Lemma count_notebook_cells (cells : list Cell) :
  length (List.filter is_code_cell (map notebook_cell cells))
  = count_type code cells /\
  length (List.filter (fun c => negb (is_code_cell c))
            (map notebook_cell cells))
  = count_type markdown cells.
Proof.
  unfold count_type. induction cells as [|c cells [IH1 IH2]]; [done|].
  cbn [map List.filter].
  assert (is_code_cell (notebook_cell c) = bool_decide (cell_type c = code)
          /\ negb (is_code_cell (notebook_cell c))
             = bool_decide (cell_type c = markdown)) as [-> ->].
  { unfold notebook_cell. by destruct (cell_type c). }
  split.
  - destruct (bool_decide (cell_type c = code)); cbn [length]; by rewrite IH1.
  - destruct (bool_decide (cell_type c = markdown)); cbn [length];
      by rewrite IH2.
Qed.

(** X23: the stats that [convert] returns describe the notebook it writes: the
    notebook has [total_cells] cells, of which [markdown_cells] are markdown
    cells and [code_cells] are code cells, and the two counts add up to the
    total. *)
Theorem convert_stats_describe_notebook (content input_path output_path : str)
  (code_languages : option (gset str)) :
  let '(nb, stats) := convert content input_path output_path code_languages in
  length nb = total_cells stats /\
  length (List.filter is_code_cell nb) = code_cells stats /\
  length (List.filter (fun c => negb (is_code_cell c)) nb)
  = markdown_cells stats /\
  total_cells stats = markdown_cells stats + code_cells stats /\
  status stats = lit "success" /\
  input stats = input_path /\ output stats = output_path.
Proof.
  unfold convert. cbv zeta. cbn [total_cells markdown_cells code_cells
    status input output].
  rewrite create_notebook_map.
  destruct (count_notebook_cells (parse_markdown content code_languages))
    as [H1 H2].
  split; [apply length_map|]. split; [exact H1|]. split; [exact H2|].
  split; [apply count_types|done].
Qed.

(** X24: with the default allow set, a code cell of the notebook either has no
    metadata, and is a [python] cell, or has exactly the metadata
    [language = sql]. *)
Theorem default_notebook_metadata (content input_path output_path : str)
  (source : str) (metadata : gmap str str) :
  In (NbCode source metadata)
     (fst (convert content input_path output_path None)) ->
  metadata = ∅ \/ metadata = {[ lit "language" := lit "sql" ]}.
Proof.
  unfold convert. cbv zeta. cbn [fst]. rewrite create_notebook_map.
  intros (c & Hc & Hin)%in_map_iff.
  apply parse_markdown_well_formed in Hin. unfold well_formed_cell in Hin.
  unfold notebook_cell in Hc. destruct (cell_type c); [done|].
  destruct Hin as (tag & _ & Hl & Hmem & _). injection Hc as _ <-.
  rewrite Hl. cbn [default DEFAULT_CODE_LANGUAGES] in Hmem.
  unfold DEFAULT_CODE_LANGUAGES in Hmem.
  apply elem_of_union in Hmem as [Hm%elem_of_singleton|Hm%elem_of_singleton];
    rewrite Hm.
  - by left.
  - by right.
Qed.

Lemma default_notebook_metadata_witness :
  In (NbCode (lit "select 1") {[ lit "language" := lit "sql" ]})
     (fst (convert doc_mixed (lit "in.md") (lit "out.ipynb") None)) /\
  (({[ lit "language" := lit "sql" ]} : gmap str str) = ∅ \/
   ({[ lit "language" := lit "sql" ]} : gmap str str)
   = {[ lit "language" := lit "sql" ]}).
Proof.
  assert (In (NbCode (lit "select 1") {[ lit "language" := lit "sql" ]})
            (fst (convert doc_mixed (lit "in.md") (lit "out.ipynb") None)))
    as H.
  { unfold convert. cbv zeta. cbn [fst]. rewrite create_notebook_map.
    apply in_map_iff.
    exists {| cell_type := code; cell_content := lit "select 1";
              cell_language := Some (lit "sql") |}.
    split; [reflexivity|]. vm_compute. right. left. reflexivity. }
  exact (conj H (default_notebook_metadata _ _ _ _ _ H)).
Defined.

(** ** The allow set of the command line *)

Lemma split_char_nonempty sep s : split_char sep s <> [].
Proof.
  destruct s as [|c s]; simpl; [done|].
  destruct (bool_decide (c = sep)); [done|]. by destruct (split_char sep s).
Qed.

Lemma split_char_app_sep sep (a b : str) :
  sep ∉ a -> split_char sep (a ++ sep :: b) = a :: split_char sep b.
Proof.
  induction a as [|c a IH]; intros Ha; simpl.
  - by rewrite bool_decide_eq_true_2.
  - apply not_elem_of_cons in Ha as [Hc Ha].
    rewrite (bool_decide_eq_false_2 (c = sep)) by done. by rewrite IH.
Qed.

Lemma split_char_no_sep sep (a : str) : sep ∉ a -> split_char sep a = [a].
Proof.
  induction a as [|c a IH]; intros Ha; simpl; [done|].
  apply not_elem_of_cons in Ha as [Hc Ha].
  rewrite (bool_decide_eq_false_2 (c = sep)) by done. by rewrite IH.
Qed.

Lemma split_char_join sep (ls : list str) :
  ls <> [] -> Forall (fun l => sep ∉ l) ls ->
  split_char sep (join [sep] ls) = ls.
Proof.
  intros Hne H. induction H as [|l ls Hl _ IH]; [done|].
  destruct ls as [|l' ls]; [by apply split_char_no_sep|].
  rewrite join_cons2. cbn [app].
  rewrite split_char_app_sep by done. by rewrite IH.
Qed.

(** X25: the allow set built from [--code-languages] holds exactly the tags
    that were joined by commas: splitting undoes joining.  In particular the
    default of the option gives [DEFAULT_CODE_LANGUAGES], whatever the order
    in which the set was iterated, so that leaving the option out parses a
    document as [parse_markdown] does with no allow set given. *)
Theorem main_code_languages_round_trip :
  (forall tags : list str,
     tags <> [] -> Forall (fun t => comma ∉ t) tags ->
     main_code_languages (join [comma] tags) = list_to_set tags) /\
  (forall order : list str,
     order ≡ₚ [lit "python"; lit "sql"] ->
     main_code_languages (default_code_languages_arg order)
     = DEFAULT_CODE_LANGUAGES /\
     forall content : str,
       parse_markdown content
         (Some (main_code_languages (default_code_languages_arg order)))
       = parse_markdown content None).
Proof.
  assert (forall tags : list str,
     tags <> [] -> Forall (fun t => comma ∉ t) tags ->
     main_code_languages (join [comma] tags) = list_to_set tags) as H.
  { intros tags Hne Hc. unfold main_code_languages.
    by rewrite split_char_join. }
  split; [exact H|]. intros order Hp.
  assert (main_code_languages (default_code_languages_arg order)
          = DEFAULT_CODE_LANGUAGES) as Hdefault.
  { unfold default_code_languages_arg. rewrite H.
    - rewrite Hp. unfold DEFAULT_CODE_LANGUAGES.
      rewrite !list_to_set_cons, list_to_set_nil. by rewrite union_empty_r_L.
    - intros ->. by apply Permutation_nil_l in Hp.
    - rewrite Hp. repeat constructor;
        apply (bool_decide_unpack _); vm_compute; exact I. }
  split; [exact Hdefault|]. intros content. by rewrite Hdefault.
Qed.

Lemma main_code_languages_round_trip_witness :
  [lit "sql"; lit "python"] <> [] /\
  Forall (fun t => comma ∉ t) [lit "sql"; lit "python"] /\
  main_code_languages (lit "sql,python")
  = list_to_set [lit "sql"; lit "python"] /\
  [lit "sql"; lit "python"] ≡ₚ [lit "python"; lit "sql"] /\
  main_code_languages (default_code_languages_arg [lit "sql"; lit "python"])
  = DEFAULT_CODE_LANGUAGES.
Proof.
  assert ([lit "sql"; lit "python"] <> ([] : list str)) as H1 by discriminate.
  assert (Forall (fun t => comma ∉ t) [lit "sql"; lit "python"]) as H2
    by (repeat constructor; apply (bool_decide_unpack _); vm_compute; exact I).
  assert ([lit "sql"; lit "python"] ≡ₚ [lit "python"; lit "sql"]) as H3
    by apply perm_swap.
  destruct main_code_languages_round_trip as [Ha Hb].
  split; [exact H1|]. split; [exact H2|]. split.
  - exact (Ha _ H1 H2).
  - split; [exact H3|]. exact (proj1 (Hb _ H3)).
Defined.

Lemma dash_is_no_tag (tag : str) :
  forallb isword tag = true -> lower tag <> lit "-".
Proof.
  destruct tag as [|c [|c' tag]]; [done| |done].
  cbn [forallb]. rewrite andb_true_r. intros Hw [= H]. revert Hw H.
  all_chars c; vm_compute; congruence.
Qed.

(** X26: the allow set built from [--code-languages] is never empty, and an
    option value without a comma gives the set that holds just that value:
    the empty value gives the set that holds the empty tag, the tag of a
    fence with no language.  A set that is not empty can still allow
    nothing: no tag equals [-], so with the value [-] every document is
    parsed as with the empty allow set. *)
Theorem main_code_languages_never_empty (arg : str) :
  main_code_languages arg <> ∅ /\
  (comma ∉ arg -> main_code_languages arg = {[ arg ]}) /\
  (forall content : str,
     parse_markdown content (Some (main_code_languages (lit "-")))
     = parse_markdown content (Some ∅)).
Proof.
  unfold main_code_languages. split; [|split].
  - destruct (split_char comma arg) as [|l ls] eqn:E;
      [by apply split_char_nonempty in E|].
    rewrite list_to_set_cons. intros H.
    assert (l ∈ (∅ : gset str)) as Hl
      by (rewrite <- H; apply elem_of_union_l; by apply elem_of_singleton).
    by apply not_elem_of_empty in Hl.
  - intros H. rewrite split_char_no_sep by done.
    rewrite list_to_set_cons, list_to_set_nil. apply union_empty_r_L.
  - intros content. apply parse_allow_sets_agree. intros tag Hw.
    change (split_char comma (lit "-")) with [lit "-"].
    rewrite list_to_set_cons, list_to_set_nil, union_empty_r_L.
    rewrite elem_of_singleton. split.
    + intros H. by apply dash_is_no_tag in H.
    + intros H. by apply not_elem_of_empty in H.
Qed.

Lemma main_code_languages_never_empty_witness :
  (comma ∉ lit "") /\ main_code_languages (lit "") = {[ lit "" ]}.
Proof.
  assert (comma ∉ lit "") as H by apply not_elem_of_nil.
  exact (conj H
    (proj1 (proj2 (main_code_languages_never_empty (lit ""))) H)).
Defined.

(** ** White space at the end of a document *)

Lemma startswith_snoc (s p : str) (c : ascii) :
  c ∉ p -> startswith (s ++ [c]) p = startswith s p.
Proof.
  revert s. induction p as [|x p IH]; intros s Hc; [done|].
  apply not_elem_of_cons in Hc as [Hx Hp].
  destruct s as [|y s]; simpl.
  - by rewrite bool_decide_eq_false_2.
  - by rewrite IH.
Qed.

Lemma front_matter_end_snoc_plain (lines : list str) (x : str) (i : nat)
  (b : bool) :
  strip x <> lit "---" ->
  front_matter_end (lines ++ [x]) i b = front_matter_end lines i b.
Proof.
  intros Hx. revert i b. induction lines as [|l ls IH]; intros i b; simpl.
  - by rewrite bool_decide_eq_false_2.
  - case_bool_decide; [destruct b; simpl; [done|apply IH]|apply IH].
Qed.

Lemma front_matter_end_snoc_space (lines : list str) (l : str) (c : ascii)
  (i : nat) (b : bool) :
  isspace c = true ->
  front_matter_end (lines ++ [l ++ [c]]) i b
  = front_matter_end (lines ++ [l]) i b.
Proof.
  intros Hc. revert i b. induction lines as [|x ls IH]; intros i b; simpl.
  - by rewrite strip_snoc_space.
  - case_bool_decide; [destruct b; simpl; [done|apply IH]|apply IH].
Qed.

Lemma front_matter_end_bound (lines : list str) (i : nat) (b : bool) :
  front_matter_end lines i b <= i + length lines.
Proof.
  revert i b. induction lines as [|l ls IH]; intros i b; simpl; [lia|].
  case_bool_decide.
  - destruct b; simpl; [lia|]. specialize (IH (S i) true). lia.
  - specialize (IH (S i) b). lia.
Qed.

Lemma join_snoc_text (sep : str) (ls : list str) (l t : str) :
  join sep (ls ++ [l ++ t]) = join sep (ls ++ [l]) ++ t.
Proof.
  induction ls as [|x ls IH]; [done|].
  change ((x :: ls) ++ [l ++ t]) with (x :: (ls ++ [l ++ t])).
  change ((x :: ls) ++ [l]) with (x :: (ls ++ [l])).
  destruct (ls ++ [l ++ t]) as [|y r] eqn:E1; [by destruct ls|].
  destruct (ls ++ [l]) as [|y' r'] eqn:E2; [by destruct ls|].
  rewrite !join_cons2, IH. by rewrite <- !app_assoc.
Qed.

Lemma join_snoc_blank (ls : list str) :
  ls <> [] -> join [nl] (ls ++ [[]]) = join [nl] ls ++ [nl].
Proof. intros H. rewrite join_app by done. by rewrite app_nil_r. Qed.

Lemma remove_front_matter_snoc (content : str) (c : ascii) :
  isspace c = true ->
  remove_front_matter (content ++ [c]) = remove_front_matter content ++ [c]
  \/ remove_front_matter (content ++ [c]) = remove_front_matter content.
Proof.
  intros Hc. unfold remove_front_matter.
  rewrite startswith_snoc
    by (intros H; apply list_elem_of_In in H;
        destruct H as [<-|[<-|[<-|[]]]]; discriminate).
  destruct (startswith content (lit "---")); simpl negb; cbv iota;
    [|by left].
  cbv zeta.
  pose proof (front_matter_end_bound (split_nl content) 0 false) as Hb.
  destruct (decide (c = nl)) as [->|Hnl].
  - rewrite split_nl_snoc_nl, front_matter_end_snoc_plain by done.
    case_bool_decide as He; [|by left].
    rewrite drop_app_le by (simpl in Hb; lia).
    destruct (drop _ (split_nl content)) as [|x xs] eqn:Hd; [by right|].
    left. by rewrite join_snoc_blank.
  - destruct (split_nl_snoc_other content c Hnl) as (ls & l & Hl & Hl').
    rewrite Hl', front_matter_end_snoc_space, <- Hl by done.
    case_bool_decide as He; [|by left].
    rewrite Hl in Hb |- *. rewrite length_app in Hb. simpl in Hb.
    set (e := front_matter_end (ls ++ [l]) 0 false) in *.
    destruct (decide (e <= length ls)) as [Hle|Hgt].
    + left. rewrite !drop_app_le by done. apply (join_snoc_text _ _ l [c]).
    + right. rewrite !drop_ge by (rewrite length_app; simpl; lia). done.
Qed.

Lemma flush_snoc_space (secs cur : list str) (l : str) (c : ascii) :
  isspace c = true ->
  flush secs (cur ++ [l ++ [c]]) = flush secs (cur ++ [l]).
Proof.
  intros Hc. unfold flush. cbv zeta.
  by rewrite join_snoc_text, strip_snoc_space.
Qed.

Lemma flush_snoc_blank (secs cur : list str) :
  flush secs (cur ++ [[]]) = flush secs cur.
Proof.
  unfold flush. cbv zeta. destruct cur as [|x xs]; [done|].
  rewrite join_snoc_blank by done. by rewrite strip_snoc_space.
Qed.

Lemma flush_flush (secs cur : list str) :
  flush (flush secs cur) [] = flush secs cur.
Proof. reflexivity. Qed.

Lemma split_step_snoc_space d st (l : str) (c : ascii) :
  isspace c = true ->
  let st1 := split_step d st (l ++ [c]) in
  let st2 := split_step d st l in
  flush (sections st1) (current_section st1)
  = flush (sections st2) (current_section st2).
Proof.
  intros Hc. cbv zeta. unfold split_step. cbv zeta.
  rewrite strip_snoc_space by done.
  destruct (startswith (strip l) fence); cbn [sections current_section];
    [by apply flush_snoc_space|].
  destruct (negb (in_code_block st) && bool_decide (strip l = d));
    cbn [sections current_section]; [done|by apply flush_snoc_space].
Qed.

Lemma split_step_blank d st :
  let st1 := split_step d st [] in
  flush (sections st1) (current_section st1)
  = flush (sections st) (current_section st).
Proof.
  cbv zeta. unfold split_step. cbv zeta.
  change (startswith (strip []) fence) with false. cbv iota.
  destruct (negb (in_code_block st) && bool_decide (strip [] = d));
    cbn [sections current_section];
    [apply flush_flush|apply flush_snoc_blank].
Qed.

Lemma split_by_delimiter_snoc (content d : str) (c : ascii) :
  isspace c = true ->
  split_by_delimiter (content ++ [c]) d = split_by_delimiter content d.
Proof.
  intros Hc. unfold split_by_delimiter. cbv zeta.
  destruct (decide (c = nl)) as [->|Hnl].
  - rewrite split_nl_snoc_nl, split_run_app. apply split_step_blank.
  - destruct (split_nl_snoc_other content c Hnl) as (ls & l & -> & ->).
    rewrite !split_run_app. by apply split_step_snoc_space.
Qed.

Lemma parse_markdown_snoc (content : str) (c : ascii)
  (code_languages : option (gset str)) :
  isspace c = true ->
  parse_markdown (content ++ [c]) code_languages
  = parse_markdown content code_languages.
Proof.
  intros Hc. unfold parse_markdown. cbv zeta.
  destruct (remove_front_matter_snoc content c Hc) as [-> | ->]; [|done].
  by rewrite split_by_delimiter_snoc.
Qed.

(** X27: white space at the end of a text changes neither its sections,
    whatever the delimiter, nor the cells of the document: a final newline
    or trailing blank lines never show in the notebook. *)
Theorem trailing_white_space_ignored (content ws : str) :
  forallb isspace ws = true ->
  (forall d, split_by_delimiter (content ++ ws) d
             = split_by_delimiter content d) /\
  (forall code_languages,
     parse_markdown (content ++ ws) code_languages
     = parse_markdown content code_languages).
Proof.
  revert content. induction ws as [|c ws IH]; intros content Hws.
  { by rewrite app_nil_r. }
  simpl in Hws. apply andb_prop in Hws as [Hc Hws].
  change (c :: ws) with ([c] ++ ws). rewrite app_assoc.
  destruct (IH (content ++ [c]) Hws) as [IH1 IH2]. split.
  - intros d. by rewrite IH1, split_by_delimiter_snoc.
  - intros langs. by rewrite IH2, parse_markdown_snoc.
Qed.

Lemma trailing_white_space_ignored_witness :
  forallb isspace (lit "  " ++ [nl; nl]) = true /\
  parse_markdown (doc_mixed ++ lit "  " ++ [nl; nl]) None
  = parse_markdown doc_mixed None.
Proof.
  assert (forallb isspace (lit "  " ++ [nl; nl]) = true) as H by reflexivity.
  exact (conj H (proj2 (trailing_white_space_ignored doc_mixed _ H) None)).
Defined.

(** ** A larger allow set *)

Lemma extract_code_cell_iff (section : str) (langs : gset str) (c : Cell) :
  In c (extract_cells_from_section section langs) /\ cell_type c = code <->
  exists m, In m (finditer section) /\ extracted langs m = true /\
            c = code_cell m.
Proof.
  rewrite extract_emit.
  pose proof (emit_code_cells section 0
                (List.filter (extracted langs) (finditer section))) as Hcode.
  split.
  - intros [Hin Hc].
    assert (In c (map code_cell
                    (List.filter (extracted langs) (finditer section))))
      as Hm.
    { rewrite <- Hcode. apply filter_In. split; [done|].
      by apply bool_decide_eq_true_2. }
    apply in_map_iff in Hm as (m & <- & Hm).
    apply filter_In in Hm as [Hm Hx]. by exists m.
  - intros (m & Hm & Hx & ->).
    assert (In (code_cell m)
              (List.filter (fun c => bool_decide (cell_type c = code))
                 (emit section 0
                    (List.filter (extracted langs) (finditer section)))))
      as Hin.
    { rewrite Hcode. apply in_map. by apply filter_In. }
    apply filter_In in Hin as [Hin _]. by split.
Qed.

(** X28: a larger allow set never loses a code cell: every code cell that a
    section or a document gives under an allow set is also given under any
    allow set that contains it. *)
Theorem larger_allow_set_keeps_code_cells (langs1 langs2 : gset str) :
  langs1 ⊆ langs2 ->
  (forall (section : str) (c : Cell),
     In c (extract_cells_from_section section langs1) ->
     cell_type c = code ->
     In c (extract_cells_from_section section langs2)) /\
  (forall (content : str) (c : Cell),
     In c (parse_markdown content (Some langs1)) ->
     cell_type c = code ->
     In c (parse_markdown content (Some langs2))).
Proof.
  intros Hsub.
  assert (forall (section : str) (c : Cell),
     In c (extract_cells_from_section section langs1) ->
     cell_type c = code ->
     In c (extract_cells_from_section section langs2)) as H.
  { intros section c Hin Hc.
    destruct (proj1 (extract_code_cell_iff section langs1 c) (conj Hin Hc))
      as (m & Hm & Hx & ->).
    apply (extract_code_cell_iff section langs2 (code_cell m)).
    exists m. split; [done|]. split; [|done].
    apply bool_decide_eq_true_2, Hsub. by apply bool_decide_eq_true_1 in Hx. }
  split; [exact H|].
  intros content c. unfold parse_markdown. cbv zeta. cbn [default].
  rewrite !fold_extract_flat_map. cbn [app].
  intros [Hin Ht]%filter_In Hc. apply filter_In. split; [|done].
  apply in_flat_map in Hin as (section & Hs & Hin).
  apply in_flat_map. exists section. split; [done|]. by apply H.
Qed.

Lemma larger_allow_set_keeps_code_cells_witness :
  (({[ lit "python" ]} : gset str) ⊆ DEFAULT_CODE_LANGUAGES) /\
  In (block_cell (lit "python") [lit "x = 1"])
     (extract_cells_from_section section_python_small {[ lit "python" ]}) /\
  In (block_cell (lit "python") [lit "x = 1"])
     (extract_cells_from_section section_python_small DEFAULT_CODE_LANGUAGES).
Proof.
  assert (({[ lit "python" ]} : gset str) ⊆ DEFAULT_CODE_LANGUAGES) as H
    by (unfold DEFAULT_CODE_LANGUAGES; apply union_subseteq_l).
  assert (In (block_cell (lit "python") [lit "x = 1"])
            (extract_cells_from_section section_python_small
               {[ lit "python" ]})) as Hin
    by (vm_compute; right; left; reflexivity).
  exact (conj H (conj Hin
    (proj1 (larger_allow_set_keeps_code_cells _ _ H) _ _ Hin eq_refl))).
Defined.

(** ** The letter case of a tag

    Extraction as a walk along the text, line by line, and what it does
    when one fence line gets another tag. *)

(** *** The walk over a section, free of positions *)

Lemma shift_match_0 (m : Match) : shift_match 0 m = m.
Proof. by destruct m. Qed.

Lemma map_shift_match_0 (ms : list Match) : map (shift_match 0) ms = ms.
Proof.
  induction ms as [|m ms IH]; [done|]. simpl map.
  by rewrite shift_match_0, IH.
Qed.

Lemma shift_match_add (a b : nat) (m : Match) :
  shift_match a (shift_match b m) = shift_match (a + b) m.
Proof. unfold shift_match. simpl. f_equal; lia. Qed.

Lemma map_shift_match_add (a b : nat) (ms : list Match) :
  map (shift_match a) (map (shift_match b) ms) = map (shift_match (a + b)) ms.
Proof.
  rewrite map_map. apply map_ext. intros m. apply shift_match_add.
Qed.

Lemma walk_extract (section : str) (langs : gset str) :
  extract_cells_from_section section langs = walk langs [] true section.
Proof.
  unfold walk. cbn [app length].
  by rewrite map_shift_match_0, extract_emit, finditer_scan.
Qed.

Lemma walk_nil (langs : gset str) (p : str) (bol : bool) :
  walk langs p bol [] = prose_cell p.
Proof.
  unfold walk. cbn [length scan List.filter map emit].
  by rewrite app_nil_r, drop_0.
Qed.

Lemma walk_skip (langs : gset str) (p : str) (bol : bool) (c : ascii)
  (s : str) :
  (if bol then match_at 0 (c :: s) else None) = None ->
  walk langs p bol (c :: s)
  = walk langs (p ++ [c]) (bool_decide (c = nl)) s.
Proof.
  intros H. unfold walk. cbn [length scan]. rewrite H.
  change 1 with (1 + 0) at 1. rewrite scan_shift, filter_extracted_shift.
  rewrite map_shift_match_add, length_app. cbn [length].
  by rewrite <- app_assoc.
Qed.

Lemma walk_match (langs : gset str) (p : str) (s r : str) (m : Match) :
  match_at 0 s = Some m -> s = block_text m ++ r ->
  walk langs p true s
  = if extracted langs m
    then prose_cell p ++ code_cell m :: walk langs [] false r
    else walk langs (p ++ block_text m) false r.
Proof.
  intros Hm Hs.
  destruct (match_at_spec _ _ _ Hm) as (Hstart & Hend & _ & _).
  fold (block_text m) in Hend. cbn [Nat.add] in Hend.
  assert (scan (length s) 0 true s
          = m :: map (shift_match (m_end m)) (scan (length r) 0 false r))
    as Hscan.
  { destruct s as [|c s'] eqn:Es; [done|]. cbn [length].
    rewrite (scan_at_match _ _ _ _ Hm). f_equal.
    rewrite Nat.sub_0_r, Hs, Hend, drop_app_length.
    transitivity (scan (length s') (length (block_text m) + 0) false r);
      [f_equal; lia|].
    rewrite scan_shift. f_equal. apply scan_fuel; [|done].
    apply (f_equal length) in Hs. rewrite length_app in Hs.
    cbn [length] in Hs. unfold block_text in Hs. rewrite length_app in Hs.
    change (length fence) with 3 in Hs. lia. }
  unfold walk. rewrite Hscan. cbn [List.filter].
  rewrite filter_extracted_shift.
  set (ms := List.filter (extracted langs) (scan (length r) 0 false r)).
  assert (emit (p ++ s) (length p + m_end m)
            (map (shift_match (length p)) (map (shift_match (m_end m)) ms))
          = emit r 0 ms) as Hrest.
  { rewrite map_shift_match_add, Hs, Hend, app_assoc.
    rewrite <- (length_app p (block_text m)).
    rewrite <- (Nat.add_0_r (length (p ++ block_text m))) at 1.
    apply emit_shift. }
  destruct (extracted langs m).
  - cbn [map emit]. cbn [shift_match m_start m_end]. rewrite Hstart, Hrest.
    assert (slice (p ++ s) 0 (length p + 0) = p) as ->.
    { unfold slice. rewrite drop_0, Nat.sub_0_r, Nat.add_0_r.
      by rewrite take_app_length. }
    cbn [app length]. by rewrite map_shift_match_0.
  - rewrite map_shift_match_add, Hend, <- length_app, Hs, app_assoc.
    reflexivity.
Qed.

Lemma same_decisions_refl (cells : list Cell) : same_decisions cells cells.
Proof. induction cells; constructor; [done|assumption]. Qed.

Lemma prose_cell_blank_iff (p : str) :
  prose_cell p = if forallb isspace p then [] else [markdown_cell (strip p)].
Proof.
  unfold prose_cell. destruct (forallb isspace p) eqn:E.
  - by rewrite (proj2 (truthy_strip_false p) E).
  - destruct (truthy (strip p)) eqn:Et; [done|].
    apply truthy_strip_false in Et. congruence.
Qed.

Lemma prose_cell_same_decisions (p1 p2 : str) :
  forallb isspace p1 = forallb isspace p2 ->
  same_decisions (prose_cell p1) (prose_cell p2).
Proof.
  intros H. rewrite !prose_cell_blank_iff, H.
  destruct (forallb isspace p2); repeat constructor.
Qed.

Lemma blank_app_same (p1 p2 x : str) :
  forallb isspace p1 = forallb isspace p2 ->
  forallb isspace (p1 ++ x) = forallb isspace (p2 ++ x).
Proof. intros H. by rewrite !forallb_app, H. Qed.

(** With the same text still to scan, two walks make the same decisions as
    soon as their pending texts are both blank or both not blank. *)
Lemma walk_same_text (langs : gset str) (n : nat) :
  forall (s : str), length s <= n ->
  forall (p1 p2 : str) (bol : bool),
    forallb isspace p1 = forallb isspace p2 ->
    same_decisions (walk langs p1 bol s) (walk langs p2 bol s).
Proof.
  induction n as [|n IH]; intros s Hn p1 p2 bol Hp.
  { destruct s; [|simpl in Hn; lia].
    rewrite !walk_nil. by apply prose_cell_same_decisions. }
  destruct s as [|c s'].
  { rewrite !walk_nil. by apply prose_cell_same_decisions. }
  destruct (if bol then match_at 0 (c :: s') else None) as [m|] eqn:E.
  - destruct bol; [|done].
    destruct (match_at_spec _ _ _ E) as (_ & _ & _ & r & Hs).
    fold (block_text m) in Hs.
    rewrite !(walk_match langs _ _ r m E Hs).
    assert (length r <= n) as Hr.
    { apply (f_equal length) in Hs. rewrite length_app in Hs.
      unfold block_text in Hs. rewrite length_app in Hs.
      change (length fence) with 3 in Hs. simpl in Hn, Hs. lia. }
    destruct (extracted langs m).
    + apply Forall2_app; [by apply prose_cell_same_decisions|].
      constructor; [done|]. apply same_decisions_refl.
    + apply IH; [done|]. by apply blank_app_same.
  - rewrite !walk_skip by done. apply IH; [simpl in Hn; lia|].
    by apply blank_app_same.
Qed.

(** *** The pattern, line by line *)

Lemma not_all_word_split (l : str) :
  forallb isword l = false ->
  exists c r, dropWhile isword l = c :: r /\ isword c = false /\ c ∈ l.
Proof.
  induction l as [|x l IH]; simpl; [done|].
  destruct (isword x) eqn:Ex; simpl.
  - intros H. destruct (IH H) as (c & r & Hd & Hc & Hin).
    exists c, r. split; [done|]. split; [done|]. by right.
  - intros _. exists x, l. split; [done|]. split; [done|]. by left.
Qed.

(** The pattern tried at the start of a line [l]: the line must be three
    backticks and a tag of word characters, and the text after the line
    must reach a closing fence. *)
Lemma match_at_line (pos : nat) (l rest : str) :
  nl ∉ l ->
  match_at pos (l ++ nl :: rest)
  = if startswith l fence && forallb isword (drop 3 l)
    then match lazy_body true rest with
         | Some body =>
             Some {| m_start := pos;
                     m_end := pos + 3 + length (drop 3 l) + 1 + length body + 3;
                     group1 := drop 3 l;
                     group2 := body |}
         | None => None
         end
    else None.
Proof.
  intros Hnl. unfold match_at.
  destruct (startswith l fence) eqn:Hs; cbn [andb].
  - rewrite (startswith_app l _ fence Hs).
    apply startswith_fence_drop in Hs.
    assert (drop 3 (l ++ nl :: rest) = drop 3 l ++ nl :: rest) as ->.
    { rewrite Hs at 1. by rewrite <- app_assoc. }
    cbv zeta. destruct (forallb isword (drop 3 l)) eqn:Hw.
    + rewrite takeWhile_all_app, dropWhile_all_app by done.
      cbn [dropWhile]. change (isword nl) with false. cbv iota.
      by rewrite bool_decide_eq_true_2.
    + destruct (not_all_word_split _ Hw) as (c & r & Hd & Hc & Hin).
      rewrite dropWhile_app_some by (by rewrite Hd). rewrite Hd. cbn [app].
      rewrite bool_decide_eq_false_2; [done|].
      intros ->. apply Hnl. rewrite Hs. apply elem_of_app. by right.
  - by rewrite (startswith_app_nl l rest fence fence_no_nl Hs).
Qed.

Lemma lazy_body_line_opt bol (l rest : str) :
  nl ∉ l -> (bol = true -> l <> fence) ->
  lazy_body bol (l ++ nl :: rest)
  = option_map (fun b => l ++ nl :: b) (lazy_body true rest).
Proof.
  intros Hnl Hl. revert bol Hl.
  induction l as [|c l IH]; intros bol Hl.
  - pose proof (closing_here_line bol [] rest Hnl Hl) as Hc.
    cbn [app] in *. cbn [lazy_body]. rewrite Hc.
    rewrite bool_decide_eq_true_2 by done. by destruct (lazy_body true rest).
  - pose proof (closing_here_line bol (c :: l) rest Hnl Hl) as Hc.
    apply not_elem_of_cons in Hnl as [Hcn Hnl].
    change ((c :: l) ++ nl :: rest) with (c :: (l ++ nl :: rest)) in *.
    cbn [lazy_body]. rewrite Hc.
    rewrite (bool_decide_eq_false_2 (c = nl)) by done.
    rewrite (IH Hnl false) by done. by destruct (lazy_body true rest).
Qed.

Lemma opening_line_parts (tag : str) :
  opening_line tag = (fence ++ tag) ++ [nl].
Proof. unfold opening_line. by rewrite <- app_assoc. Qed.

Lemma opening_no_nl (tag : str) :
  forallb isword tag = true -> nl ∉ fence ++ tag.
Proof.
  intros Hw [H|H]%elem_of_app; [by apply fence_no_nl|by apply (word_no_nl tag)].
Qed.

Lemma opening_not_fence (tag : str) : tag <> [] -> fence ++ tag <> fence.
Proof.
  intros Hne H. apply Hne. apply (app_inv_head fence). by rewrite app_nil_r.
Qed.

(** A lazy body runs through an opening fence line with a tag. *)
Lemma lazy_body_opening bol (tag v : str) :
  tag <> [] -> forallb isword tag = true ->
  lazy_body bol (opening_line tag ++ v)
  = option_map (fun b => opening_line tag ++ b) (lazy_body true v).
Proof.
  intros Hne Hw. rewrite opening_line_parts, <- app_assoc. cbn [app].
  rewrite lazy_body_line_opt;
    [|by apply opening_no_nl|intros _; by apply opening_not_fence].
  destruct (lazy_body true v); [|done]. cbn [option_map].
  by rewrite <- (app_assoc _ [nl]).
Qed.

Lemma ends_with_nl_tail (c : ascii) (r : str) :
  (exists a', c :: r = a' ++ [nl]) ->
  r = [] /\ c = nl \/ exists r', r = r' ++ [nl].
Proof.
  intros [a' H]. destruct a' as [|x a']; simpl in H.
  - injection H as Hc Hr. left. by split.
  - injection H as _ Hr. right. by exists a'.
Qed.

Lemma closing_here_prefix bol (a x : str) :
  (exists a', a = a' ++ [nl]) ->
  closing_here bol (a ++ x) = closing_here bol a.
Proof.
  intros Ha. unfold closing_here. destruct bol; [|done]. cbn [andb].
  destruct a as [|c1 a]; [by destruct Ha as [[|??] ?]|].
  destruct (decide (c1 = backtick)) as [->|H1];
    [|by simpl; rewrite (bool_decide_eq_false_2 _ H1)].
  apply ends_with_nl_tail in Ha as [[_ ?]|Ha]; [done|].
  destruct a as [|c2 a]; [by destruct Ha as [[|??] ?]|].
  destruct (decide (c2 = backtick)) as [->|H2];
    [|by simpl; rewrite (bool_decide_eq_false_2 _ H2)].
  apply ends_with_nl_tail in Ha as [[_ ?]|Ha]; [done|].
  destruct a as [|c3 a]; [by destruct Ha as [[|??] ?]|].
  destruct (decide (c3 = backtick)) as [->|H3];
    [|by simpl; rewrite (bool_decide_eq_false_2 _ H3)].
  apply ends_with_nl_tail in Ha as [[_ ?]|Ha]; [done|].
  destruct a as [|c4 a]; [by destruct Ha as [[|??] ?]|]. reflexivity.
Qed.

(** The lazy body over lines followed by more text: the closing fence is
    found within the lines, or the body runs through them. *)
Lemma lazy_body_app_lines bol (a x : str) :
  (exists a', a = a' ++ [nl]) ->
  lazy_body bol (a ++ x)
  = match lazy_body bol a with
    | Some body => Some body
    | None => option_map (app a) (lazy_body true x)
    end.
Proof.
  revert bol. induction a as [|c a IH]; intros bol Ha.
  { by destruct Ha as [[|??] ?]. }
  pose proof (closing_here_prefix bol (c :: a) x Ha) as Hc.
  change ((c :: a) ++ x) with (c :: (a ++ x)) in *.
  cbn [lazy_body]. rewrite Hc.
  destruct (closing_here bol (c :: a)); [done|].
  apply ends_with_nl_tail in Ha as [[-> ->]|Ha].
  - cbn [app lazy_body]. rewrite bool_decide_eq_true_2 by done.
    change (closing_here true []) with false. cbv iota.
    by destruct (lazy_body true x).
  - rewrite (IH _ Ha). destruct (lazy_body _ a); [done|].
    by destruct (lazy_body true x).
Qed.

Lemma first_line_cut (a : str) :
  (exists a', a = a' ++ [nl]) ->
  exists l a2, a = l ++ nl :: a2 /\ (nl ∉ l) /\
               (a2 = [] \/ exists a3, a2 = a3 ++ [nl]).
Proof.
  induction a as [|c a IH]; intros Ha.
  { by destruct Ha as [[|??] ?]. }
  destruct (decide (c = nl)) as [->|Hc].
  - exists [], a. split; [done|]. split; [apply not_elem_of_nil|].
    apply ends_with_nl_tail in Ha as [[? _]|?]; [by left|by right].
  - apply ends_with_nl_tail in Ha as [[_ ?]|Ha]; [done|].
    destruct (IH Ha) as (l & a2 & -> & Hl & Ha2).
    exists (c :: l), a2. split; [done|]. split; [|done].
    by apply not_elem_of_cons.
Qed.

Lemma walk_skip_line (langs : gset str) (p : str) (bol : bool)
  (l rest : str) :
  nl ∉ l ->
  (if bol then match_at 0 (l ++ nl :: rest) else None) = None ->
  walk langs p bol (l ++ nl :: rest) = walk langs (p ++ l ++ [nl]) true rest.
Proof.
  intros Hnl. revert p bol. induction l as [|c l IH]; intros p bol Hm.
  - cbn [app] in *. rewrite walk_skip by done.
    by rewrite bool_decide_eq_true_2.
  - apply not_elem_of_cons in Hnl as [Hc Hnl].
    change ((c :: l) ++ nl :: rest) with (c :: (l ++ nl :: rest)) in *.
    rewrite walk_skip by done.
    rewrite (bool_decide_eq_false_2 (c = nl)) by done.
    rewrite (IH Hnl) by done. by rewrite <- !app_assoc.
Qed.

(** *** A tag replaced by a tag with the same lower-casing *)

Section Retag.

Variable langs : gset str.
Variables tag1 tag2 : str.
Hypothesis Hw1 : forallb isword tag1 = true.
Hypothesis Hw2 : forallb isword tag2 = true.
Hypothesis Hne1 : tag1 <> [].
Hypothesis Hne2 : tag2 <> [].
Hypothesis Hlower : lower tag1 = lower tag2.

Lemma extracted_retag (e1 e2 : nat) (b1 b2 : str) :
  extracted langs {| m_start := 0; m_end := e1; group1 := tag1; group2 := b1 |}
  = extracted langs
      {| m_start := 0; m_end := e2; group1 := tag2; group2 := b2 |}.
Proof. unfold extracted. cbn [group1]. by rewrite Hlower. Qed.

Lemma code_cell_same_decisions (m1 m2 : Match) (cells1 cells2 : list Cell) :
  lower (group1 m1) = lower (group1 m2) ->
  same_decisions cells1 cells2 ->
  same_decisions (code_cell m1 :: cells1) (code_cell m2 :: cells2).
Proof.
  intros Hl H. constructor; [|done]. split; [done|].
  unfold code_cell. cbn [cell_language]. by rewrite Hl.
Qed.

Lemma not_blank_block (p : str) (m : Match) :
  forallb isspace (p ++ block_text m) = false.
Proof. rewrite forallb_app. simpl. apply andb_false_r. Qed.

Lemma not_blank_opening (p l tag : str) :
  forallb isspace (p ++ (fence ++ tag) ++ l) = false.
Proof. rewrite forallb_app. simpl. apply andb_false_r. Qed.

Lemma block_text_end (pos : nat) (tag body : str) :
  pos + 3 + length tag + 1 + length body + 3
  = pos + length (fence ++ tag ++ nl :: body ++ fence).
Proof.
  rewrite length_app, length_app. cbn [length]. rewrite length_app.
  change (length fence) with 3. lia.
Qed.

(** The edited line is the next line to scan. *)
Lemma walk_retag_here (p1 p2 v : str) :
  forallb isspace p1 = forallb isspace p2 ->
  same_decisions (walk langs p1 true (opening_line tag1 ++ v))
    (walk langs p2 true (opening_line tag2 ++ v)).
Proof.
  intros Hp.
  assert (forall tag, forallb isword tag = true ->
            match_at 0 (opening_line tag ++ v)
            = match lazy_body true v with
              | Some body =>
                  Some {| m_start := 0;
                          m_end := 0 + 3 + length tag + 1 + length body + 3;
                          group1 := tag; group2 := body |}
              | None => None
              end) as Hmatch.
  { intros tag Hw. rewrite opening_line_parts, <- app_assoc. cbn [app].
    rewrite match_at_line by (by apply opening_no_nl).
    change (startswith (fence ++ tag) fence) with true.
    change (drop 3 (fence ++ tag)) with tag. by rewrite Hw. }
  pose proof (Hmatch tag1 Hw1) as Hm1. pose proof (Hmatch tag2 Hw2) as Hm2.
  destruct (lazy_body true v) as [body|] eqn:Hbody.
  - apply lazy_body_spec in Hbody as (r & Hv).
    assert (forall tag,
              opening_line tag ++ v
              = block_text {| m_start := 0;
                              m_end := 0 + 3 + length tag + 1 + length body + 3;
                              group1 := tag; group2 := body |} ++ r) as Hs.
    { intros tag. unfold opening_line, block_text. cbn [group1 group2].
      rewrite Hv, <- !app_assoc. cbn [app]. by rewrite <- !app_assoc. }
    rewrite (walk_match langs p1 _ r _ Hm1 (Hs tag1)).
    rewrite (walk_match langs p2 _ r _ Hm2 (Hs tag2)).
    rewrite (extracted_retag _ (0 + 3 + length tag2 + 1 + length body + 3)
               _ body).
    destruct (extracted langs _).
    + apply Forall2_app; [by apply prose_cell_same_decisions|].
      apply code_cell_same_decisions; [exact Hlower|].
      apply same_decisions_refl.
    + apply (walk_same_text langs (length r)); [done|].
      by rewrite !not_blank_block.
  - assert (forall tag, opening_line tag ++ v = (fence ++ tag) ++ nl :: v)
      as Hline.
    { intros tag. by rewrite opening_line_parts, <- app_assoc. }
    rewrite Hline in Hm1, Hm2. rewrite !Hline.
    rewrite (walk_skip_line langs p1 true _ v (opening_no_nl _ Hw1) Hm1).
    rewrite (walk_skip_line langs p2 true _ v (opening_no_nl _ Hw2) Hm2).
    apply (walk_same_text langs (length v)); [done|].
    by rewrite !not_blank_opening.
Qed.

(** The edited line comes after the lines [a]. *)
Lemma walk_retag (n : nat) :
  forall (a : str), length a <= n ->
  a = [] \/ (exists a', a = a' ++ [nl]) ->
  forall (p1 p2 : str) (bol : bool) (v : str),
    forallb isspace p1 = forallb isspace p2 ->
    (a = [] -> bol = true) ->
    same_decisions (walk langs p1 bol (a ++ opening_line tag1 ++ v))
      (walk langs p2 bol (a ++ opening_line tag2 ++ v)).
Proof.
  induction n as [|n IH]; intros a Hn Ha p1 p2 bol v Hp Hbol.
  { destruct a; [|simpl in Hn; lia]. rewrite (Hbol eq_refl).
    by apply walk_retag_here. }
  destruct Ha as [->|Ha].
  { rewrite (Hbol eq_refl). by apply walk_retag_here. }
  destruct (first_line_cut a Ha) as (l & a2 & -> & Hl & Ha2).
  rewrite length_app in Hn. cbn [length] in Hn.
  rewrite <- !app_assoc. cbn [app].
  set (rest1 := a2 ++ opening_line tag1 ++ v).
  set (rest2 := a2 ++ opening_line tag2 ++ v).
  assert (forall p1' p2', forallb isspace p1' = forallb isspace p2' ->
            same_decisions (walk langs p1' true rest1)
              (walk langs p2' true rest2)) as Hnext.
  { intros p1' p2' Hp'. apply IH; [lia|done|done|done]. }
  assert (same_decisions (walk langs (p1 ++ l ++ [nl]) true rest1)
            (walk langs (p2 ++ l ++ [nl]) true rest2)) as Hskip.
  { apply Hnext. by apply blank_app_same. }
  destruct bol; [|by rewrite !walk_skip_line].
  pose proof (match_at_line 0 l rest1 Hl) as Hm1.
  pose proof (match_at_line 0 l rest2 Hl) as Hm2.
  destruct (startswith l fence && forallb isword (drop 3 l)) eqn:Hopen;
    [|by rewrite !walk_skip_line].
  apply andb_prop in Hopen as [Hfence Hword].
  apply startswith_fence_drop in Hfence.
  assert (forall tag, tag <> [] -> forallb isword tag = true ->
            lazy_body true (a2 ++ opening_line tag ++ v)
            = match lazy_body true a2 with
              | Some body => Some body
              | None =>
                  option_map (fun b => a2 ++ opening_line tag ++ b)
                    (lazy_body true v)
              end) as Hlazy.
  { intros tag Hne Hw. destruct Ha2 as [->|Ha2].
    - cbn [app]. change (lazy_body true []) with (@None str).
      cbv iota. rewrite lazy_body_opening by done.
      by destruct (lazy_body true v).
    - rewrite lazy_body_app_lines by done.
      destruct (lazy_body true a2); [done|].
      rewrite lazy_body_opening by done. by destruct (lazy_body true v). }
  unfold rest1 in Hm1. unfold rest2 in Hm2.
  rewrite (Hlazy tag1 Hne1 Hw1) in Hm1. rewrite (Hlazy tag2 Hne2 Hw2) in Hm2.
  fold rest1 in Hm1. fold rest2 in Hm2.
  destruct (lazy_body true a2) as [body|] eqn:Hbody.
  - (* the block closes before the edited line *)
    destruct (lazy_body_lines _ _ _ Hbody) as [(r & Hr & Hr') _].
    assert (exists a4,
              r = nl :: a4 /\ (a4 = [] \/ exists a5, a4 = a5 ++ [nl]))
      as (a4 & -> & Ha4).
    { destruct Ha2 as [->|[a3 Ha3]]; [done|].
      destruct Hr' as [->|[r' ->]].
      - rewrite app_nil_r in Hr. rewrite Hr in Ha3.
        change (fence) with ([backtick; backtick] ++ [backtick]) in Ha3.
        rewrite app_assoc in Ha3. by apply app_inj_tail in Ha3 as [_ ?].
      - exists r'. split; [done|].
        destruct r' as [|z r' _] using rev_ind; [by left|]. right.
        exists r'. rewrite Hr in Ha3.
        change (nl :: r' ++ [z]) with ((nl :: r') ++ [z]) in Ha3.
        rewrite !app_assoc in Ha3. apply app_inj_tail in Ha3 as [_ ->].
        done. }
    set (m := {| m_start := 0;
                 m_end := 0 + 3 + length (drop 3 l) + 1 + length body + 3;
                 group1 := drop 3 l; group2 := body |}) in *.
    assert (forall tag,
              l ++ nl :: a2 ++ opening_line tag ++ v
              = block_text m ++ (nl :: a4) ++ opening_line tag ++ v) as Hs.
    { intros tag. unfold block_text, m. cbn [group1 group2].
      rewrite Hr, Hfence at 1. rewrite <- !app_assoc. cbn [app].
      by rewrite <- !app_assoc. }
    rewrite (walk_match langs p1 _ _ _ Hm1 (Hs tag1)).
    rewrite (walk_match langs p2 _ _ _ Hm2 (Hs tag2)).
    assert (forall p1' p2', forallb isspace p1' = forallb isspace p2' ->
              same_decisions
                (walk langs p1' false ((nl :: a4) ++ opening_line tag1 ++ v))
                (walk langs p2' false ((nl :: a4) ++ opening_line tag2 ++ v)))
      as Hafter.
    { intros p1' p2' Hp'. apply IH; [| |done|done].
      - apply (f_equal length) in Hr. rewrite !length_app in Hr.
        cbn [length] in Hr. cbn [length]. lia.
      - right. destruct Ha4 as [->|[a5 ->]]; [by exists []|].
        by exists (nl :: a5). }
    destruct (extracted langs m).
    + apply Forall2_app; [by apply prose_cell_same_decisions|].
      apply code_cell_same_decisions; [done|]. by apply Hafter.
    + apply Hafter. by apply blank_app_same.
  - destruct (lazy_body true v) as [b|] eqn:Hb; cbn [option_map] in Hm1, Hm2.
    + (* the block closes after the edited line *)
      apply lazy_body_spec in Hb as (r & Hv).
      assert (forall tag e,
                l ++ nl :: a2 ++ opening_line tag ++ v
                = block_text
                    {| m_start := 0; m_end := e; group1 := drop 3 l;
                       group2 := a2 ++ opening_line tag ++ b |} ++ r) as Hs.
      { intros tag e. unfold block_text. cbn [group1 group2].
        rewrite Hv, Hfence at 1. rewrite <- !app_assoc. cbn [app].
        by rewrite <- !app_assoc. }
      rewrite (walk_match langs p1 _ _ _ Hm1 (Hs tag1 _)).
      rewrite (walk_match langs p2 _ _ _ Hm2 (Hs tag2 _)).
      unfold extracted. cbn [group1].
      destruct (bool_decide (lower (drop 3 l) ∈ langs)).
      * apply Forall2_app; [by apply prose_cell_same_decisions|].
        apply code_cell_same_decisions; [done|]. apply same_decisions_refl.
      * apply (walk_same_text langs (length r)); [done|].
        by rewrite !not_blank_block.
    + by rewrite !walk_skip_line.
Qed.

End Retag.

Lemma retag_same_decisions (langs : gset str) (before tag1 tag2 rest : str) :
  before = [] \/ (exists b, before = b ++ [nl]) ->
  forallb isword tag1 = true ->
  forallb isword tag2 = true ->
  lower tag1 = lower tag2 ->
  same_decisions
    (extract_cells_from_section (before ++ fence ++ tag1 ++ nl :: rest) langs)
    (extract_cells_from_section (before ++ fence ++ tag2 ++ nl :: rest) langs).
Proof.
  intros Hbefore Hw1 Hw2 Hlower.
  destruct (decide (tag1 = [])) as [->|Hne1].
  { symmetry in Hlower. apply lower_nil in Hlower as ->.
    apply same_decisions_refl. }
  destruct (decide (tag2 = [])) as [->|Hne2].
  { apply lower_nil in Hlower as ->. apply same_decisions_refl. }
  rewrite !walk_extract.
  assert (forall tag, before ++ fence ++ tag ++ nl :: rest
                      = before ++ opening_line tag ++ rest) as Hline.
  { intros tag. unfold opening_line. by rewrite <- !app_assoc. }
  rewrite !Hline.
  apply (walk_retag langs tag1 tag2 Hw1 Hw2 Hne1 Hne2 Hlower (length before));
    [done|done|done|done].
Qed.

(** C7: among tags made of word characters, extraction looks at a tag only
    through its lower-casing.  When the tag on a fence line is replaced by
    another tag of word characters with the same lower-casing ([```Python]
    against [```python]), whatever comes before and after the line, the
    section gives as many cells, of the same kinds and with the same
    languages.  A block that the pattern finds gives its code cell exactly
    when its lower-cased tag is in the allow set, and every code cell
    carries as its language the lower-cased tag of the block it comes from.
    All of this holds for every allow set. *)
Theorem tag_lower_casing_decides
  (code_languages : gset str) (before tag1 tag2 rest : str) :
  before = [] \/ (exists b, before = b ++ [nl]) ->
  forallb isword tag1 = true ->
  forallb isword tag2 = true ->
  lower tag1 = lower tag2 ->
  same_decisions
    (extract_cells_from_section (before ++ fence ++ tag1 ++ nl :: rest)
       code_languages)
    (extract_cells_from_section (before ++ fence ++ tag2 ++ nl :: rest)
       code_languages) /\
  (forall (section : str) (m : Match),
     In m (finditer section) ->
     In (code_cell m) (extract_cells_from_section section code_languages) <->
     lower (group1 m) ∈ code_languages) /\
  (forall (section : str) (c : Cell),
     In c (extract_cells_from_section section code_languages) ->
     cell_type c = code ->
     exists m, In m (finditer section) /\
               lower (group1 m) ∈ code_languages /\
               cell_language c = Some (lower (group1 m)) /\
               cell_content c = rstrip (group2 m)).
Proof.
  intros Hbefore Hw1 Hw2 Hlower. split; [|split].
  - by apply retag_same_decisions.
  - intros section m Hm. split.
    + intros Hin.
      destruct (proj1 (extract_code_cell_iff section code_languages
                         (code_cell m)) (conj Hin eq_refl))
        as (m' & _ & Hex & Hcell).
      apply bool_decide_eq_true in Hex.
      injection Hcell as _ Hl. by rewrite Hl.
    + intros Hin.
      apply (extract_code_cell_iff section code_languages (code_cell m)).
      exists m. split; [done|]. split; [|done].
      by apply bool_decide_eq_true.
  - intros section c Hc Htype.
    destruct (proj1 (extract_code_cell_iff section code_languages c)
                (conj Hc Htype)) as (m & Hm & Hex & ->).
    exists m. split; [done|]. split; [|done].
    by apply bool_decide_eq_true in Hex.
Qed.

Lemma tag_lower_casing_decides_witness :
  (lit "Intro" ++ [nl] = [] \/ exists b, lit "Intro" ++ [nl] = b ++ [nl]) /\
  forallb isword (lit "Python") = true /\
  forallb isword (lit "python") = true /\
  lower (lit "Python") = lower (lit "python") /\
  extract_cells_from_section section_python_capital DEFAULT_CODE_LANGUAGES
  = [{| cell_type := markdown; cell_content := lit "Intro";
        cell_language := None |};
     {| cell_type := code; cell_content := lit "x = 1";
        cell_language := Some (lit "python") |}] /\
  same_decisions
    (extract_cells_from_section section_python_capital DEFAULT_CODE_LANGUAGES)
    (extract_cells_from_section section_python_small DEFAULT_CODE_LANGUAGES).
Proof.
  assert (lit "Intro" ++ [nl] = [] \/ exists b, lit "Intro" ++ [nl] = b ++ [nl])
    as H1 by (right; by exists (lit "Intro")).
  assert (forallb isword (lit "Python") = true) as H2 by reflexivity.
  assert (forallb isword (lit "python") = true) as H3 by reflexivity.
  assert (lower (lit "Python") = lower (lit "python")) as H4 by reflexivity.
  split; [exact H1|]. split; [exact H2|]. split; [exact H3|].
  split; [exact H4|]. split; [vm_compute; reflexivity|].
  exact (proj1
    (tag_lower_casing_decides DEFAULT_CODE_LANGUAGES (lit "Intro" ++ [nl])
       (lit "Python") (lit "python")
       (join [nl] [lit "x = 1"; lit "```"]) H1 H2 H3 H4)).
Defined.

(** C7, as stated, fails outside Latin-1.  The tag that is the capital I
    with dot above (U+0130) is a word character, and its lower-casing, [i]
    followed by the combining dot U+0307, is its own lower-casing; with
    that lower-case tag as the allow set, the block tagged U+0130 is
    extracted.  Once the tag in the text is
    lower-cased, the fence line holds U+0307, which is not a word
    character: the pattern finds no block and the text stays markdown. *)
Lemma lower_cased_tag_not_extracted :
  Wide.lower (Wide.lower [Wide.CapitalIDot]) = Wide.lower [Wide.CapitalIDot] /\
  Wide.extract_cells_from_section (Wide.tagged_block [Wide.CapitalIDot])
    {[ Wide.lower [Wide.CapitalIDot] ]}
  = [{| Wide.cell_type := code; Wide.cell_content := Wide.lit "x";
        Wide.cell_language := Some (Wide.lower [Wide.CapitalIDot]) |}] /\
  Wide.extract_cells_from_section
    (Wide.tagged_block (Wide.lower [Wide.CapitalIDot]))
    {[ Wide.lower [Wide.CapitalIDot] ]}
  = [{| Wide.cell_type := markdown;
        Wide.cell_content := Wide.tagged_block (Wide.lower [Wide.CapitalIDot]);
        Wide.cell_language := None |}].
Proof. split; [reflexivity|]. split; vm_compute; reflexivity. Qed.
